(** * CompressorX: batch compression scheduler, transform and history store

    A shallow embedding of the TypeScript sources of CompressorX and the
    properties of its specification.

    - [JS]: the JavaScript [number] values the code computes with.
    - [Types]: [src/types] (options, queue items, constants).
    - [FileHelpers]: [src/lib/utils/file-helpers.ts].
    - [ZipGenerator]: [src/lib/utils/zip-generator.ts].
    - [Platform]: the browser calls of one compression and their outcomes.
    - [Compressor]: [src/lib/compression/compressor.ts].
    - [Worker]: [src/workers/compression.worker.ts].
    - [ProcessingStore]: [src/stores/processing.store.ts].
    - [HistoryStore]: [src/lib/storage/indexed-db.ts].
    - [ImageStore]: [src/stores/images.store.ts].
    - [BatchProcessing]: [src/hooks/useBatchProcessing.ts].
    - [Spec]: the formulas and predicates of the specification.
    - [Examples]: sample data.

    The properties follow the definitions, one section per component. *)

From Stdlib Require Import ZArith QArith Qround Qabs Qpower Lia Lqa Bool List
  Ascii.
From Stdlib Require Import Sorting.Mergesort Sorting.Sorted.
From Stdlib Require Import Sorting.Permutation Orders.
From stdpp Require Import gmap strings list fin_maps sorting pretty.
Import ListNotations.

(** ** JavaScript numbers

    A [number] is NaN, an infinity or a finite value, held as a rational;
    the sign of zero is not modelled.  The operations follow ECMAScript on
    the special values.  [add], [sub], [mul] and [div] give the exact
    result on finite values; [fmul] and [fdiv] round it to binary64 as the
    machine does, and are the product and quotient of the dimension
    functions. *)
Module JS.
#[local] Open Scope Q_scope.

Inductive number : Type :=
  | NaN
  | PosInf
  | NegInf
  | Fin (q : Q).

Definition ofZ (z : Z) : number := Fin (inject_Z z).

Definition Qltb (x y : Q) : bool := negb (Qle_bool y x).

Definition isNaN (a : number) : bool :=
  match a with NaN => true | _ => false end.

(** [a <= b] *)
Definition le (a b : number) : bool :=
  match a, b with
  | NaN, _ | _, NaN => false
  | NegInf, _ => true
  | _, PosInf => true
  | Fin x, Fin y => Qle_bool x y
  | _, _ => false
  end.

(** [a < b] *)
Definition lt (a b : number) : bool :=
  match a, b with
  | NaN, _ | _, NaN => false
  | Fin x, Fin y => Qltb x y
  | NegInf, NegInf => false
  | NegInf, _ => true
  | Fin _, PosInf => true
  | _, _ => false
  end.

(** [a > b] and [a >= b] *)
Definition gt (a b : number) : bool := lt b a.
Definition ge (a b : number) : bool := le b a.

(** An infinity of the given sign. *)
Definition inf (negative : bool) : number :=
  if negative then NegInf else PosInf.

(** [a + b] *)
Definition add (a b : number) : number :=
  match a, b with
  | NaN, _ | _, NaN => NaN
  | Fin x, Fin y => Fin (x + y)
  | PosInf, NegInf | NegInf, PosInf => NaN
  | PosInf, _ | _, PosInf => PosInf
  | NegInf, _ | _, NegInf => NegInf
  end.

(** [a - b] *)
Definition sub (a b : number) : number :=
  match a, b with
  | NaN, _ | _, NaN => NaN
  | Fin x, Fin y => Fin (x - y)
  | PosInf, PosInf | NegInf, NegInf => NaN
  | PosInf, _ | _, NegInf => PosInf
  | NegInf, _ | _, PosInf => NegInf
  end.

(** [a * b] *)
Definition mul (a b : number) : number :=
  match a, b with
  | NaN, _ | _, NaN => NaN
  | Fin x, Fin y => Fin (x * y)
  | Fin x, PosInf | PosInf, Fin x =>
      if Qeq_bool x 0 then NaN else inf (Qltb x 0)
  | Fin x, NegInf | NegInf, Fin x =>
      if Qeq_bool x 0 then NaN else inf (negb (Qltb x 0))
  | PosInf, PosInf | NegInf, NegInf => PosInf
  | PosInf, NegInf | NegInf, PosInf => NegInf
  end.

(** [a / b] *)
Definition div (a b : number) : number :=
  match a, b with
  | NaN, _ | _, NaN => NaN
  | Fin x, Fin y =>
      if Qeq_bool y 0
      then (if Qeq_bool x 0 then NaN else inf (Qltb x 0))
      else Fin (x / y)
  | Fin _, _ => Fin 0
  | PosInf, Fin y => inf (Qltb y 0)
  | NegInf, Fin y => inf (negb (Qltb y 0))
  | _, _ => NaN
  end.

(** The exponent of a positive rational [x]: the [e] with
    [2^e <= x < 2^(e+1)]. *)
Definition exponent (x : Q) : Z :=
  let k := (Z.log2 (Qnum x) - Z.log2 (Z.pos (Qden x)))%Z in
  if Qle_bool (2 ^ k) x then k else (k - 1)%Z.

(** The integer nearest to [y], a half going to the even one. *)
Definition nearestEven (y : Q) : Z :=
  let f := Qfloor y in
  match Qcompare (y - inject_Z f) (1 # 2) with
  | Lt => f
  | Gt => (f + 1)%Z
  | Eq => if Z.even f then f else (f + 1)%Z
  end.

(** The unit in the last place of the binary64 values around the rational
    [x]: 53 bits of significand, the exponent not below -1022. *)
Definition ulp (x : Q) : Q := 2 ^ (Z.max (exponent (Qabs x)) (-1022) - 52).

(** The magnitude of the binary64 value of the rational [x], were the
    exponent unbounded above: the multiple of the unit in the last place
    nearest to [x], a tie going to the even one. *)
Definition nearest (x : Q) : Q :=
  inject_Z (nearestEven (Qabs x / ulp x)) * ulp x.

(** The binary64 value of the rational [x]: an infinity when the nearest
    magnitude reaches [2^1024]. *)
Definition binary64 (x : Q) : number :=
  let r := nearest x in
  if Qle_bool (2 ^ 1024) r then inf (Qltb x 0)
  else Fin (if Qltb x 0 then - r else r).

(** [a * b] and [a / b] as computed: the exact result rounded to
    binary64. *)
Definition fmul (a b : number) : number :=
  match mul a b with
  | Fin q => binary64 q
  | special => special
  end.

Definition fdiv (a b : number) : number :=
  match div a b with
  | Fin q => binary64 q
  | special => special
  end.

(** [Math.min(a, b)] and [Math.max(a, b)] *)
Definition min (a b : number) : number :=
  if isNaN a || isNaN b then NaN else if le a b then a else b.

Definition max (a b : number) : number :=
  if isNaN a || isNaN b then NaN else if le a b then b else a.

(** [Math.round(a)]: the nearest integer, halves towards plus infinity. *)
Definition round (a : number) : number :=
  match a with
  | Fin q => ofZ (Qfloor (q + (1 # 2)))
  | _ => a
  end.

(** The value of an optional [number] property where a number is expected:
    [undefined] converts to NaN. *)
Definition valueOf (o : option number) : number :=
  match o with Some n => n | None => NaN end.

(** Truthiness of an optional [number] property: [undefined], [0] and NaN
    are falsy. *)
Definition truthy (o : option number) : bool :=
  match o with
  | None | Some NaN => false
  | Some (Fin q) => negb (Qeq_bool q 0)
  | Some _ => true
  end.

(** [a === b] *)
Definition strictEq (a b : number) : bool :=
  match a, b with
  | Fin x, Fin y => Qeq_bool x y
  | PosInf, PosInf | NegInf, NegInf => true
  | _, _ => false
  end.

(** [a] and [b] are the same value. *)
Definition same (a b : number) : Prop :=
  match a, b with
  | Fin x, Fin y => x == y
  | NaN, NaN | PosInf, PosInf | NegInf, NegInf => True
  | _, _ => False
  end.

(** The rational [x] is a binary64 value. *)
Definition isBinary64 (x : Q) : Prop := same (binary64 x) (Fin x).

(** [a] is a finite value between [lo] and [hi]. *)
Definition between (lo hi : Q) (a : number) : Prop :=
  match a with Fin q => lo <= q /\ q <= hi | _ => False end.

End JS.

(** ** [src/types] *)
Module Types.

Inductive OutputFormat := jpeg | png | webp | avif.

Record CompressionOptions := {
  quality : JS.number;
  format : OutputFormat;
  maxWidth : option JS.number;
  maxHeight : option JS.number;
  maintainAspectRatio : bool;
  stripMetadata : bool;
  progressive : option bool
}.

Record CompressedResult := {
  originalSize : JS.number;
  compressedSize : JS.number;
  width : JS.number;
  height : JS.number;
  resultFormat : OutputFormat;
  compressionRatio : JS.number
}.

Definition MAX_CONCURRENT_PROCESSING : nat := 4.

(** The string an [OutputFormat] is in the source. *)
Definition formatName (format : OutputFormat) : string :=
  match format with
  | jpeg => "jpeg"
  | png => "png"
  | webp => "webp"
  | avif => "avif"
  end.

End Types.

(** ** [src/lib/utils/file-helpers.ts] *)
Module FileHelpers.

Record DimensionConstraints := {
  maxWidth : option JS.number;
  maxHeight : option JS.number;
  maintainAspectRatio : bool
}.

Record Dimensions := {
  width : JS.number;
  height : JS.number
}.

Definition calculateDimensions (original : Dimensions)
    (options : DimensionConstraints) : Dimensions :=
  let maxWidth := maxWidth options in
  let maxHeight := maxHeight options in
  if JS.le (width original) (JS.ofZ 0) || JS.le (height original) (JS.ofZ 0)
  then {| width := JS.ofZ 0; height := JS.ofZ 0 |}
  else if negb (JS.truthy maxWidth) && negb (JS.truthy maxHeight)
  then {| width := width original; height := height original |}
  else if negb (maintainAspectRatio options)
  then {| width := if JS.truthy maxWidth
                   then JS.min (width original) (JS.valueOf maxWidth)
                   else width original;
          height := if JS.truthy maxHeight
                    then JS.min (height original) (JS.valueOf maxHeight)
                    else height original |}
  else
    let aspectRatio := JS.fdiv (width original) (height original) in
    let newWidth := width original in
    let newHeight := height original in
    let '(newWidth, newHeight) :=
      if JS.truthy maxWidth && JS.gt newWidth (JS.valueOf maxWidth)
      then (JS.valueOf maxWidth, JS.fdiv (JS.valueOf maxWidth) aspectRatio)
      else (newWidth, newHeight) in
    let '(newWidth, newHeight) :=
      if JS.truthy maxHeight && JS.gt newHeight (JS.valueOf maxHeight)
      then (JS.fmul (JS.valueOf maxHeight) aspectRatio, JS.valueOf maxHeight)
      else (newWidth, newHeight) in
    {| width := JS.round newWidth; height := JS.round newHeight |}.

Definition calculateCompressionRatio (originalSize compressedSize : JS.number)
    : JS.number :=
  if JS.le originalSize (JS.ofZ 0) then JS.ofZ 0
  else
    let ratio :=
      JS.mul (JS.div (JS.sub originalSize compressedSize) originalSize)
             (JS.ofZ 100) in
    JS.max (JS.ofZ 0) (JS.min (JS.ofZ 100) ratio).

Inductive CompressionIndicator := green | yellow | orange.

Definition getCompressionIndicator (ratio : JS.number)
    : CompressionIndicator :=
  if JS.gt ratio (JS.ofZ 60) then green
  else if JS.ge ratio (JS.ofZ 30) then yellow
  else orange.

(** [s.lastIndexOf(c)] for a character [c]: the index of its last
    occurrence in [s], or -1. *)
Fixpoint lastIndexOf (c : ascii) (s : string) : Z :=
  match s with
  | EmptyString => -1
  | String a rest =>
      let i := lastIndexOf c rest in
      if (0 <=? i)%Z then (1 + i)%Z
      else if Ascii.eqb a c then 0%Z else (-1)%Z
  end.

(** Strings are sequences of characters; the function only looks for the
    last ['.'] and cuts there. *)
Definition generateCompressedFilename (originalName : string)
    (format : Types.OutputFormat) : string :=
  let lastDotIndex := lastIndexOf "." originalName in
  let baseName :=
    if (0 <? lastDotIndex)%Z
    then String.substring 0 (Z.to_nat lastDotIndex) originalName
    else originalName in
  let extension :=
    match format with
    | Types.jpeg => "jpg"
    | _ => Types.formatName format
    end in
  baseName +:+ "_compressed." +:+ extension.

End FileHelpers.

(** ** [src/lib/utils/zip-generator.ts] *)
Module ZipGenerator.

(** A [Blob] is an opaque handle. *)
Definition Blob : Type := string.

Record ZipImageItem := {
  blob : Blob;
  originalFilename : string;
  format : Types.OutputFormat
}.

(** [s.substring(start, end)]: both indexes are clamped to the string and
    swapped when out of order. *)
Definition substring (s : string) (start end' : Z) : string :=
  let clamp (i : Z) : nat :=
    Z.to_nat (Z.max 0 (Z.min i (Z.of_nat (String.length s)))) in
  let first := Nat.min (clamp start) (clamp end') in
  let last := Nat.max (clamp start) (clamp end') in
  String.substring first (last - first) s.

(** [s.substring(start)] *)
Definition substringFrom (s : string) (start : Z) : string :=
  substring s start (Z.of_nat (String.length s)).

(** The name tried for a duplicate at a value of [counter]. *)
Definition numbered (baseName extension : string) (counter : nat) : string :=
  baseName +:+ "_" +:+ pretty counter +:+ extension.

(** The [while] loop that looks for a free name, run for at most [fuel]
    rounds: the value of [counter] when it ends. *)
Fixpoint freeCounter (fuel : nat) (usedFilenames : gset string)
    (baseName extension : string) (counter : nat) : option nat :=
  match fuel with
  | O => None
  | S fuel =>
      if decide (numbered baseName extension counter ∈ usedFilenames)
      then freeCounter fuel usedFilenames baseName extension (S counter)
      else Some counter
  end.

(** [zip.file(name, data)] on the file entries of the archive, in the order
    they were added: an entry of that name is replaced.  The folder entries
    JSZip adds for a name with a slash are left out. *)
Definition file (name : string) (data : Blob)
    (entries : list (string * Blob)) : list (string * Blob) :=
  if decide (name ∈ entries.*1)
  then (fun entry => if String.eqb (fst entry) name then (name, data)
                     else entry) <$> entries
  else entries ++ [(name, data)].

(** One round of the loop over the images: the names used so far and the
    entries of the archive.  The inner loop gets one round more than there
    are used names. *)
Definition addImage (state : gset string * list (string * Blob))
    (image : ZipImageItem) : option (gset string * list (string * Blob)) :=
  let '(usedFilenames, entries) := state in
  let filename :=
    FileHelpers.generateCompressedFilename (originalFilename image)
                                           (format image) in
  filename' ←
    (if decide (filename ∈ usedFilenames)
     then
       let baseName :=
         substring filename 0 (FileHelpers.lastIndexOf "." filename) in
       let extension :=
         substringFrom filename (FileHelpers.lastIndexOf "." filename) in
       counter ← freeCounter (S (size usedFilenames)) usedFilenames
                             baseName extension 1;
       Some (numbered baseName extension counter)
     else Some filename);
  Some ({[filename']} ∪ usedFilenames, file filename' (blob image) entries).

(** The entries [generateZip] adds to the archive before it is generated,
    and the [fileCount] it reports. *)
Definition generateZip (images : list ZipImageItem)
    : option (list (string * Blob) * nat) :=
  state ← foldl (fun state image => state ≫= fun st => addImage st image)
                (Some (∅, [])) images;
  Some (snd state, length images).

End ZipGenerator.

(** ** The browser calls of the transform

    One compression decodes a bitmap, creates a canvas, draws and encodes.
    Each call returns or throws; what it does is given from outside. *)
Module Platform.

(** What a [catch] clause receives: an [Error] with its message, or some
    other value. *)
Inductive Thrown :=
  | ErrorObject (message : string)
  | OtherValue.

Inductive Outcome (A : Type) :=
  | Ok (value : A)
  | Fails (thrown : Thrown).
Arguments Ok {A} value.
Arguments Fails {A} thrown.

Record Calls := {
  (** the width and height of the decoded bitmap *)
  createImageBitmap : Outcome (JS.number * JS.number);
  (** [new OffscreenCanvas(width, height)] *)
  newOffscreenCanvas : JS.number -> JS.number -> Outcome unit;
  (** [canvas.getContext('2d')]: whether a context is returned *)
  getContext : Outcome bool;
  drawImage : Outcome unit;
  (** [canvas.convertToBlob({ type, quality })]: the size of the blob *)
  convertToBlob : string -> option JS.number -> Outcome JS.number
}.

(** A computation that leaves a trace of effects [E] and returns or
    throws. *)
Definition Run (E A : Type) : Type := list E * Outcome A.

Definition ret {E A : Type} (a : A) : Run E A := ([], Ok a).

Definition bind {E A B : Type} (m : Run E A) (f : A -> Run E B) : Run E B :=
  match m with
  | (trace, Ok a) => let '(trace', r) := f a in (trace ++ trace', r)
  | (trace, Fails t) => (trace, Fails t)
  end.

Definition emit {E : Type} (e : E) : Run E unit := ([e], Ok tt).

Definition call {E A : Type} (o : Outcome A) : Run E A := ([], o).

Definition throw {E A : Type} (t : Thrown) : Run E A := ([], Fails t).

End Platform.

Notation "'let*' x ':=' m 'in' k" := (Platform.bind m (fun x => k))
  (at level 10, x name, m at level 100, k at level 200).

(** ** [src/lib/compression/compressor.ts] *)
Module Compressor.
Import Types.

Definition isValidQuality (quality : JS.number) : bool :=
  negb (JS.isNaN quality) && JS.ge quality (JS.ofZ 0)
  && JS.le quality (JS.ofZ 100).

(** [typeof quality !== 'number'] never holds of a [number]. *)
Definition clampQuality (quality : JS.number) : JS.number :=
  if JS.isNaN quality then JS.ofZ 70
  else JS.max (JS.ofZ 0) (JS.min (JS.ofZ 100) (JS.round quality)).

Definition validateCompressionOptions (options : CompressionOptions)
    : CompressionOptions :=
  {| quality := clampQuality (quality options);
     format := format options;
     maxWidth := maxWidth options;
     maxHeight := maxHeight options;
     maintainAspectRatio := maintainAspectRatio options;
     stripMetadata := stripMetadata options;
     progressive := progressive options |}.

(** The [default] branch is not reached by an [OutputFormat]. *)
Definition getMimeType (format : OutputFormat) : string :=
  match format with
  | jpeg => "image/jpeg"
  | png => "image/png"
  | webp => "image/webp"
  | avif => "image/avif"
  end.

Definition calculateOutputDimensions (originalWidth originalHeight : JS.number)
    (options : CompressionOptions) : FileHelpers.Dimensions :=
  let maxWidth := maxWidth options in
  let maxHeight := maxHeight options in
  if JS.le originalWidth (JS.ofZ 0) || JS.le originalHeight (JS.ofZ 0)
  then {| FileHelpers.width := JS.ofZ 0; FileHelpers.height := JS.ofZ 0 |}
  else if negb (JS.truthy maxWidth) && negb (JS.truthy maxHeight)
  then {| FileHelpers.width := originalWidth;
          FileHelpers.height := originalHeight |}
  else if negb (maintainAspectRatio options)
  then {| FileHelpers.width :=
            if JS.truthy maxWidth
            then JS.min originalWidth (JS.valueOf maxWidth)
            else originalWidth;
          FileHelpers.height :=
            if JS.truthy maxHeight
            then JS.min originalHeight (JS.valueOf maxHeight)
            else originalHeight |}
  else
    let aspectRatio := JS.fdiv originalWidth originalHeight in
    let newWidth := originalWidth in
    let newHeight := originalHeight in
    let '(newWidth, newHeight) :=
      if JS.truthy maxWidth && JS.gt newWidth (JS.valueOf maxWidth)
      then (JS.valueOf maxWidth, JS.fdiv (JS.valueOf maxWidth) aspectRatio)
      else (newWidth, newHeight) in
    let '(newWidth, newHeight) :=
      if JS.truthy maxHeight && JS.gt newHeight (JS.valueOf maxHeight)
      then (JS.fmul (JS.valueOf maxHeight) aspectRatio, JS.valueOf maxHeight)
      else (newWidth, newHeight) in
    {| FileHelpers.width := JS.round newWidth;
       FileHelpers.height := JS.round newHeight |}.

(** What [compressImage] does besides calling the browser: a report to
    [onProgress], when one is given, and [imageBitmap.close()]. *)
Inductive Effect :=
  | OnProgress (progress : JS.number)
  | Close.

(** [compressImage] on a file of [fileSize] bytes. *)
Definition compressImage (calls : Platform.Calls) (fileSize : JS.number)
    (options : CompressionOptions) : Platform.Run Effect CompressedResult :=
  let validatedOptions := validateCompressionOptions options in
  let* _ := Platform.emit (OnProgress (JS.ofZ 10)) in
  let* imageBitmap := Platform.call (Platform.createImageBitmap calls) in
  let* _ := Platform.emit (OnProgress (JS.ofZ 30)) in
  let dimensions :=
    calculateOutputDimensions (fst imageBitmap) (snd imageBitmap)
                              validatedOptions in
  let width := FileHelpers.width dimensions in
  let height := FileHelpers.height dimensions in
  if JS.strictEq width (JS.ofZ 0) || JS.strictEq height (JS.ofZ 0)
  then
    let* _ := Platform.emit Close in
    Platform.throw (Platform.ErrorObject "Invalid image dimensions")
  else
    let* _ :=
      Platform.call (Platform.newOffscreenCanvas calls width height) in
    let* ctx := Platform.call (Platform.getContext calls) in
    if negb ctx
    then
      let* _ := Platform.emit Close in
      Platform.throw (Platform.ErrorObject "Failed to get canvas context")
    else
      let* _ := Platform.call (Platform.drawImage calls) in
      let* _ := Platform.emit (OnProgress (JS.ofZ 50)) in
      let mimeType := getMimeType (format validatedOptions) in
      let quality := JS.div (quality validatedOptions) (JS.ofZ 100) in
      let* blobSize :=
        Platform.call
          match format validatedOptions with
          | png => Platform.convertToBlob calls mimeType None
          | _ => Platform.convertToBlob calls mimeType (Some quality)
          end in
      let* _ := Platform.emit (OnProgress (JS.ofZ 90)) in
      let* _ := Platform.emit Close in
      let originalSize := fileSize in
      let compressedSize := blobSize in
      let compressionRatio :=
        JS.mul (JS.div (JS.sub originalSize compressedSize) originalSize)
               (JS.ofZ 100) in
      let* _ := Platform.emit (OnProgress (JS.ofZ 100)) in
      Platform.ret
        {| originalSize := originalSize;
           compressedSize := compressedSize;
           width := width;
           height := height;
           resultFormat := format validatedOptions;
           compressionRatio :=
             JS.max (JS.ofZ 0) (JS.min (JS.ofZ 100) compressionRatio) |}.

(** [createCompressedResult] on a blob of [blobSize] bytes. *)
Definition createCompressedResult (blobSize originalSize : JS.number)
    (width' height' : JS.number) (format' : OutputFormat)
    : CompressedResult :=
  let compressedSize := blobSize in
  let compressionRatio :=
    if JS.gt originalSize (JS.ofZ 0)
    then JS.mul (JS.div (JS.sub originalSize compressedSize) originalSize)
                (JS.ofZ 100)
    else JS.ofZ 0 in
  {| originalSize := originalSize;
     compressedSize := compressedSize;
     width := width';
     height := height';
     resultFormat := format';
     compressionRatio :=
       JS.max (JS.ofZ 0) (JS.min (JS.ofZ 100) compressionRatio) |}.

End Compressor.

(** ** [src/workers/compression.worker.ts] *)
Module Worker.
Import Types.

Definition calculateOutputDimensions (originalWidth originalHeight : JS.number)
    (options : CompressionOptions) : FileHelpers.Dimensions :=
  let maxWidth := maxWidth options in
  let maxHeight := maxHeight options in
  if negb (JS.truthy maxWidth) && negb (JS.truthy maxHeight)
  then {| FileHelpers.width := originalWidth;
          FileHelpers.height := originalHeight |}
  else if negb (maintainAspectRatio options)
  then {| FileHelpers.width :=
            if JS.truthy maxWidth
            then JS.min originalWidth (JS.valueOf maxWidth)
            else originalWidth;
          FileHelpers.height :=
            if JS.truthy maxHeight
            then JS.min originalHeight (JS.valueOf maxHeight)
            else originalHeight |}
  else
    let aspectRatio := JS.fdiv originalWidth originalHeight in
    let newWidth := originalWidth in
    let newHeight := originalHeight in
    let '(newWidth, newHeight) :=
      if JS.truthy maxWidth && JS.gt newWidth (JS.valueOf maxWidth)
      then (JS.valueOf maxWidth, JS.fdiv (JS.valueOf maxWidth) aspectRatio)
      else (newWidth, newHeight) in
    let '(newWidth, newHeight) :=
      if JS.truthy maxHeight && JS.gt newHeight (JS.valueOf maxHeight)
      then (JS.fmul (JS.valueOf maxHeight) aspectRatio, JS.valueOf maxHeight)
      else (newWidth, newHeight) in
    {| FileHelpers.width := JS.round newWidth;
       FileHelpers.height := JS.round newHeight |}.

(** The [compressionRatio] field of the record [compressImage] returns, from
    the byte length of the request and the size of the encoded blob. *)
Definition compressImage_compressionRatio
    (originalSize compressedSize : JS.number) : JS.number :=
  let compressionRatio :=
    JS.mul (JS.div (JS.sub originalSize compressedSize) originalSize)
           (JS.ofZ 100) in
  JS.max (JS.ofZ 0) (JS.min (JS.ofZ 100) compressionRatio).

Definition getMimeType (format : OutputFormat) : string :=
  match format with
  | jpeg => "image/jpeg"
  | png => "image/png"
  | webp => "image/webp"
  | avif => "image/avif"
  end.

(** A [WorkerRequest] as it arrives: its [type] is any string, and of
    [imageData] the handler reads the byte length. *)
Record WorkerRequest := {
  type : string;
  id : string;
  byteLength : JS.number;
  options : CompressionOptions
}.

(** A [WorkerResponse] as the worker builds it. *)
Inductive WorkerResponse :=
  | progress (id' : string) (progress' : JS.number)
  | complete (id' : string) (data : CompressedResult)
  | error (id' : string) (error' : string).

(** What the worker does besides calling the browser: [ctx.postMessage] and
    [imageBitmap.close()]. *)
Inductive Effect :=
  | PostMessage (response : WorkerResponse)
  | Close.

Definition postProgressMessage (id' : string) (progress' : JS.number)
    : Platform.Run Effect unit :=
  Platform.emit (PostMessage (progress id' progress')).

Definition postCompleteMessage (id' : string) (data : CompressedResult)
    : Platform.Run Effect unit :=
  Platform.emit (PostMessage (complete id' data)).

Definition postErrorMessage (id' : string) (error' : string)
    : Platform.Run Effect unit :=
  Platform.emit (PostMessage (error id' error')).

Definition compressImage (calls : Platform.Calls)
    (imageBitmap : JS.number * JS.number) (originalSize : JS.number)
    (options : CompressionOptions) (requestId : string)
    : Platform.Run Effect CompressedResult :=
  let dimensions :=
    calculateOutputDimensions (fst imageBitmap) (snd imageBitmap) options in
  let width := FileHelpers.width dimensions in
  let height := FileHelpers.height dimensions in
  let* _ := Platform.call (Platform.newOffscreenCanvas calls width height) in
  let* ctx := Platform.call (Platform.getContext calls) in
  if negb ctx
  then Platform.throw (Platform.ErrorObject "Failed to get canvas context")
  else
    let* _ := Platform.call (Platform.drawImage calls) in
    let* _ := postProgressMessage requestId (JS.ofZ 50) in
    let mimeType := getMimeType (format options) in
    let quality := JS.div (quality options) (JS.ofZ 100) in
    let* blobSize :=
      Platform.call
        match format options with
        | png => Platform.convertToBlob calls mimeType None
        | _ => Platform.convertToBlob calls mimeType (Some quality)
        end in
    let* _ := postProgressMessage requestId (JS.ofZ 90) in
    Platform.ret
      {| originalSize := originalSize;
         compressedSize := blobSize;
         width := width;
         height := height;
         resultFormat := format options;
         compressionRatio :=
           compressImage_compressionRatio originalSize blobSize |}.

(** [ctx.onmessage]: the effects of handling one request, in order. *)
Definition onmessage (calls : Platform.Calls) (request : WorkerRequest)
    : list Effect :=
  if negb (String.eqb (type request) "compress")
  then fst (postErrorMessage (id request)
              ("Unknown message type: " +:+ type request))
  else
    let attempt :=
      let* _ := postProgressMessage (id request) (JS.ofZ 10) in
      let* imageBitmap := Platform.call (Platform.createImageBitmap calls) in
      let* _ := postProgressMessage (id request) (JS.ofZ 30) in
      let* result := compressImage calls imageBitmap (byteLength request)
                       (options request) (id request) in
      let* _ := Platform.emit Close in
      postCompleteMessage (id request) result in
    match attempt with
    | (trace, Platform.Ok _) => trace
    | (trace, Platform.Fails thrown) =>
        let errorMessage :=
          match thrown with
          | Platform.ErrorObject message => message
          | Platform.OtherValue => "Unknown compression error"
          end in
        trace ++ fst (postErrorMessage (id request) errorMessage)
    end.

End Worker.

(** ** [src/stores/processing.store.ts] *)
Module ProcessingStore.

Inductive Status := queued | processing | complete | error.

Definition Status_eqb (a b : Status) : bool :=
  match a, b with
  | queued, queued | processing, processing
  | complete, complete | error, error => true
  | _, _ => false
  end.

(** [ProcessingQueueItem] of [src/types/compression.types.ts]; the times are
    the milliseconds of [Date.now()]. *)
Record ProcessingQueueItem := {
  id : string;
  imageId : string;
  status : Status;
  progress : JS.number;
  startTime : option Z;
  endTime : option Z
}.

(** [Partial<ProcessingQueueItem>]: a key is either absent or carries a
    value. *)
Record PartialItem := {
  p_id : option string;
  p_imageId : option string;
  p_status : option Status;
  p_progress : option JS.number;
  p_startTime : option Z;
  p_endTime : option Z
}.

Definition noUpdates : PartialItem :=
  {| p_id := None; p_imageId := None; p_status := None;
     p_progress := None; p_startTime := None; p_endTime := None |}.

(** [{ ...item, ...updates }] *)
Definition spread (item : ProcessingQueueItem) (updates : PartialItem)
    : ProcessingQueueItem :=
  {| id := default (id item) (p_id updates);
     imageId := default (imageId item) (p_imageId updates);
     status := default (status item) (p_status updates);
     progress := default (progress item) (p_progress updates);
     startTime := match p_startTime updates with
                  | Some t => Some t | None => startTime item end;
     endTime := match p_endTime updates with
                | Some t => Some t | None => endTime item end |}.

Record ProcessingStoreState := {
  queue : list ProcessingQueueItem;
  isProcessing : bool
}.

Definition initialState : ProcessingStoreState :=
  {| queue := []; isProcessing := false |}.

Definition addToQueue (items : list ProcessingQueueItem)
    (state : ProcessingStoreState) : ProcessingStoreState :=
  {| queue := queue state ++ items; isProcessing := true |}.

Definition updateQueueItem (id' : string) (updates : PartialItem)
    (state : ProcessingStoreState) : ProcessingStoreState :=
  {| queue := map (fun item =>
                     if String.eqb (id item) id' then spread item updates
                     else item) (queue state);
     isProcessing := isProcessing state |}.

Definition removeFromQueue (id' : string) (state : ProcessingStoreState)
    : ProcessingStoreState :=
  let newQueue :=
    List.filter (fun item => negb (String.eqb (id item) id')) (queue state) in
  {| queue := newQueue;
     isProcessing :=
       existsb (fun item => Status_eqb (status item) queued
                            || Status_eqb (status item) processing) newQueue |}.

Definition clearQueue (state : ProcessingStoreState) : ProcessingStoreState :=
  {| queue := []; isProcessing := false |}.

Definition getProcessingCount (state : ProcessingStoreState) : nat :=
  length (List.filter (fun item => Status_eqb (status item) processing)
                      (queue state)).

Definition canStartProcessing (state : ProcessingStoreState) : bool :=
  getProcessingCount state <? Types.MAX_CONCURRENT_PROCESSING.

(** [startProcessing(id)] at the time [now] of [Date.now()]: the new state
    and the returned boolean. *)
Definition startProcessing (now : Z) (id' : string)
    (state : ProcessingStoreState) : ProcessingStoreState * bool :=
  let processingCount := getProcessingCount state in
  if Types.MAX_CONCURRENT_PROCESSING <=? processingCount then (state, false)
  else
    match List.find (fun item => String.eqb (id item) id') (queue state) with
    | None => (state, false)
    | Some item =>
        if negb (Status_eqb (status item) queued) then (state, false)
        else
          ({| queue := map (fun item =>
                              if String.eqb (id item) id'
                              then {| id := id item;
                                      imageId := imageId item;
                                      status := processing;
                                      progress := progress item;
                                      startTime := Some now;
                                      endTime := endTime item |}
                              else item) (queue state);
              isProcessing := isProcessing state |}, true)
    end.

(** The calls a client of the store can make. *)
Inductive Op :=
  | OpAddToQueue (items : list ProcessingQueueItem)
  | OpUpdateQueueItem (id' : string) (updates : PartialItem)
  | OpRemoveFromQueue (id' : string)
  | OpClearQueue
  | OpStartProcessing (now : Z) (id' : string).

Definition step (state : ProcessingStoreState) (op : Op)
    : ProcessingStoreState :=
  match op with
  | OpAddToQueue items => addToQueue items state
  | OpUpdateQueueItem id' updates => updateQueueItem id' updates state
  | OpRemoveFromQueue id' => removeFromQueue id' state
  | OpClearQueue => clearQueue state
  | OpStartProcessing now id' => fst (startProcessing now id' state)
  end.

Definition run (ops : list Op) (state : ProcessingStoreState)
    : ProcessingStoreState :=
  fold_left step ops state.

End ProcessingStore.

(** ** [src/lib/storage/indexed-db.ts]

    The object store [compression-history] has key path [id]: it is a finite
    map from primary keys to records.  Its index [timestamp] (not unique)
    lists the records by ascending timestamp, records of equal timestamp by
    ascending primary key.  Timestamps are integer milliseconds.  The
    database is taken to open; where [openDatabase] fails the functions
    resolve to their fallback value and touch no store. *)
Module HistoryStore.

Record CompressionHistoryEntry := {
  id : string;
  timestamp : Z;
  originalName : string;
  originalSize : Z;
  compressedSize : Z;
  format : Types.OutputFormat;
  quality : Z
}.

Definition MAX_HISTORY_ENTRIES : nat := 100.

(** How a returned promise settles. *)
Inductive Settled (A : Type) :=
  | Resolved (value : A)
  | Rejected (message : string).
Arguments Resolved {A} value.
Arguments Rejected {A} message.

(** The order of the records of the index: by key, then by primary key. *)
Module IndexOrder <: TotalLeBool.

Definition t : Type := string * CompressionHistoryEntry.

Definition leb (a b : t) : bool :=
  (timestamp (snd a) <? timestamp (snd b))%Z
  || ((timestamp (snd a) =? timestamp (snd b))%Z
      && String.leb (fst a) (fst b)).

Theorem leb_total : forall a b, leb a b = true \/ leb b a = true.
Proof.
  intros [ka a] [kb b]; unfold leb; simpl.
  destruct (Z.ltb_spec (timestamp a) (timestamp b)); [now left|].
  destruct (Z.ltb_spec (timestamp b) (timestamp a)); [now right|].
  replace (timestamp b) with (timestamp a) by lia.
  rewrite Z.eqb_refl; simpl.
  apply String.leb_total.
Qed.

End IndexOrder.

Module IndexSort := Sort IndexOrder.

(** [store.index('timestamp')] read by a cursor in direction [next]. *)
Definition timestampIndex (store : gmap string CompressionHistoryEntry)
    : list (string * CompressionHistoryEntry) :=
  IndexSort.sort (map_to_list store).

(** The cursor loop of [addHistoryEntry]: the first [entriesToDelete] records
    of the index are deleted by primary key. *)
Definition evictOldest (entriesToDelete : nat)
    (store : gmap string CompressionHistoryEntry)
    : gmap string CompressionHistoryEntry :=
  fold_left (fun s record => delete (fst record) s)
            (take entriesToDelete (timestampIndex store)) store.

(** [store.add(entry)] fails when the key is present; the error aborts the
    transaction, which undoes its deletions, and the promise rejects. *)
Definition addHistoryEntry (entry : CompressionHistoryEntry)
    (store : gmap string CompressionHistoryEntry)
    : gmap string CompressionHistoryEntry * Settled bool :=
  let count := size store in
  let evicted :=
    if MAX_HISTORY_ENTRIES <=? count
    then evictOldest (count - MAX_HISTORY_ENTRIES + 1) store
    else store in
  match evicted !! id entry with
  | Some _ => (store, Rejected "Failed to add history entry")
  | None => (<[id entry := entry]> evicted, Resolved true)
  end.

(** The cursor runs in direction [prev]. *)
Definition getHistoryEntries (store : gmap string CompressionHistoryEntry)
    : list CompressionHistoryEntry :=
  snd <$> reverse (timestampIndex store).

Definition getHistoryEntry (id' : string)
    (store : gmap string CompressionHistoryEntry)
    : option CompressionHistoryEntry :=
  store !! id'.

Definition deleteHistoryEntry (id' : string)
    (store : gmap string CompressionHistoryEntry)
    : gmap string CompressionHistoryEntry * Settled bool :=
  (delete id' store, Resolved true).

Definition clearHistory (store : gmap string CompressionHistoryEntry)
    : gmap string CompressionHistoryEntry * Settled bool :=
  (∅, Resolved true).

Definition getHistoryCount (store : gmap string CompressionHistoryEntry)
    : nat :=
  size store.

(** A sequence of [addHistoryEntry] calls, each awaited. *)
Definition addAll (entries : list CompressionHistoryEntry)
    (store : gmap string CompressionHistoryEntry)
    : gmap string CompressionHistoryEntry :=
  fold_left (fun s entry => fst (addHistoryEntry entry s)) entries store.

(** The calls a client of the history store can make, each awaited. *)
Inductive Call :=
  | AddHistoryEntry (entry : CompressionHistoryEntry)
  | DeleteHistoryEntry (id' : string)
  | ClearHistory.

Definition call (store : gmap string CompressionHistoryEntry) (c : Call)
    : gmap string CompressionHistoryEntry :=
  match c with
  | AddHistoryEntry entry => fst (addHistoryEntry entry store)
  | DeleteHistoryEntry id' => fst (deleteHistoryEntry id' store)
  | ClearHistory => fst (clearHistory store)
  end.

Definition calls (cs : list Call)
    (store : gmap string CompressionHistoryEntry)
    : gmap string CompressionHistoryEntry :=
  fold_left call cs store.

End HistoryStore.

(** ** [src/stores/images.store.ts] *)
Module ImageStore.

Inductive ImageStatus := pending | processing | complete | error.

(** A [File] is an opaque handle; the preview URL is left out. *)
Definition File : Type := string.

Record ImageFile := {
  id : string;
  file : File;
  status : ImageStatus;
  compressed : option Types.CompressedResult;
  errorMessage : option string
}.

Definition updateStatus (id' : string) (status' : ImageStatus)
    (images : list ImageFile) : list ImageFile :=
  map (fun img =>
         if String.eqb (id img) id'
         then {| id := id img; file := file img; status := status';
                 compressed := compressed img;
                 errorMessage := errorMessage img |}
         else img) images.

Definition updateCompressed (id' : string) (result : Types.CompressedResult)
    (images : list ImageFile) : list ImageFile :=
  map (fun img =>
         if String.eqb (id img) id'
         then {| id := id img; file := file img; status := complete;
                 compressed := Some result;
                 errorMessage := errorMessage img |}
         else img) images.

Definition setError (id' : string) (error' : string)
    (images : list ImageFile) : list ImageFile :=
  map (fun img =>
         if String.eqb (id img) id'
         then {| id := id img; file := file img; status := error;
                 compressed := compressed img;
                 errorMessage := Some error' |}
         else img) images.

End ImageStore.

(** ** [src/hooks/useBatchProcessing.ts]

    The hook's React state, its refs and the two stores it drives form one
    record.  The hook runs on a single thread: each call of [processBatch] or
    [cancel], each message of a worker and each settled file read is one
    event, handled to completion on the current state.  Analytics calls keep
    no state and are left out. *)
Module BatchProcessing.
Import Types.

Record BatchProcessingProgress := {
  imageId : string;
  progress : JS.number;
  status : ProcessingStore.Status
}.

(** A worker of the pool; [onmessage] holds the image id bound in the
    installed [handleMessage] closure. *)
Record WorkerInstance := {
  busy : bool;
  currentImageId : option string;
  onmessage : option string
}.

Record State := {
  isProcessing : bool;
  individualProgress : gmap string BatchProcessingProgress;
  completedCount : nat;
  totalCount : nat;
  error : option string;
  workerPool : list WorkerInstance;
  (** [abortControllerRef.current]: [null], or a controller and whether its
      signal is aborted *)
  abortController : option bool;
  pendingQueue : list (string * ImageStore.File);
  optionsRef : option CompressionOptions;
  processingStore : ProcessingStore.ProcessingStoreState;
  images : list ImageStore.ImageFile
}.

Definition initialState (images' : list ImageStore.ImageFile) : State :=
  {| isProcessing := false; individualProgress := ∅; completedCount := 0;
     totalCount := 0; error := None; workerPool := [];
     abortController := None; pendingQueue := []; optionsRef := None;
     processingStore := ProcessingStore.initialState; images := images' |}.

(** Field updates. *)
Definition setIsProcessing (v : bool) (s : State) : State :=
  {| isProcessing := v; individualProgress := individualProgress s;
     completedCount := completedCount s; totalCount := totalCount s;
     error := error s; workerPool := workerPool s;
     abortController := abortController s; pendingQueue := pendingQueue s;
     optionsRef := optionsRef s; processingStore := processingStore s;
     images := images s |}.

Definition setIndividualProgress
    (f : gmap string BatchProcessingProgress ->
         gmap string BatchProcessingProgress) (s : State) : State :=
  {| isProcessing := isProcessing s;
     individualProgress := f (individualProgress s);
     completedCount := completedCount s; totalCount := totalCount s;
     error := error s; workerPool := workerPool s;
     abortController := abortController s; pendingQueue := pendingQueue s;
     optionsRef := optionsRef s; processingStore := processingStore s;
     images := images s |}.

Definition setCompletedCount (f : nat -> nat) (s : State) : State :=
  {| isProcessing := isProcessing s;
     individualProgress := individualProgress s;
     completedCount := f (completedCount s); totalCount := totalCount s;
     error := error s; workerPool := workerPool s;
     abortController := abortController s; pendingQueue := pendingQueue s;
     optionsRef := optionsRef s; processingStore := processingStore s;
     images := images s |}.

Definition setTotalCount (v : nat) (s : State) : State :=
  {| isProcessing := isProcessing s;
     individualProgress := individualProgress s;
     completedCount := completedCount s; totalCount := v;
     error := error s; workerPool := workerPool s;
     abortController := abortController s; pendingQueue := pendingQueue s;
     optionsRef := optionsRef s; processingStore := processingStore s;
     images := images s |}.

Definition setError (v : option string) (s : State) : State :=
  {| isProcessing := isProcessing s;
     individualProgress := individualProgress s;
     completedCount := completedCount s; totalCount := totalCount s;
     error := v; workerPool := workerPool s;
     abortController := abortController s; pendingQueue := pendingQueue s;
     optionsRef := optionsRef s; processingStore := processingStore s;
     images := images s |}.

Definition setWorkerPool (f : list WorkerInstance -> list WorkerInstance)
    (s : State) : State :=
  {| isProcessing := isProcessing s;
     individualProgress := individualProgress s;
     completedCount := completedCount s; totalCount := totalCount s;
     error := error s; workerPool := f (workerPool s);
     abortController := abortController s; pendingQueue := pendingQueue s;
     optionsRef := optionsRef s; processingStore := processingStore s;
     images := images s |}.

Definition setAbortController (v : option bool) (s : State) : State :=
  {| isProcessing := isProcessing s;
     individualProgress := individualProgress s;
     completedCount := completedCount s; totalCount := totalCount s;
     error := error s; workerPool := workerPool s;
     abortController := v; pendingQueue := pendingQueue s;
     optionsRef := optionsRef s; processingStore := processingStore s;
     images := images s |}.

Definition setPendingQueue (v : list (string * ImageStore.File)) (s : State)
    : State :=
  {| isProcessing := isProcessing s;
     individualProgress := individualProgress s;
     completedCount := completedCount s; totalCount := totalCount s;
     error := error s; workerPool := workerPool s;
     abortController := abortController s; pendingQueue := v;
     optionsRef := optionsRef s; processingStore := processingStore s;
     images := images s |}.

Definition setOptionsRef (v : option CompressionOptions) (s : State) : State :=
  {| isProcessing := isProcessing s;
     individualProgress := individualProgress s;
     completedCount := completedCount s; totalCount := totalCount s;
     error := error s; workerPool := workerPool s;
     abortController := abortController s; pendingQueue := pendingQueue s;
     optionsRef := v; processingStore := processingStore s;
     images := images s |}.

Definition setProcessingStore
    (f : ProcessingStore.ProcessingStoreState ->
         ProcessingStore.ProcessingStoreState) (s : State) : State :=
  {| isProcessing := isProcessing s;
     individualProgress := individualProgress s;
     completedCount := completedCount s; totalCount := totalCount s;
     error := error s; workerPool := workerPool s;
     abortController := abortController s; pendingQueue := pendingQueue s;
     optionsRef := optionsRef s; processingStore := f (processingStore s);
     images := images s |}.

Definition setImages
    (f : list ImageStore.ImageFile -> list ImageStore.ImageFile) (s : State)
    : State :=
  {| isProcessing := isProcessing s;
     individualProgress := individualProgress s;
     completedCount := completedCount s; totalCount := totalCount s;
     error := error s; workerPool := workerPool s;
     abortController := abortController s; pendingQueue := pendingQueue s;
     optionsRef := optionsRef s; processingStore := processingStore s;
     images := f (images s) |}.

(** How a call completes. *)
Inductive Completion :=
  | Returned
  | Threw (message : string).

(** A message of a worker, by its [type], with the optional property the
    handler reads. *)
Inductive WorkerResponse :=
  | ProgressMessage (progress' : option JS.number)
  | CompleteMessage (data : option CompressedResult)
  | ErrorMessage (error' : option string).

(** [abortControllerRef.current?.signal.aborted] *)
Definition aborted (s : State) : bool :=
  match abortController s with Some true => true | _ => false end.

Definition idleWorker : WorkerInstance :=
  {| busy := false; currentImageId := None; onmessage := None |}.

Definition initializeWorkerPool (s : State) : State :=
  setWorkerPool (fun _ => repeat idleWorker MAX_CONCURRENT_PROCESSING) s.

(** The index of [workerPoolRef.current.find((w) => !w.busy)]. *)
Fixpoint getAvailableWorker (pool : list WorkerInstance) : option nat :=
  match pool with
  | [] => None
  | w :: rest =>
      if negb (busy w) then Some 0%nat
      else S <$> getAvailableWorker rest
  end.

Definition processNextInQueue (now : Z) (s : State) : State :=
  if aborted s then s
  else
    match getAvailableWorker (workerPool s), pendingQueue s with
    | Some w, (imageId', _) :: rest =>
        let s := setPendingQueue rest s in
        match optionsRef s with
        | None => s
        | Some _ =>
            let s := setWorkerPool
                       (alter (fun _ => {| busy := true;
                                           currentImageId := Some imageId';
                                           onmessage := Some imageId' |}) w)
                       s in
            let s := setIndividualProgress
                       (insert imageId'
                          {| imageId := imageId'; progress := JS.ofZ 0;
                             status := ProcessingStore.processing |}) s in
            let s := setImages
                       (ImageStore.updateStatus imageId'
                          ImageStore.processing) s in
            setProcessingStore
              (ProcessingStore.updateQueueItem imageId'
                 {| ProcessingStore.p_id := None;
                    ProcessingStore.p_imageId := None;
                    ProcessingStore.p_status :=
                      Some ProcessingStore.processing;
                    ProcessingStore.p_progress := None;
                    ProcessingStore.p_startTime := Some now;
                    ProcessingStore.p_endTime := None |}) s
        end
    | _, _ => s
    end.

Definition checkCompletion (s : State) : State :=
  let allWorkersIdle := forallb (fun w => negb (busy w)) (workerPool s) in
  let queueEmpty := (length (pendingQueue s) =? 0)%nat in
  if allWorkersIdle && queueEmpty then setIsProcessing false s else s.

(** Release worker [w]; the message handlers also clear [onmessage]. *)
Definition releaseWorker (clearHandler : bool) (w : nat) (s : State) : State :=
  setWorkerPool
    (alter (fun wi => {| busy := false; currentImageId := None;
                         onmessage := if clearHandler then None
                                      else onmessage wi |}) w) s.

Definition markError (now : Z) (imageId' message : string) (s : State)
    : State :=
  let s := setIndividualProgress
             (insert imageId'
                {| imageId := imageId'; progress := JS.ofZ 0;
                   status := ProcessingStore.error |}) s in
  let s := setImages (ImageStore.setError imageId' message) s in
  setProcessingStore
    (ProcessingStore.updateQueueItem imageId'
       {| ProcessingStore.p_id := None;
          ProcessingStore.p_imageId := None;
          ProcessingStore.p_status := Some ProcessingStore.error;
          ProcessingStore.p_progress := None;
          ProcessingStore.p_startTime := None;
          ProcessingStore.p_endTime := Some now |}) s.

(** The closure [handleMessage] installed on worker [w] for [imageId']. *)
Definition handleMessage (now : Z) (w : nat) (imageId' : string)
    (response : WorkerResponse) (s : State) : State * Completion :=
  if aborted s then (s, Returned)
  else
    match response with
    | ProgressMessage None => (s, Returned)
    | ProgressMessage (Some workerProgress) =>
        let s := setIndividualProgress
                   (fun prev =>
                      match prev !! imageId' with
                      | Some current =>
                          <[imageId' := {| imageId := imageId current;
                                           progress := workerProgress;
                                           status := status current |}]> prev
                      | None => prev
                      end) s in
        (setProcessingStore
           (ProcessingStore.updateQueueItem imageId'
              {| ProcessingStore.p_id := None;
                 ProcessingStore.p_imageId := None;
                 ProcessingStore.p_status := None;
                 ProcessingStore.p_progress := Some workerProgress;
                 ProcessingStore.p_startTime := None;
                 ProcessingStore.p_endTime := None |}) s, Returned)
    | CompleteMessage data =>
        let s :=
          match data with
          | Some result =>
              let s := setIndividualProgress
                         (insert imageId'
                            {| imageId := imageId'; progress := JS.ofZ 100;
                               status := ProcessingStore.complete |}) s in
              let s := setCompletedCount S s in
              let s := setImages
                         (ImageStore.updateCompressed imageId' result) s in
              setProcessingStore
                (ProcessingStore.updateQueueItem imageId'
                   {| ProcessingStore.p_id := None;
                      ProcessingStore.p_imageId := None;
                      ProcessingStore.p_status :=
                        Some ProcessingStore.complete;
                      ProcessingStore.p_progress := Some (JS.ofZ 100);
                      ProcessingStore.p_startTime := None;
                      ProcessingStore.p_endTime := Some now |}) s
          | None => s
          end in
        let s := releaseWorker true w s in
        let s := processNextInQueue now s in
        (checkCompletion s, Returned)
    | ErrorMessage workerError =>
        let message :=
          match workerError with
          | Some m => if String.eqb m "" then "Compression failed" else m
          | None => "Compression failed"
          end in
        let s := markError now imageId' message s in
        let s := releaseWorker true w s in
        let s := processNextInQueue now s in
        (checkCompletion s, Returned)
    end.

(** [file.arrayBuffer()] of the item given to worker [w] settles: fulfilled
    ([None]) or rejected with a message. *)
Definition fileRead (now : Z) (w : nat) (imageId' : string)
    (rejection : option string) (s : State) : State :=
  match rejection with
  | None => if aborted s then releaseWorker false w s else s
  | Some message =>
      let s := markError now imageId'
                 ("Failed to read file: " ++ message) s in
      let s := releaseWorker false w s in
      let s := processNextInQueue now s in
      checkCompletion s
  end.

(** The derived value [overallProgress]. *)
Definition overallProgress (s : State) : JS.number :=
  if (totalCount s =? 0)%nat then JS.ofZ 0
  else
    let totalProgress :=
      map_fold (fun _ item total => JS.add total (progress item))
               (JS.ofZ 0) (individualProgress s) in
    JS.round (JS.div totalProgress (JS.ofZ (Z.of_nat (totalCount s)))).

(** The loop of [processBatch] over [imageIds]. *)
Definition enqueueImage (imageId' : string)
    (acc : State * list ProcessingStore.ProcessingQueueItem)
    : State * list ProcessingStore.ProcessingQueueItem :=
  let '(s, queueItems) := acc in
  match List.find (fun img => String.eqb (ImageStore.id img) imageId')
                  (images s) with
  | Some image =>
      match ImageStore.status image with
      | ImageStore.complete => acc
      | _ =>
          let s := setPendingQueue
                     (pendingQueue s ++ [(imageId', ImageStore.file image)])
                     s in
          let s := setIndividualProgress
                     (insert imageId'
                        {| imageId := imageId'; progress := JS.ofZ 0;
                           status := ProcessingStore.queued |}) s in
          (s, queueItems ++
                [{| ProcessingStore.id := imageId';
                    ProcessingStore.imageId := imageId';
                    ProcessingStore.status := ProcessingStore.queued;
                    ProcessingStore.progress := JS.ofZ 0;
                    ProcessingStore.startTime := None;
                    ProcessingStore.endTime := None |}])
      end
  | None => acc
  end.

Definition processBatch (now : Z) (imageIds : list string)
    (options : CompressionOptions) (s : State) : State * Completion :=
  if (length imageIds =? 0)%nat then (s, Returned)
  else
    let s := setIsProcessing true s in
    let s := setError None s in
    let s := setCompletedCount (fun _ => 0%nat) s in
    let s := setTotalCount (length imageIds) s in
    let s := setIndividualProgress (fun _ => ∅) s in
    let s := setOptionsRef
               (Some (Compressor.validateCompressionOptions options)) s in
    let s := setAbortController (Some false) s in
    let s := initializeWorkerPool s in
    let s := setPendingQueue [] s in
    let '(s, queueItems) :=
      fold_left (fun acc imageId' => enqueueImage imageId' acc)
                imageIds (s, []) in
    let s := setProcessingStore (ProcessingStore.addToQueue queueItems) s in
    (Nat.iter MAX_CONCURRENT_PROCESSING (processNextInQueue now) s, Returned).

Definition cancel (s : State) : State :=
  let snapshot := individualProgress s in
  let s := setAbortController None s in
  let s := setPendingQueue [] s in
  let s := setWorkerPool (fun _ => []) s in
  let active (item : BatchProcessingProgress) : bool :=
    ProcessingStore.Status_eqb (status item) ProcessingStore.processing
    || ProcessingStore.Status_eqb (status item) ProcessingStore.queued in
  let s := setImages
             (fun imgs =>
                map_fold (fun imageId' item imgs =>
                            if active item
                            then ImageStore.updateStatus imageId'
                                   ImageStore.pending imgs
                            else imgs) imgs snapshot) s in
  let s := setIndividualProgress
             (fun prev =>
                map_fold (fun imageId' item prev =>
                            if active item
                            then <[imageId' :=
                                     {| imageId := imageId item;
                                        progress := JS.ofZ 0;
                                        status := ProcessingStore.error |}]>
                                 prev
                            else prev) prev snapshot) s in
  let s := setProcessingStore ProcessingStore.clearQueue s in
  let s := setIsProcessing false s in
  setError (Some "Batch processing cancelled") s.

(** What can happen to the hook. *)
Inductive Event :=
  | ProcessBatch (imageIds : list string) (options : CompressionOptions)
  | Cancel
  | WorkerMessage (w : nat) (response : WorkerResponse)
  | FileRead (w : nat) (imageId' : string) (rejection : option string).

(** One event at time [now]; a message reaches the handler installed on its
    worker, if any. *)
Definition step (now : Z) (s : State) (e : Event) : State :=
  match e with
  | ProcessBatch imageIds options => fst (processBatch now imageIds options s)
  | Cancel => cancel s
  | WorkerMessage w response =>
      match workerPool s !! w with
      | Some {| onmessage := Some imageId' |} =>
          fst (handleMessage now w imageId' response s)
      | _ => s
      end
  | FileRead w imageId' rejection => fileRead now w imageId' rejection s
  end.

Definition run (events : list (Z * Event)) (s : State) : State :=
  fold_left (fun s '(now, e) => step now s e) events s.

End BatchProcessing.

(** ** The formulas of the specification *)
Module Spec.

(** [clamp(x, lo, hi)] *)
Definition clamp (x lo hi : JS.number) : JS.number :=
  JS.max lo (JS.min hi x).

(** [ratio = clamp(((original - compressed) / original) * 100, 0, 100)] *)
Definition ratio (original compressed : JS.number) : JS.number :=
  clamp (JS.mul (JS.div (JS.sub original compressed) original) (JS.ofZ 100))
        (JS.ofZ 0) (JS.ofZ 100).

(** The options of the transform as constraints of [calculateDimensions]. *)
Definition constraintsOf (options : Types.CompressionOptions)
    : FileHelpers.DimensionConstraints :=
  {| FileHelpers.maxWidth := Types.maxWidth options;
     FileHelpers.maxHeight := Types.maxHeight options;
     FileHelpers.maintainAspectRatio := Types.maintainAspectRatio options |}.

(** The two-pass clamp on a bitmap of width [w] and height [h]: shrink the
    width to [maxWidth] only if it exceeds it, recomputing the height from
    the aspect ratio, then shrink the height to [maxHeight] only if it still
    exceeds it, recomputing the width.  The aspect ratio, the quotient and
    the product are binary64 values. *)
Definition twoPass (w h : Q) (maxWidth maxHeight : option positive)
    : JS.number * JS.number :=
  let aspectRatio := JS.fdiv (JS.Fin w) (JS.Fin h) in
  let '(newWidth, newHeight) :=
    match maxWidth with
    | Some a =>
        if JS.gt (JS.Fin w) (JS.ofZ (Z.pos a))
        then (JS.ofZ (Z.pos a), JS.fdiv (JS.ofZ (Z.pos a)) aspectRatio)
        else (JS.Fin w, JS.Fin h)
    | None => (JS.Fin w, JS.Fin h)
    end in
  match maxHeight with
  | Some b =>
      if JS.gt newHeight (JS.ofZ (Z.pos b))
      then (JS.fmul (JS.ofZ (Z.pos b)) aspectRatio, JS.ofZ (Z.pos b))
      else (newWidth, newHeight)
  | None => (newWidth, newHeight)
  end.

(** The sides [x] and [y], neither negative and one of them an integer, are
    in the proportion of [w] to [h], up to [slack] on the difference of the
    cross products. *)
Definition inProportion (w h slack x y : Q) : Prop :=
  (0 <= x /\ 0 <= y)%Q
  /\ ((exists n : Z, (x == inject_Z n)%Q)
      \/ (exists n : Z, (y == inject_Z n)%Q))
  /\ (- slack <= x * h - y * w /\ x * h - y * w <= slack)%Q.

(** An optional constraint that, when set, is a positive integer. *)
Definition integerConstraint (m : option positive) : option JS.number :=
  (fun p => JS.ofZ (Z.pos p)) <$> m.

(** A queue item once started at time [now]. *)
Definition started (now : Z) (item : ProcessingStore.ProcessingQueueItem)
    : ProcessingStore.ProcessingQueueItem :=
  {| ProcessingStore.id := ProcessingStore.id item;
     ProcessingStore.imageId := ProcessingStore.imageId item;
     ProcessingStore.status := ProcessingStore.processing;
     ProcessingStore.progress := ProcessingStore.progress item;
     ProcessingStore.startTime := Some now;
     ProcessingStore.endTime := ProcessingStore.endTime item |}.

(** The queue [startProcessing] writes. *)
Definition startAll (now : Z) (id' : string)
    (q : list ProcessingStore.ProcessingQueueItem)
    : list ProcessingStore.ProcessingQueueItem :=
  map (fun item => if String.eqb (ProcessingStore.id item) id'
                   then started now item else item) q.

(** The test of [getProcessingCount]: the item is processing. *)
Definition isBusy (item : ProcessingStore.ProcessingQueueItem) : bool :=
  ProcessingStore.Status_eqb (ProcessingStore.status item)
                             ProcessingStore.processing.

(** The number of processing items of a queue. *)
Definition busyCount (q : list ProcessingStore.ProcessingQueueItem) : nat :=
  length (List.filter isBusy q).

(** The invariant of the store: distinct ids, and the limit. *)
Definition withinLimit (state : ProcessingStore.ProcessingStoreState) : Prop :=
  NoDup (map ProcessingStore.id (ProcessingStore.queue state))
  /\ (busyCount (ProcessingStore.queue state)
      <= Types.MAX_CONCURRENT_PROCESSING)%nat.

(** Between [queue] and [queue'] a single item, of id [id'], went from
    queued to processing with its start time set to [now], and nothing else
    changed. *)
Definition startsSingleItem (now : Z) (id' : string)
    (queue queue' : list ProcessingStore.ProcessingQueueItem) : Prop :=
  exists before item after,
    queue = before ++ item :: after
    /\ ProcessingStore.id item = id'
    /\ ProcessingStore.status item = ProcessingStore.queued
    /\ queue' = before ++ started now item :: after.

(** [startProcessing] declines: the limit is reached, no item has the id, or
    the item found is not queued. *)
Definition declines (id' : string)
    (state : ProcessingStore.ProcessingStoreState) : Prop :=
  (Types.MAX_CONCURRENT_PROCESSING
   <= ProcessingStore.getProcessingCount state)%nat
  \/ List.find (fun item => String.eqb (ProcessingStore.id item) id')
               (ProcessingStore.queue state) = None
  \/ exists item,
       List.find (fun item => String.eqb (ProcessingStore.id item) id')
                 (ProcessingStore.queue state) = Some item
       /\ ProcessingStore.status item <> ProcessingStore.queued.

(** A call of the kinds the store is driven with: an update is one applied as
    an item progresses or completes, which neither renames the item nor marks
    it processing. *)
Definition onCompletion (op : ProcessingStore.Op) : Prop :=
  match op with
  | ProcessingStore.OpUpdateQueueItem _ updates =>
      ProcessingStore.p_id updates = None
      /\ ProcessingStore.p_status updates <> Some ProcessingStore.processing
  | _ => True
  end.

(** Such a call where, moreover, no item is enqueued as processing and items
    are enqueued under ids that are new to the queue. *)
Definition admissible (state : ProcessingStore.ProcessingStoreState)
    (op : ProcessingStore.Op) : Prop :=
  onCompletion op
  /\ match op with
     | ProcessingStore.OpAddToQueue items =>
         Forall (fun item =>
                   ProcessingStore.status item <> ProcessingStore.processing)
                items
         /\ NoDup (map ProcessingStore.id
                       (ProcessingStore.queue state ++ items))
     | _ => True
     end.

(** The states of the store after admissible calls, from the empty queue. *)
Inductive reachable : ProcessingStore.ProcessingStoreState -> Prop :=
  | reachable_initial : reachable ProcessingStore.initialState
  | reachable_step state op :
      reachable state -> admissible state op ->
      reachable (ProcessingStore.step state op).

(** A record of the index is not more recent than another. *)
Definition older (a b : string * HistoryStore.CompressionHistoryEntry)
    : Prop :=
  (HistoryStore.timestamp (snd a) <= HistoryStore.timestamp (snd b))%Z.

(** Entries listed newest first, equal timestamps allowed. *)
Definition newestFirst (a b : HistoryStore.CompressionHistoryEntry) : Prop :=
  (HistoryStore.timestamp b <= HistoryStore.timestamp a)%Z.

(** Entries listed in strictly descending timestamp order. *)
Definition strictlyNewer (a b : HistoryStore.CompressionHistoryEntry) : Prop :=
  (HistoryStore.timestamp b < HistoryStore.timestamp a)%Z.

(** The per-item progress values the scheduler holds. *)
Definition progressValues (s : BatchProcessing.State) : list JS.number :=
  (fun record => BatchProcessing.progress (snd record))
    <$> map_to_list (BatchProcessing.individualProgress s).

(** The sum of progress values, added up from 0. *)
Definition total (values : list JS.number) : JS.number :=
  foldr (fun value total => JS.add total value) (JS.ofZ 0) values.

(** [round(sum(progress) / count)], and 0 for a count of 0. *)
Definition overall (values : list JS.number) (count : nat) : JS.number :=
  if (count =? 0)%nat then JS.ofZ 0
  else JS.round (JS.div (total values) (JS.ofZ (Z.of_nat count))).

(** An event that does not start a new batch. *)
Definition sameBatch (e : BatchProcessing.Event) : Prop :=
  match e with
  | BatchProcessing.ProcessBatch (_ :: _) _ => False
  | _ => True
  end.

(** The store that holds the given entries, each under its id. *)
Definition stored (entries : list HistoryStore.CompressionHistoryEntry)
    : gmap string HistoryStore.CompressionHistoryEntry :=
  list_to_map ((fun e => (HistoryStore.id e, e)) <$> entries).

(** The workers of the pool that are busy. *)
Definition busyWorkers (pool : list BatchProcessing.WorkerInstance) : nat :=
  length (List.filter BatchProcessing.busy pool).

(** The workers of the pool with a message handler installed. *)
Definition handlers (pool : list BatchProcessing.WorkerInstance) : nat :=
  length (List.filter
            (fun w => match BatchProcessing.onmessage w with
                      | Some _ => true
                      | None => false
                      end) pool).

(** A worker at work on an image. *)
Definition working (imageId' : string) : BatchProcessing.WorkerInstance :=
  {| BatchProcessing.busy := true;
     BatchProcessing.currentImageId := Some imageId';
     BatchProcessing.onmessage := Some imageId' |}.

(** The items of a batch that is submitted: the ids of an uploaded image
    that is not complete, in the order given, each with its file. *)
Definition eligible (images : list ImageStore.ImageFile)
    (imageIds : list string) : list (string * ImageStore.File) :=
  omap (fun imageId' =>
          match List.find (fun img => String.eqb (ImageStore.id img) imageId')
                          images with
          | Some image =>
              match ImageStore.status image with
              | ImageStore.complete => None
              | _ => Some (imageId', ImageStore.file image)
              end
          | None => None
          end) imageIds.

(** The items of a batch are accounted for: those completed, those whose
    worker has a message handler installed and those pending are no more
    than the batch holds. *)
Definition accounted (s : BatchProcessing.State) : Prop :=
  (BatchProcessing.completedCount s
   + handlers (BatchProcessing.workerPool s)
   + length (BatchProcessing.pendingQueue s)
   <= BatchProcessing.totalCount s)%nat.

(** The pool is empty or holds as many workers as run at once. *)
Definition poolSized (s : BatchProcessing.State) : Prop :=
  BatchProcessing.workerPool s = []
  \/ length (BatchProcessing.workerPool s) = Types.MAX_CONCURRENT_PROCESSING.

(** A progress record of an item that is queued or with a worker. *)
Definition active (item : BatchProcessing.BatchProcessingProgress) : bool :=
  ProcessingStore.Status_eqb (BatchProcessing.status item)
                             ProcessingStore.processing
  || ProcessingStore.Status_eqb (BatchProcessing.status item)
                                ProcessingStore.queued.

(** The progress record of an item after a cancellation. *)
Definition cancelled (item : BatchProcessing.BatchProcessingProgress)
    : BatchProcessing.BatchProcessingProgress :=
  if active item
  then {| BatchProcessing.imageId := BatchProcessing.imageId item;
          BatchProcessing.progress := JS.ofZ 0;
          BatchProcessing.status := ProcessingStore.error |}
  else item.

(** An image after a cancellation, given the progress records. *)
Definition released
    (records : gmap string BatchProcessing.BatchProcessingProgress)
    (img : ImageStore.ImageFile) : ImageStore.ImageFile :=
  match records !! ImageStore.id img with
  | Some item =>
      if active item
      then {| ImageStore.id := ImageStore.id img;
              ImageStore.file := ImageStore.file img;
              ImageStore.status := ImageStore.pending;
              ImageStore.compressed := ImageStore.compressed img;
              ImageStore.errorMessage := ImageStore.errorMessage img |}
      else img
  | None => img
  end.

(** No item waits while a worker is idle: nothing is pending, or the
    options are set and every worker is busy. *)
Definition conserving (s : BatchProcessing.State) : Prop :=
  BatchProcessing.pendingQueue s = []
  \/ (is_Some (BatchProcessing.optionsRef s)
      /\ BatchProcessing.getAvailableWorker (BatchProcessing.workerPool s)
         = None
      /\ length (BatchProcessing.workerPool s)
         = Types.MAX_CONCURRENT_PROCESSING).

(** What identifies an uploaded image: its id and its file. *)
Definition upload (img : ImageStore.ImageFile) : string * ImageStore.File :=
  (ImageStore.id img, ImageStore.file img).

(** A message of the worker as the handler of the scheduler reads it. *)
Definition received (response : Worker.WorkerResponse)
    : BatchProcessing.WorkerResponse :=
  match response with
  | Worker.progress _ progress' =>
      BatchProcessing.ProgressMessage (Some progress')
  | Worker.complete _ data => BatchProcessing.CompleteMessage (Some data)
  | Worker.error _ error' => BatchProcessing.ErrorMessage (Some error')
  end.

(** An event that is a message of a worker. *)
Definition isWorkerMessage (e : BatchProcessing.Event) : Prop :=
  match e with
  | BatchProcessing.WorkerMessage _ _ => True
  | _ => False
  end.

(** The messages a worker posted, in order. *)
Definition posted (trace : list Worker.Effect) : list Worker.WorkerResponse :=
  omap (fun e => match e with
                 | Worker.PostMessage response => Some response
                 | Worker.Close => None
                 end) trace.

(** Whether the worker closed the bitmap. *)
Definition closed (trace : list Worker.Effect) : bool :=
  existsb (fun e => match e with
                    | Worker.Close => true
                    | Worker.PostMessage _ => false
                    end) trace.

(** The progress values of a compression, in order. *)
Definition stages : list JS.number :=
  [JS.ofZ 10; JS.ofZ 30; JS.ofZ 50; JS.ofZ 90].

(** The character occurs in the string. *)
Fixpoint contains (c : ascii) (s : string) : bool :=
  match s with
  | EmptyString => false
  | String a rest => Ascii.eqb a c || contains c rest
  end.

(** The string without its first character. *)
Definition afterFirst (s : string) : string :=
  match s with
  | EmptyString => EmptyString
  | String _ rest => rest
  end.

(** The name of a file without its extension, as
    [generateCompressedFilename] takes it. *)
Definition stem (name : string) : string :=
  if (0 <? FileHelpers.lastIndexOf "." name)%Z
  then String.substring 0 (Z.to_nat (FileHelpers.lastIndexOf "." name)) name
  else name.

(** The file extension of a format. *)
Definition extensionOf (format : Types.OutputFormat) : string :=
  match format with
  | Types.jpeg => "jpg"
  | Types.png => "png"
  | Types.webp => "webp"
  | Types.avif => "avif"
  end.

(** An entry was saved before another. *)
Definition savedBefore (a b : HistoryStore.CompressionHistoryEntry) : Prop :=
  (HistoryStore.timestamp a < HistoryStore.timestamp b)%Z.

End Spec.

(** ** Sample data *)
Module Examples.


(** Options of the given quality. *)
Definition withQuality (quality : JS.number) : Types.CompressionOptions :=
  {| Types.quality := quality; Types.format := Types.webp;
     Types.maxWidth := None; Types.maxHeight := None;
     Types.maintainAspectRatio := true; Types.stripMetadata := true;
     Types.progressive := None |}.

(** Options that fit the bitmap into 1920 by 1080, ratio locked. *)
Definition fullHD : Types.CompressionOptions :=
  {| Types.quality := JS.ofZ 70; Types.format := Types.webp;
     Types.maxWidth := Some (JS.ofZ 1920);
     Types.maxHeight := Some (JS.ofZ 1080);
     Types.maintainAspectRatio := true; Types.stripMetadata := true;
     Types.progressive := None |}.

(** The history entry [entry-i], compressed at time [i]. *)
Definition historyEntry (i : nat) : HistoryStore.CompressionHistoryEntry :=
  {| HistoryStore.id := "entry-" +:+ pretty i;
     HistoryStore.timestamp := Z.of_nat i;
     HistoryStore.originalName := "test-image.jpg";
     HistoryStore.originalSize := 1048576;
     HistoryStore.compressedSize := 524288;
     HistoryStore.format := Types.webp;
     HistoryStore.quality := 70 |}.

(** A store filled to its capacity with [entry-0] to [entry-99]. *)
Definition fullStore : gmap string HistoryStore.CompressionHistoryEntry :=
  HistoryStore.addAll (historyEntry <$> seq 0 100) ∅.

(** An entry under the id of [entry-5], which the full store holds. *)
Definition repeatedEntry : HistoryStore.CompressionHistoryEntry :=
  {| HistoryStore.id := "entry-5";
     HistoryStore.timestamp := 200;
     HistoryStore.originalName := "new-image.jpg";
     HistoryStore.originalSize := 2048;
     HistoryStore.compressedSize := 1024;
     HistoryStore.format := Types.jpeg;
     HistoryStore.quality := 85 |}.

(** An entry under a new id. *)
Definition newEntry : HistoryStore.CompressionHistoryEntry :=
  {| HistoryStore.id := "new-entry";
     HistoryStore.timestamp := 101;
     HistoryStore.originalName := "new-image.jpg";
     HistoryStore.originalSize := 2048;
     HistoryStore.compressedSize := 1024;
     HistoryStore.format := Types.jpeg;
     HistoryStore.quality := 85 |}.

(** Two results saved in the same millisecond. *)
Definition sameMillisecond : gmap string HistoryStore.CompressionHistoryEntry :=
  HistoryStore.addAll
    [ {| HistoryStore.id := "a"; HistoryStore.timestamp := 5;
         HistoryStore.originalName := "a.png";
         HistoryStore.originalSize := 100; HistoryStore.compressedSize := 50;
         HistoryStore.format := Types.png; HistoryStore.quality := 100 |};
      {| HistoryStore.id := "b"; HistoryStore.timestamp := 5;
         HistoryStore.originalName := "b.png";
         HistoryStore.originalSize := 100; HistoryStore.compressedSize := 25;
         HistoryStore.format := Types.png; HistoryStore.quality := 100 |} ]
    ∅.

(** A queued item of the processing store. *)
Definition queuedItem (id' : string) : ProcessingStore.ProcessingQueueItem :=
  {| ProcessingStore.id := id'; ProcessingStore.imageId := id';
     ProcessingStore.status := ProcessingStore.queued;
     ProcessingStore.progress := JS.ofZ 0;
     ProcessingStore.startTime := None;
     ProcessingStore.endTime := None |}.

(** Twenty queued items of distinct ids. *)
Definition twentyItems : list ProcessingStore.ProcessingQueueItem :=
  (fun i : nat => queuedItem ("image-" +:+ pretty i)) <$> seq 0 20.

(** Two uploaded images, the second already compressed. *)
Definition twoImages : list ImageStore.ImageFile :=
  [ {| ImageStore.id := "a"; ImageStore.file := "a.png";
       ImageStore.status := ImageStore.pending;
       ImageStore.compressed := None; ImageStore.errorMessage := None |};
    {| ImageStore.id := "b"; ImageStore.file := "b.png";
       ImageStore.status := ImageStore.complete;
       ImageStore.compressed := None; ImageStore.errorMessage := None |} ].

(** A store of two entries saved at different times. *)
Definition twoEntries : gmap string HistoryStore.CompressionHistoryEntry :=
  HistoryStore.addAll [historyEntry 1; historyEntry 2] ∅.

(** A queue of two queued items. *)
Definition twoQueued : ProcessingStore.ProcessingStoreState :=
  ProcessingStore.addToQueue [queuedItem "a"; queuedItem "b"]
                             ProcessingStore.initialState.

(** The scheduler once the batch of the two images is submitted: the first
    is with a worker, the second was left out as already complete. *)
Definition submitted : BatchProcessing.State :=
  fst (BatchProcessing.processBatch 0 ["a"; "b"] fullHD
         (BatchProcessing.initialState twoImages)).

(** The scheduler once a batch that names image [a] five times is
    submitted: four workers hold [a], and [a] is pending once more. *)
Definition repeated : BatchProcessing.State :=
  fst (BatchProcessing.processBatch 0 ["a"; "a"; "a"; "a"; "a"] fullHD
         (BatchProcessing.initialState twoImages)).

(** The submitted batch once the worker of image [a] reported a progress
    of 50. *)
Definition halfway : BatchProcessing.State :=
  BatchProcessing.run
    [(5%Z, BatchProcessing.WorkerMessage 0
             (BatchProcessing.ProgressMessage (Some (JS.ofZ 50))))]
    submitted.

(** A browser where every call succeeds: the bitmap decoded has the given
    sides and the encoded blob has 1024 bytes. *)
Definition browser (bitmapWidth bitmapHeight : Z) : Platform.Calls :=
  {| Platform.createImageBitmap :=
       Platform.Ok (JS.ofZ bitmapWidth, JS.ofZ bitmapHeight);
     Platform.newOffscreenCanvas := fun _ _ => Platform.Ok tt;
     Platform.getContext := Platform.Ok true;
     Platform.drawImage := Platform.Ok tt;
     Platform.convertToBlob := fun _ _ => Platform.Ok (JS.ofZ 1024) |}.

(** The request to compress image [a], of 2048 bytes. *)
Definition request : Worker.WorkerRequest :=
  {| Worker.type := "compress"; Worker.id := "a";
     Worker.byteLength := JS.ofZ 2048; Worker.options := fullHD |}.

(** Six uploaded images, all pending. *)
Definition sixImages : list ImageStore.ImageFile :=
  (fun i : nat =>
     {| ImageStore.id := "image-" +:+ pretty i;
        ImageStore.file := "file-" +:+ pretty i;
        ImageStore.status := ImageStore.pending;
        ImageStore.compressed := None;
        ImageStore.errorMessage := None |}) <$> seq 0 6.

(** Options that fit the bitmap into a width of 1000, ratio locked. *)
Definition width1000 : Types.CompressionOptions :=
  {| Types.quality := JS.ofZ 80; Types.format := Types.webp;
     Types.maxWidth := Some (JS.ofZ 1000); Types.maxHeight := None;
     Types.maintainAspectRatio := true; Types.stripMetadata := true;
     Types.progressive := None |}.

(** Options that fit the bitmap into a height of 49, ratio locked. *)
Definition height49 : Types.CompressionOptions :=
  {| Types.quality := JS.ofZ 80; Types.format := Types.webp;
     Types.maxWidth := None; Types.maxHeight := Some (JS.ofZ 49);
     Types.maintainAspectRatio := true; Types.stripMetadata := true;
     Types.progressive := None |}.

(** The update the scheduler applies when an item completes at time
    [now]. *)
Definition completion (now : Z) : ProcessingStore.PartialItem :=
  {| ProcessingStore.p_id := None; ProcessingStore.p_imageId := None;
     ProcessingStore.p_status := Some ProcessingStore.complete;
     ProcessingStore.p_progress := Some (JS.ofZ 100);
     ProcessingStore.p_startTime := None;
     ProcessingStore.p_endTime := Some now |}.

End Examples.

(** * Properties *)

(** ** Facts on JavaScript numbers *)
Section NumberFacts.
#[local] Open Scope Q_scope.

Lemma Qle_bool_false (x y : Q) : Qle_bool x y = false -> y < x.
Proof.
  intros H. apply Qnot_le_lt. intros Hle.
  apply Qle_bool_iff in Hle. congruence.
Qed.

Lemma Qltb_true (x y : Q) : JS.Qltb x y = true <-> x < y.
Proof.
  unfold JS.Qltb. split.
  - intros H. apply negb_true_iff in H. now apply Qle_bool_false.
  - intros H. apply negb_true_iff.
    destruct (Qle_bool y x) eqn:E; [|reflexivity].
    apply Qle_bool_iff in E. lra.
Qed.

Lemma Qltb_false (x y : Q) : JS.Qltb x y = false <-> y <= x.
Proof.
  unfold JS.Qltb. rewrite negb_false_iff. apply Qle_bool_iff.
Qed.

Lemma Qeq_bool_false_pos (x : Q) : 0 < x -> Qeq_bool x 0 = false.
Proof.
  intros H. destruct (Qeq_bool x 0) eqn:E; [|reflexivity].
  apply Qeq_bool_iff in E. lra.
Qed.

Lemma le_ofZ (a b : Z) : JS.le (JS.ofZ a) (JS.ofZ b) = true <-> (a <= b)%Z.
Proof.
  unfold JS.le, JS.ofZ. rewrite Qle_bool_iff, <- Zle_Qle. reflexivity.
Qed.

Lemma min_Fin (x y : Q) :
  JS.min (JS.Fin x) (JS.Fin y) = if Qle_bool x y then JS.Fin x else JS.Fin y.
Proof. reflexivity. Qed.

Lemma max_Fin (x y : Q) :
  JS.max (JS.Fin x) (JS.Fin y) = if Qle_bool x y then JS.Fin y else JS.Fin x.
Proof. reflexivity. Qed.

(** Rounding a value that is at most the integer [m] gives at most [m]. *)
Lemma round_le_integer (x : Q) (m : Z) :
  x <= inject_Z m -> (Qfloor (x + (1 # 2)) <= m)%Z.
Proof.
  intros H.
  destruct (Z_le_gt_dec (Qfloor (x + (1 # 2))) m) as [|Hgt]; [assumption|].
  exfalso.
  assert (Hk : (m + 1 <= Qfloor (x + (1 # 2)))%Z) by lia.
  rewrite Zle_Qle, inject_Z_plus in Hk.
  pose proof (Qfloor_le (x + (1 # 2))) as Hf.
  change (inject_Z 1) with 1 in Hk. lra.
Qed.

End NumberFacts.

(** ** Rounding to binary64 *)
Section Binary64.
#[local] Open Scope Q_scope.

Lemma pow2_positive (k : Z) : 0 < 2 ^ k.
Proof. apply Qpower_0_lt. reflexivity. Qed.

Lemma pow2_add (a b : Z) : 2 ^ (a + b) == 2 ^ a * 2 ^ b.
Proof. apply Qpower_plus. discriminate. Qed.

Lemma pow2_le (a b : Z) : (a <= b)%Z -> 2 ^ a <= 2 ^ b.
Proof. intros H. apply Qpower_le_compat_l; [exact H|discriminate]. Qed.

Lemma pow2_lt (a b : Z) : (a < b)%Z -> 2 ^ a < 2 ^ b.
Proof. intros H. apply Qpower_lt_compat_l; [exact H|reflexivity]. Qed.

Lemma pow2_lt_inv (a b : Z) : 2 ^ a < 2 ^ b -> (a < b)%Z.
Proof. intros H. apply (Qpower_lt_compat_l_inv 2); [exact H|reflexivity]. Qed.

Lemma pow2_inject (n : Z) : (0 <= n)%Z -> inject_Z (2 ^ n) == 2 ^ n.
Proof. intros H. now rewrite Zpower_Qpower. Qed.

(** [exponent x] is the exponent of the positive [x]. *)
Lemma exponent_spec (x : Q) :
  0 < x -> 2 ^ JS.exponent x <= x /\ x < 2 ^ (JS.exponent x + 1).
Proof.
  intros Hx. destruct x as [n d].
  assert (Hn : (0 < n)%Z).
  { unfold Qlt in Hx. cbn in Hx. lia. }
  unfold JS.exponent. cbn [Qnum Qden].
  set (a := Z.log2 n). set (b := Z.log2 (Z.pos d)).
  destruct (Z.log2_spec n Hn) as [Ha1 Ha2].
  destruct (Z.log2_spec (Z.pos d) (Pos2Z.is_pos d)) as [Hb1 Hb2].
  fold a in Ha1, Ha2. fold b in Hb1, Hb2.
  assert (Ha : (0 <= a)%Z) by apply Z.log2_nonneg.
  assert (Hb : (0 <= b)%Z) by apply Z.log2_nonneg.
  assert (E : (n # d) * inject_Z (Z.pos d) == inject_Z n).
  { unfold Qeq, Qmult, inject_Z. cbn. lia. }
  rewrite Zle_Qle, pow2_inject in Ha1, Hb1 by assumption.
  rewrite Zlt_Qlt, pow2_inject in Ha2, Hb2 by lia.
  pose proof (pow2_positive b) as Hpb.
  pose proof (pow2_positive (b + 1)) as Hpb1.
  assert (Hlow : 2 ^ (a - b - 1) < n # d).
  { apply (Qmult_lt_r _ _ (2 ^ (b + 1))); [assumption|].
    rewrite <- pow2_add. replace (a - b - 1 + (b + 1))%Z with a by lia.
    apply Qle_lt_trans with (inject_Z n); [assumption|].
    rewrite <- E. apply Qmult_lt_l; [exact Hx|].
    unfold Z.succ in Hb2. exact Hb2. }
  assert (Hhigh : n # d < 2 ^ (a - b + 1)).
  { apply (Qmult_lt_r _ _ (2 ^ b)); [assumption|].
    rewrite <- (pow2_add (a - b + 1) b).
    replace (a - b + 1 + b)%Z with (Z.succ a) by lia.
    apply Qle_lt_trans with (inject_Z n); [|assumption].
    rewrite <- E. apply Qmult_le_l; [exact Hx|]. exact Hb1. }
  destruct (Qle_bool (2 ^ (a - b)) (n # d)) eqn:Hk.
  - apply Qle_bool_iff in Hk. split; assumption.
  - apply Qle_bool_false in Hk.
    replace (a - b - 1 + 1)%Z with (a - b)%Z by lia.
    split; [apply Qlt_le_weak|]; assumption.
Qed.

Lemma exponent_mono (x y : Q) :
  0 < x -> x <= y -> (JS.exponent x <= JS.exponent y)%Z.
Proof.
  intros Hx Hxy.
  destruct (exponent_spec x Hx) as [Hlo _].
  destruct (exponent_spec y) as [_ Hhi]; [lra|].
  assert (H : 2 ^ JS.exponent x < 2 ^ (JS.exponent y + 1)) by lra.
  apply pow2_lt_inv in H. lia.
Qed.

(** The nearest integer is within a half, and does not pass an integer. *)
Lemma nearestEven_near (y : Q) :
  y - (1 # 2) <= inject_Z (JS.nearestEven y)
  /\ inject_Z (JS.nearestEven y) <= y + (1 # 2).
Proof.
  unfold JS.nearestEven.
  pose proof (Qfloor_le y) as Hlo. pose proof (Qlt_floor y) as Hhi.
  rewrite inject_Z_plus in Hhi. change (inject_Z 1) with 1 in Hhi.
  destruct (Qcompare (y - inject_Z (Qfloor y)) (1 # 2)) eqn:E.
  - apply Qeq_alt in E.
    destruct (Z.even (Qfloor y)); rewrite ?inject_Z_plus;
      change (inject_Z 1) with 1; lra.
  - apply Qlt_alt in E. lra.
  - apply Qgt_alt in E. rewrite inject_Z_plus.
    change (inject_Z 1) with 1. lra.
Qed.

Lemma nearestEven_le (y : Q) (m : Z) :
  y <= inject_Z m -> (JS.nearestEven y <= m)%Z.
Proof.
  intros H. unfold JS.nearestEven.
  pose proof (Qfloor_le y) as Hlo.
  assert (Hf : (Qfloor y <= m)%Z).
  { rewrite <- (Qfloor_Z m). now apply Qfloor_resp_le. }
  destruct (Z.eq_dec (Qfloor y) m) as [Heq|Hne].
  - assert (Hlt : y - inject_Z (Qfloor y) < 1 # 2) by (rewrite Heq; lra).
    destruct (Qcompare _ _) eqn:E; [| |apply Qgt_alt in E; lra].
    + apply Qeq_alt in E. lra.
    + lia.
  - destruct (Qcompare _ _); [destruct (Z.even _)|..]; lia.
Qed.

Lemma nearestEven_ge (y : Q) (m : Z) :
  inject_Z m <= y -> (m <= JS.nearestEven y)%Z.
Proof.
  intros H. unfold JS.nearestEven.
  assert (Hf : (m <= Qfloor y)%Z).
  { rewrite <- (Qfloor_Z m). now apply Qfloor_resp_le. }
  destruct (Qcompare _ _); [destruct (Z.even _)|..]; lia.
Qed.

Lemma ulp_positive (x : Q) : 0 < JS.ulp x.
Proof. apply pow2_positive. Qed.

(** The unit in the last place of a positive [x] is at most [x * 2^-52],
    or it is the least one, [2^-1074]. *)
Lemma ulp_bound (x : Q) :
  0 < x -> JS.ulp x <= x * 2 ^ (-52) \/ JS.ulp x = 2 ^ (-1074).
Proof.
  intros Hx. unfold JS.ulp.
  assert (Habs : Qabs x == x) by (apply Qabs_pos; lra).
  destruct (Z.max_spec (JS.exponent (Qabs x)) (-1022)) as [[_ ->]|[_ ->]].
  - right. reflexivity.
  - left.
    replace (JS.exponent (Qabs x) - 52)%Z
      with (JS.exponent (Qabs x) + -52)%Z by lia.
    rewrite pow2_add.
    destruct (exponent_spec (Qabs x)) as [Hlo _]; [lra|].
    apply Qmult_le_compat_r; [lra|].
    apply Qlt_le_weak, pow2_positive.
Qed.

(** Above the unit in the last place of a positive [x], [x] is less than
    [2^53] units. *)
Lemma ulp_above (x : Q) : 0 < x -> x * 2 ^ (-53) < JS.ulp x.
Proof.
  intros Hx. unfold JS.ulp.
  assert (Habs : Qabs x == x) by (apply Qabs_pos; lra).
  set (e := Z.max (JS.exponent (Qabs x)) (-1022)).
  destruct (exponent_spec (Qabs x)) as [_ Hhi]; [lra|].
  assert (He : 2 ^ (JS.exponent (Qabs x) + 1) <= 2 ^ (e + 1))
    by (apply pow2_le; lia).
  replace (e - 52)%Z with (e + 1 + -53)%Z by lia. rewrite pow2_add.
  apply Qmult_lt_compat_r; [apply pow2_positive|lra].
Qed.

Lemma ulp_mono (x y : Q) :
  0 < x -> x <= y ->
  exists j : Z, (0 <= j)%Z /\ JS.ulp y == JS.ulp x * inject_Z (2 ^ j).
Proof.
  intros Hx Hxy.
  assert (Hax : Qabs x == x) by (apply Qabs_pos; lra).
  assert (Hay : Qabs y == y) by (apply Qabs_pos; lra).
  assert (He : (JS.exponent (Qabs x) <= JS.exponent (Qabs y))%Z)
    by (apply exponent_mono; lra).
  exists (Z.max (JS.exponent (Qabs y)) (-1022)
          - Z.max (JS.exponent (Qabs x)) (-1022))%Z.
  split; [lia|].
  rewrite pow2_inject by lia. unfold JS.ulp. rewrite <- pow2_add.
  match goal with |- 2 ^ ?a == 2 ^ ?b => replace b with a by lia end.
  reflexivity.
Qed.

(** [nearest x] is within half a unit of the magnitude of [x]. *)
Lemma nearest_near (x : Q) :
  Qabs x - JS.ulp x * (1 # 2) <= JS.nearest x
  /\ JS.nearest x <= Qabs x + JS.ulp x * (1 # 2).
Proof.
  unfold JS.nearest.
  pose proof (ulp_positive x) as Hu.
  destruct (nearestEven_near (Qabs x / JS.ulp x)) as [Hlo Hhi].
  split.
  - assert (E : (Qabs x / JS.ulp x - (1 # 2)) * JS.ulp x
                == Qabs x - JS.ulp x * (1 # 2)) by (field; lra).
    rewrite <- E. apply Qmult_le_compat_r; lra.
  - assert (E : (Qabs x / JS.ulp x + (1 # 2)) * JS.ulp x
                == Qabs x + JS.ulp x * (1 # 2)) by (field; lra).
    rewrite <- E. apply Qmult_le_compat_r; lra.
Qed.

Lemma nearest_nonneg (x : Q) : 0 <= JS.nearest x.
Proof.
  unfold JS.nearest. pose proof (ulp_positive x) as Hu.
  apply Qmult_le_0_compat; [|lra].
  change 0 with (inject_Z 0). rewrite <- Zle_Qle. apply nearestEven_ge.
  change (inject_Z 0) with 0.
  apply Qle_shift_div_l; [assumption|]. pose proof (Qabs_nonneg x). lra.
Qed.


(** The binary64 value of a rational that is not negative. *)
Lemma binary64_nonneg (x : Q) :
  0 <= x ->
  (JS.binary64 x = JS.PosInf /\ 2 ^ 1024 <= JS.nearest x)
  \/ (JS.binary64 x = JS.Fin (JS.nearest x) /\ JS.nearest x < 2 ^ 1024).
Proof.
  intros Hx. unfold JS.binary64.
  assert (Hsign : JS.Qltb x 0 = false) by now apply Qltb_false.
  rewrite Hsign. cbn [JS.inf].
  destruct (Qle_bool (2 ^ 1024) (JS.nearest x)) eqn:E.
  - left. split; [reflexivity|]. now apply Qle_bool_iff.
  - right. split; [reflexivity|]. now apply Qle_bool_false.
Qed.

Lemma isBinary64_nearest (m : Q) :
  0 <= m -> JS.isBinary64 m -> JS.nearest m == m /\ m < 2 ^ 1024.
Proof.
  intros Hm H. unfold JS.isBinary64 in H.
  destruct (binary64_nonneg m Hm) as [[E _]|[E Hlt]]; rewrite E in H.
  - contradiction.
  - cbn [JS.same] in H. split; [exact H|]. now rewrite <- H.
Qed.

(** A binary64 value is a whole number of the units of any smaller
    positive rational. *)
Lemma isBinary64_units (x m : Q) :
  0 < x -> x <= m -> JS.isBinary64 m ->
  exists n : Z, m == inject_Z n * JS.ulp x.
Proof.
  intros Hx Hxm Hm.
  destruct (isBinary64_nearest m) as [E _]; [lra|assumption|].
  destruct (ulp_mono x m Hx Hxm) as (j & Hj & Hulp).
  set (n := JS.nearestEven (Qabs m / JS.ulp m)).
  exists (n * 2 ^ j)%Z.
  assert (E' : m == inject_Z n * JS.ulp m) by (symmetry; exact E).
  rewrite E' at 1. rewrite Hulp, inject_Z_mult. ring.
Qed.

(** Rounding does not pass a binary64 value: the value of a rational up to
    the binary64 value [m] is at most [m]. *)
Lemma nearest_below (x m : Q) :
  0 <= x -> x <= m -> JS.isBinary64 m -> JS.nearest x <= m.
Proof.
  intros Hx Hxm Hm.
  pose proof (ulp_positive x) as Hu.
  destruct (Qlt_le_dec 0 x) as [Hpos|Hzero].
  - destruct (isBinary64_units x m Hpos Hxm Hm) as (n & Hn).
    unfold JS.nearest. rewrite Hn.
    apply Qmult_le_compat_r; [|lra].
    rewrite <- Zle_Qle. apply nearestEven_le.
    apply Qle_shift_div_r; [assumption|].
    rewrite <- Hn. rewrite Qabs_pos by lra. exact Hxm.
  - unfold JS.nearest.
    assert (H : inject_Z (JS.nearestEven (Qabs x / JS.ulp x)) * JS.ulp x
                <= inject_Z 0 * JS.ulp x).
    { apply Qmult_le_compat_r; [|lra].
      rewrite <- Zle_Qle. apply nearestEven_le.
      apply Qle_shift_div_r; [assumption|].
      rewrite Qabs_pos by lra. change (inject_Z 0) with 0. lra. }
    change (inject_Z 0) with 0 in H. lra.
Qed.

Lemma binary64_below (x m : Q) :
  0 <= x -> x <= m -> JS.isBinary64 m ->
  JS.binary64 x = JS.Fin (JS.nearest x) /\ JS.nearest x <= m.
Proof.
  intros Hx Hxm Hm.
  destruct (isBinary64_nearest m) as [_ Hfinite]; [lra|assumption|].
  pose proof (nearest_below x m Hx Hxm Hm) as Hr.
  destruct (binary64_nonneg x Hx) as [[_ Hinf]|[E _]]; [lra|].
  split; assumption.
Qed.

(** Two binary64 values are at least a unit in the last place apart. *)
Lemma binary64_gap (m h : Q) :
  0 < m -> m < h -> JS.isBinary64 m -> JS.isBinary64 h ->
  m + JS.ulp m <= h.
Proof.
  intros Hm Hmh Bm Bh.
  pose proof (ulp_positive m) as Hu.
  destruct (isBinary64_units m m Hm (Qle_refl m) Bm) as (n & Hn).
  destruct (isBinary64_units m h Hm (Qlt_le_weak _ _ Hmh) Bh) as (k & Hk).
  assert (Hlt : (n < k)%Z).
  { rewrite Zlt_Qlt. apply (Qmult_lt_r _ _ (JS.ulp m)); [assumption|].
    now rewrite <- Hn, <- Hk. }
  assert (Hle : inject_Z (n + 1) <= inject_Z k) by (rewrite <- Zle_Qle; lia).
  rewrite inject_Z_plus in Hle. change (inject_Z 1) with 1 in Hle.
  assert (H : (inject_Z n + 1) * JS.ulp m <= inject_Z k * JS.ulp m)
    by (apply Qmult_le_compat_r; lra).
  lra.
Qed.

Lemma binary64_gap_relative (m h : Q) :
  0 < m -> m < h -> JS.isBinary64 m -> JS.isBinary64 h ->
  m + m * 2 ^ (-53) < h.
Proof.
  intros Hm Hmh Bm Bh.
  pose proof (binary64_gap m h Hm Hmh Bm Bh).
  pose proof (ulp_above m Hm). lra.
Qed.

Lemma pow2_half (k : Z) : 2 ^ k * (1 # 2) == 2 ^ (k - 1).
Proof.
  replace (k - 1)%Z with (k + -1)%Z by lia. rewrite pow2_add. reflexivity.
Qed.

(** The nearest magnitude exceeds a rational that is not negative by at
    most the relative error [2^-53], or by [2^-1075] where it is
    subnormal. *)
Lemma nearest_error (x : Q) :
  0 <= x ->
  JS.nearest x <= x + x * 2 ^ (-53) \/ JS.nearest x <= x + 2 ^ (-1075).
Proof.
  intros Hx.
  destruct (Qlt_le_dec 0 x) as [Hpos|Hzero].
  - destruct (nearest_near x) as [_ Hhi].
    rewrite (Qabs_pos x) in Hhi by lra.
    destruct (ulp_bound x Hpos) as [H|H].
    + left. rewrite <- (pow2_half (-52)).
      assert (JS.ulp x * (1 # 2) <= x * 2 ^ (-52) * (1 # 2))
        by (apply Qmult_le_compat_r; [exact H|discriminate]).
      lra.
    + right. rewrite H in Hhi. rewrite (pow2_half (-1074)) in Hhi.
      exact Hhi.
  - right. pose proof (pow2_positive (-1075)).
    assert (JS.nearest x <= 0)
      by (apply nearest_below; [assumption..|vm_compute; reflexivity]).
    lra.
Qed.

(** From [2^-1022] on the error is relative. *)
Lemma nearest_error_normal (x : Q) :
  2 ^ (-1022) <= x -> JS.nearest x <= x + x * 2 ^ (-53).
Proof.
  intros Hx. pose proof (pow2_positive (-1022)) as Hp.
  destruct (nearest_error x) as [H|H]; [lra|exact H|].
  assert (E : 2 ^ (-1075) == 2 ^ (-1022) * 2 ^ (-53))
    by (apply (pow2_add (-1022) (-53))).
  assert (2 ^ (-1022) * 2 ^ (-53) <= x * 2 ^ (-53)).
  { apply Qmult_le_compat_r; [exact Hx|].
    apply Qlt_le_weak, pow2_positive. }
  lra.
Qed.

(** Sample values: one tenth and one third, a tie between two subnormal
    values, the least subnormal value, and the overflow to infinity half a
    unit above the greatest finite value. *)
Lemma binary64_samples :
  JS.same (JS.binary64 (1 # 10))
          (JS.Fin (3602879701896397 # 36028797018963968))
  /\ JS.same (JS.binary64 (- (1 # 3)))
             (JS.Fin (- (6004799503160661 # 18014398509481984)))
  /\ JS.same (JS.binary64 (3 * 2 ^ (-1075))) (JS.Fin (2 ^ (-1073)))
  /\ JS.same (JS.binary64 (2 ^ (-1075))) (JS.Fin 0)
  /\ JS.same (JS.binary64 (2 ^ (-1075) + 2 ^ (-1200)))
             (JS.Fin (2 ^ (-1074)))
  /\ JS.binary64 (2 ^ 1024 - 2 ^ 970) = JS.PosInf
  /\ JS.same (JS.binary64 (2 ^ 1024 - 2 ^ 970 - 1))
             (JS.Fin (2 ^ 1024 - 2 ^ 971)).
Proof.
  do 6 (split; [vm_compute; reflexivity|]). vm_compute. reflexivity.
Qed.

Lemma ulp_bound_normal (x : Q) :
  2 ^ (-1022) <= x -> JS.ulp x <= x * 2 ^ (-52).
Proof.
  intros Hx. pose proof (pow2_positive (-1022)) as Hp.
  destruct (ulp_bound x) as [H|H]; [lra|exact H|].
  rewrite H.
  assert (E : 2 ^ (-1074) == 2 ^ (-1022) * 2 ^ (-52))
    by (apply (pow2_add (-1022) (-52))).
  rewrite E. apply Qmult_le_compat_r; [exact Hx|].
  apply Qlt_le_weak, pow2_positive.
Qed.

(** From [2^-1022] on the nearest magnitude falls short by at most the
    relative error [2^-53]. *)
Lemma nearest_lower_normal (x : Q) :
  2 ^ (-1022) <= x -> x - x * 2 ^ (-53) <= JS.nearest x.
Proof.
  intros Hx. pose proof (pow2_positive (-1022)) as Hp.
  destruct (nearest_near x) as [Hlo _].
  rewrite (Qabs_pos x) in Hlo by lra.
  pose proof (ulp_bound_normal x Hx) as Hu.
  rewrite <- (pow2_half (-52)).
  assert (JS.ulp x * (1 # 2) <= x * 2 ^ (-52) * (1 # 2))
    by (apply Qmult_le_compat_r; [exact Hu|discriminate]).
  lra.
Qed.

(** A whole number of units in the last place is its own nearest
    magnitude. *)
Lemma nearest_units (x : Q) (n : Z) :
  Qabs x == inject_Z n * JS.ulp x -> JS.nearest x == Qabs x.
Proof.
  intros H. pose proof (ulp_positive x) as Hu.
  assert (E : Qabs x / JS.ulp x == inject_Z n).
  { rewrite H. field. lra. }
  assert (En : JS.nearestEven (Qabs x / JS.ulp x) = n).
  { apply Z.le_antisymm; [apply nearestEven_le|apply nearestEven_ge];
      rewrite E; apply Qle_refl. }
  unfold JS.nearest. rewrite En. symmetry. exact H.
Qed.

(** The positive integers below [2^53] are binary64 values. *)
Lemma isBinary64_integer (z : Z) :
  (0 < z < 2 ^ 53)%Z -> JS.isBinary64 (inject_Z z).
Proof.
  intros [Hpos Hlt].
  assert (Hx : 0 < inject_Z z).
  { change 0 with (inject_Z 0). now rewrite <- Zlt_Qlt. }
  assert (Habs : Qabs (inject_Z z) == inject_Z z) by (apply Qabs_pos; lra).
  destruct (exponent_spec (Qabs (inject_Z z))) as [Hlo Hhi]; [lra|].
  set (e := JS.exponent (Qabs (inject_Z z))) in *.
  assert (H53 : inject_Z z < 2 ^ 53).
  { rewrite <- (pow2_inject 53) by lia. now rewrite <- Zlt_Qlt. }
  assert (H1 : 2 ^ 0 <= inject_Z z).
  { change (2 ^ 0) with (inject_Z 1). rewrite <- Zle_Qle. lia. }
  assert (He0 : (0 <= e)%Z).
  { assert (H : 2 ^ 0 < 2 ^ (e + 1)) by lra. apply pow2_lt_inv in H. lia. }
  assert (He52 : (e <= 52)%Z).
  { assert (H : 2 ^ e < 2 ^ 53) by lra. apply pow2_lt_inv in H. lia. }
  assert (Hulp : JS.ulp (inject_Z z) = 2 ^ (e - 52)).
  { unfold JS.ulp. fold e. now rewrite Z.max_l by lia. }
  assert (Hunits : Qabs (inject_Z z)
                   == inject_Z (z * 2 ^ (52 - e)) * JS.ulp (inject_Z z)).
  { rewrite Hulp, Habs, inject_Z_mult, pow2_inject by lia.
    rewrite <- Qmult_assoc, <- pow2_add.
    replace (52 - e + (e - 52))%Z with 0%Z by lia.
    change (2 ^ 0) with 1. ring. }
  pose proof (nearest_units _ _ Hunits) as Hnear.
  assert (Hbig : 2 ^ 53 <= 2 ^ 1024) by (apply pow2_le; lia).
  unfold JS.isBinary64.
  destruct (binary64_nonneg (inject_Z z)) as [[_ Hinf]|[E _]]; [lra|lra|].
  rewrite E. cbn [JS.same]. lra.
Qed.

Lemma isBinary64_positive (p : positive) :
  (Z.pos p < 2 ^ 53)%Z -> JS.isBinary64 (inject_Z (Z.pos p)).
Proof. intros H. apply isBinary64_integer. lia. Qed.

End Binary64.

(** ** Quality normalization *)
Section Quality.
Import Types Compressor.

Lemma clampQuality_integer (q : JS.number) :
  exists z : Z, clampQuality q = JS.ofZ z /\ (0 <= z <= 100)%Z.
Proof.
  unfold clampQuality.
  destruct q as [| | |x].
  - exists 70%Z. split; [reflexivity|lia].
  - exists 100%Z. split; [reflexivity|lia].
  - exists 0%Z. split; [reflexivity|lia].
  - cbn [JS.isNaN JS.round]. unfold JS.ofZ.
    set (k := Qfloor (x + (1 # 2))).
    rewrite min_Fin.
    destruct (Qle_bool (inject_Z 100) (inject_Z k)) eqn:Hhi; rewrite max_Fin.
    + exists 100%Z. split; [reflexivity|lia].
    + destruct (Qle_bool (inject_Z 0) (inject_Z k)) eqn:Hlo.
      * exists k. split; [reflexivity|].
        apply Qle_bool_iff in Hlo. apply Qle_bool_false in Hhi.
        rewrite <- Zle_Qle in Hlo. rewrite <- Zlt_Qlt in Hhi. lia.
      * exists 0%Z. split; [reflexivity|lia].
Qed.

(** A clamped quality passes [isValidQuality]. *)
Lemma clampQuality_valid (q : JS.number) :
  isValidQuality (clampQuality q) = true.
Proof.
  destruct (clampQuality_integer q) as (z & -> & Hz).
  unfold isValidQuality, JS.ge. cbn [JS.isNaN JS.ofZ negb andb].
  apply andb_true_iff. split; apply le_ofZ; lia.
Qed.

(** The clamped value of a finite quality: its rounding, brought up to 0
    and down to 100. *)
Lemma clampQuality_finite (x : Q) :
  clampQuality (JS.Fin x)
  = JS.ofZ (Z.max 0 (Z.min 100 (Qfloor (x + (1 # 2))))).
Proof.
  unfold clampQuality. cbn [JS.isNaN JS.round]. unfold JS.ofZ.
  set (k := Qfloor (x + (1 # 2))).
  rewrite min_Fin.
  destruct (Qle_bool (inject_Z 100) (inject_Z k)) eqn:Hhi; rewrite max_Fin.
  - apply Qle_bool_iff in Hhi. rewrite <- Zle_Qle in Hhi.
    replace (Z.max 0 (Z.min 100 k)) with 100%Z by lia. reflexivity.
  - apply Qle_bool_false in Hhi. rewrite <- Zlt_Qlt in Hhi.
    destruct (Qle_bool (inject_Z 0) (inject_Z k)) eqn:Hlo.
    + apply Qle_bool_iff in Hlo. rewrite <- Zle_Qle in Hlo.
      replace (Z.max 0 (Z.min 100 k)) with k by lia. reflexivity.
    + apply Qle_bool_false in Hlo. rewrite <- Zlt_Qlt in Hlo.
      replace (Z.max 0 (Z.min 100 k)) with 0%Z by lia. reflexivity.
Qed.

(** The rounding of a value from 100 on is at least 100, that of a value
    up to 0 is at most 0, and an integer is its own rounding. *)
Lemma round_from (x : Q) (m : Z) :
  (inject_Z m <= x)%Q -> (m <= Qfloor (x + (1 # 2)))%Z.
Proof.
  intros H. rewrite <- (Qfloor_Z m). apply Qfloor_resp_le. lra.
Qed.

Lemma round_inject_Z (x : Q) (z : Z) :
  (x == inject_Z z)%Q -> Qfloor (x + (1 # 2)) = z.
Proof.
  intros H.
  assert (Hlo : (z <= Qfloor (x + (1 # 2)))%Z) by (apply round_from; lra).
  assert (Hhi : (Qfloor (x + (1 # 2)) <= z)%Z)
    by (apply round_le_integer; lra).
  lia.
Qed.

(** C6. Whatever the quality of the options given, the quality of the
    options [validateCompressionOptions] returns is an integer between 0
    and 100, and it is the given quality clamped: 100 for plus infinity
    and for every value from 100 on, 0 for minus infinity and for every
    value up to 0, the nearest integer (halves upwards) for a value in
    between, so an integer between 0 and 100 is kept; NaN is replaced by
    70.  The other options are kept. *)
Theorem validateCompressionOptions_quality (options : CompressionOptions) :
  (exists z : Z,
      quality (validateCompressionOptions options) = JS.ofZ z
      /\ (0 <= z <= 100)%Z)
  /\ match quality options with
     | JS.NaN => quality (validateCompressionOptions options) = JS.ofZ 70
     | JS.PosInf => quality (validateCompressionOptions options) = JS.ofZ 100
     | JS.NegInf => quality (validateCompressionOptions options) = JS.ofZ 0
     | JS.Fin x =>
         quality (validateCompressionOptions options)
         = JS.ofZ (Z.max 0 (Z.min 100 (Qfloor (x + (1 # 2)))))
         /\ ((100 <= x)%Q ->
             quality (validateCompressionOptions options) = JS.ofZ 100)
         /\ ((x <= 0)%Q ->
             quality (validateCompressionOptions options) = JS.ofZ 0)
         /\ (forall z : Z, (x == inject_Z z)%Q -> (0 <= z <= 100)%Z ->
             quality (validateCompressionOptions options) = JS.ofZ z)
     end
  /\ format (validateCompressionOptions options) = format options
  /\ maxWidth (validateCompressionOptions options) = maxWidth options
  /\ maxHeight (validateCompressionOptions options) = maxHeight options
  /\ maintainAspectRatio (validateCompressionOptions options)
     = maintainAspectRatio options
  /\ stripMetadata (validateCompressionOptions options)
     = stripMetadata options
  /\ progressive (validateCompressionOptions options) = progressive options.
Proof.
  split; [apply clampQuality_integer|].
  split; [|repeat split].
  cbn [validateCompressionOptions quality].
  destruct (quality options) as [| | |x]; try reflexivity.
  rewrite clampQuality_finite. repeat split.
  - intros Hx. f_equal.
    pose proof (round_from x 100 Hx). lia.
  - intros Hx. f_equal.
    assert (Qfloor (x + (1 # 2)) <= 0)%Z by (apply round_le_integer; exact Hx).
    lia.
  - intros z Hx Hz. f_equal. rewrite (round_inject_Z x z Hx). lia.
Qed.

(** Qualities of 150, -5, 72.5 and 64 become 100, 0, 73 and 64. *)
Lemma validateCompressionOptions_quality_witness :
  quality (validateCompressionOptions (Examples.withQuality (JS.ofZ 150)))
  = JS.ofZ 100
  /\ quality (validateCompressionOptions (Examples.withQuality (JS.ofZ (-5))))
     = JS.ofZ 0
  /\ quality
       (validateCompressionOptions (Examples.withQuality (JS.Fin (145 # 2))))
     = JS.ofZ 73
  /\ quality (validateCompressionOptions (Examples.withQuality (JS.ofZ 64)))
     = JS.ofZ 64.
Proof.
  split; [|split; [|split]].
  - apply (proj1 (proj2 (proj1 (proj2
      (validateCompressionOptions_quality
         (Examples.withQuality (JS.ofZ 150))))))).
    vm_compute. discriminate.
  - apply (proj1 (proj2 (proj2 (proj1 (proj2
      (validateCompressionOptions_quality
         (Examples.withQuality (JS.ofZ (-5))))))))).
    vm_compute. discriminate.
  - exact (proj1 (proj1 (proj2
      (validateCompressionOptions_quality
         (Examples.withQuality (JS.Fin (145 # 2))))))).
  - apply (proj2 (proj2 (proj2 (proj1 (proj2
      (validateCompressionOptions_quality
         (Examples.withQuality (JS.ofZ 64))))))) 64%Z);
      [reflexivity|lia].
Defined.

(** The values of [clampQuality] at the special inputs. *)
Lemma clampQuality_special :
  clampQuality JS.NaN = JS.ofZ 70
  /\ clampQuality JS.PosInf = JS.ofZ 100
  /\ clampQuality JS.NegInf = JS.ofZ 0
  /\ clampQuality (JS.Fin (-(7 # 2))) = JS.ofZ 0
  /\ clampQuality (JS.Fin (2501 # 10)) = JS.ofZ 100
  /\ clampQuality (JS.Fin (145 # 2)) = JS.ofZ 73.
Proof. repeat split. Qed.

End Quality.

(** ** Compression ratio *)
Section Ratio.
#[local] Open Scope Q_scope.

Lemma clamp_between (r : Q) :
  JS.between 0 100 (Spec.clamp (JS.Fin r) (JS.ofZ 0) (JS.ofZ 100)).
Proof.
  unfold Spec.clamp, JS.ofZ. rewrite min_Fin.
  destruct (Qle_bool (inject_Z 100) r) eqn:Hhi; rewrite max_Fin.
  - simpl. split; [easy|]. apply Qle_refl.
  - apply Qle_bool_false in Hhi.
    destruct (Qle_bool (inject_Z 0) r) eqn:Hlo; simpl.
    + apply Qle_bool_iff in Hlo.
      change (inject_Z 100) with 100 in Hhi.
      change (inject_Z 0) with 0 in Hlo. lra.
    + split; [apply Qle_refl|easy].
Qed.

Lemma clamp_negative (r : Q) :
  r < 0 -> Spec.clamp (JS.Fin r) (JS.ofZ 0) (JS.ofZ 100) = JS.ofZ 0.
Proof.
  intros Hr. unfold Spec.clamp, JS.ofZ. rewrite min_Fin.
  change (inject_Z 100) with 100. change (inject_Z 0) with 0.
  destruct (Qle_bool 100 r) eqn:Hhi.
  - apply Qle_bool_iff in Hhi. lra.
  - rewrite max_Fin.
    destruct (Qle_bool 0 r) eqn:Hlo; [|reflexivity].
    apply Qle_bool_iff in Hlo. lra.
Qed.

Lemma ratio_positive_original (o c : Q) :
  0 < o ->
  Spec.ratio (JS.Fin o) (JS.Fin c)
  = Spec.clamp (JS.Fin ((o - c) / o * 100)) (JS.ofZ 0) (JS.ofZ 100).
Proof.
  intros Ho. unfold Spec.ratio. cbn [JS.sub JS.div].
  rewrite (Qeq_bool_false_pos o Ho). reflexivity.
Qed.

Lemma calculateCompressionRatio_positive (o c : Q) :
  0 < o ->
  FileHelpers.calculateCompressionRatio (JS.Fin o) (JS.Fin c)
  = Spec.ratio (JS.Fin o) (JS.Fin c).
Proof.
  intros Ho. unfold FileHelpers.calculateCompressionRatio.
  replace (JS.le (JS.Fin o) (JS.ofZ 0)) with false; [reflexivity|].
  symmetry. unfold JS.le, JS.ofZ.
  destruct (Qle_bool o (inject_Z 0)) eqn:E; [|reflexivity].
  apply Qle_bool_iff in E. change (inject_Z 0) with 0 in E. lra.
Qed.

Lemma calculateCompressionRatio_nonpositive (o : Q) (c : JS.number) :
  o <= 0 -> FileHelpers.calculateCompressionRatio (JS.Fin o) c = JS.ofZ 0.
Proof.
  intros Ho. unfold FileHelpers.calculateCompressionRatio.
  replace (JS.le (JS.Fin o) (JS.ofZ 0)) with true; [reflexivity|].
  symmetry. apply Qle_bool_iff. exact Ho.
Qed.

(** C3, as stated, fails at the pair (0, 0): the helper returns 0 where the
    formula is NaN, and the ratio of the worker is NaN. *)
Lemma compression_ratio_zero_sizes :
  ~ (forall o c : Z,
        JS.same (FileHelpers.calculateCompressionRatio (JS.ofZ o) (JS.ofZ c))
                (Spec.ratio (JS.ofZ o) (JS.ofZ c))
        /\ JS.between 0 100
             (FileHelpers.calculateCompressionRatio (JS.ofZ o) (JS.ofZ c))
        /\ JS.same (Worker.compressImage_compressionRatio
                      (JS.ofZ o) (JS.ofZ c))
                   (Spec.ratio (JS.ofZ o) (JS.ofZ c))
        /\ JS.between 0 100
             (Worker.compressImage_compressionRatio (JS.ofZ o) (JS.ofZ c))).
Proof.
  intros H. destruct (H 0%Z 0%Z) as (_ & _ & _ & Hw). exact Hw.
Qed.

(** C3, amended. For every pair of sizes with a positive original size, the
    ratio of the helper and the ratio of the worker both equal
    clamp(((original - compressed) / original) * 100, 0, 100) and lie between
    0 and 100; they are 0 when the compressed size exceeds the original.  For
    an original size of 0 or less the helper returns 0.  Both give
    (100, 50) = 50, (100, 25) = 75, (100, 100) = 0 and (0, 50) = 0. *)
Theorem compression_ratio_bounds :
  (forall o c : Q, 0 < o ->
      FileHelpers.calculateCompressionRatio (JS.Fin o) (JS.Fin c)
      = Spec.ratio (JS.Fin o) (JS.Fin c)
      /\ Worker.compressImage_compressionRatio (JS.Fin o) (JS.Fin c)
         = Spec.ratio (JS.Fin o) (JS.Fin c)
      /\ JS.between 0 100 (Spec.ratio (JS.Fin o) (JS.Fin c))
      /\ (o < c -> Spec.ratio (JS.Fin o) (JS.Fin c) = JS.ofZ 0))
  /\ (forall (o : Q) (c : JS.number), o <= 0 ->
         FileHelpers.calculateCompressionRatio (JS.Fin o) c = JS.ofZ 0)
  /\ (forall f,
         f = FileHelpers.calculateCompressionRatio
         \/ f = Worker.compressImage_compressionRatio ->
         JS.same (f (JS.ofZ 100) (JS.ofZ 50)) (JS.ofZ 50)
         /\ JS.same (f (JS.ofZ 100) (JS.ofZ 25)) (JS.ofZ 75)
         /\ JS.same (f (JS.ofZ 100) (JS.ofZ 100)) (JS.ofZ 0)
         /\ JS.same (f (JS.ofZ 0) (JS.ofZ 50)) (JS.ofZ 0)).
Proof.
  split; [|split].
  - intros o c Ho. split; [|split; [|split]].
    + now apply calculateCompressionRatio_positive.
    + reflexivity.
    + rewrite ratio_positive_original by assumption. apply clamp_between.
    + intros Hc. rewrite ratio_positive_original by assumption.
      apply clamp_negative.
      assert (H : (o - c) / o * 100 == (o - c) * (100 / o)) by (field; lra).
      rewrite H.
      assert (0 < 100 / o) by (apply Qlt_shift_div_l; lra).
      assert (o - c < 0) by lra. nra.
  - intros o c Ho. now apply calculateCompressionRatio_nonpositive.
  - intros f [-> | ->]; repeat split; vm_compute; reflexivity.
Qed.

(** [compression_ratio_bounds] at an original of 2048 bytes and a larger
    result of 4096 bytes. *)
Lemma compression_ratio_bounds_witness :
  0 < 2048 /\ 2048 < 4096
  /\ FileHelpers.calculateCompressionRatio (JS.Fin 2048) (JS.Fin 4096)
     = Spec.ratio (JS.Fin 2048) (JS.Fin 4096)
  /\ Worker.compressImage_compressionRatio (JS.Fin 2048) (JS.Fin 4096)
     = Spec.ratio (JS.Fin 2048) (JS.Fin 4096)
  /\ JS.between 0 100 (Spec.ratio (JS.Fin 2048) (JS.Fin 4096))
  /\ Spec.ratio (JS.Fin 2048) (JS.Fin 4096) = JS.ofZ 0.
Proof.
  assert (Ho : 0 < 2048) by reflexivity.
  assert (Hc : 2048 < 4096) by reflexivity.
  destruct (proj1 compression_ratio_bounds 2048 4096 Ho)
    as (H1 & H2 & H3 & H4).
  exact (conj Ho (conj Hc (conj H1 (conj H2 (conj H3 (H4 Hc)))))).
Defined.

End Ratio.

(** ** Dimension resolution *)
Section Dimensions.
#[local] Open Scope Q_scope.
Import FileHelpers.

(** The guard of [calculateDimensions]. *)
Lemma calculateDimensions_nonpositive (original : Dimensions)
    (options : DimensionConstraints) :
  JS.le (width original) (JS.ofZ 0) = true
  \/ JS.le (height original) (JS.ofZ 0) = true ->
  calculateDimensions original options
  = {| width := JS.ofZ 0; height := JS.ofZ 0 |}.
Proof.
  intros H. unfold calculateDimensions.
  replace (JS.le (width original) (JS.ofZ 0)
           || JS.le (height original) (JS.ofZ 0)) with true; [reflexivity|].
  symmetry. apply orb_true_iff. exact H.
Qed.


Lemma le_Fin_positive (x : Q) : 0 < x -> JS.le (JS.Fin x) (JS.ofZ 0) = false.
Proof.
  intros Hx. unfold JS.le, JS.ofZ.
  destruct (Qle_bool x (inject_Z 0)) eqn:E; [|reflexivity].
  apply Qle_bool_iff in E. change (inject_Z 0) with 0 in E. lra.
Qed.

Lemma truthy_positive (p : positive) :
  JS.truthy (Some (JS.ofZ (Z.pos p))) = true.
Proof. reflexivity. Qed.

Lemma round_le (x : Q) (m : Z) :
  x <= inject_Z m -> JS.le (JS.round (JS.Fin x)) (JS.ofZ m) = true.
Proof.
  intros H. cbn [JS.round]. apply le_ofZ. now apply round_le_integer.
Qed.

(** Rounding a value less than a half above the integer [m] gives at most
    [m]. *)
Lemma round_below_half (x : Q) (m : Z) :
  x < inject_Z m + (1 # 2) ->
  JS.le (JS.round (JS.Fin x)) (JS.ofZ m) = true.
Proof.
  intros H. cbn [JS.round]. apply le_ofZ.
  pose proof (Qfloor_le (x + (1 # 2))) as Hf.
  assert (Hlt : inject_Z (Qfloor (x + (1 # 2))) < inject_Z (m + 1)).
  { rewrite inject_Z_plus. change (inject_Z 1) with 1. lra. }
  rewrite <- Zlt_Qlt in Hlt. lia.
Qed.

Lemma positive_integer (p : positive) : 1 <= inject_Z (Z.pos p).
Proof. change 1 with (inject_Z 1). rewrite <- Zle_Qle. lia. Qed.

Lemma fdiv_Fin (x y : Q) :
  0 < y -> JS.fdiv (JS.Fin x) (JS.Fin y) = JS.binary64 (x / y).
Proof.
  intros Hy. unfold JS.fdiv, JS.div. now rewrite (Qeq_bool_false_pos y Hy).
Qed.

Lemma fmul_Fin (x y : Q) :
  JS.fmul (JS.Fin x) (JS.Fin y) = JS.binary64 (x * y).
Proof. reflexivity. Qed.

Lemma isBinary64_zero : JS.isBinary64 0.
Proof. vm_compute. reflexivity. Qed.

(** The second pass after the first: the height [maxWidth / aspectRatio]
    exceeds [maxHeight], and the width [maxHeight * aspectRatio] comes out
    at most [maxWidth]. *)
Lemma second_pass_after_first (q : Q) (a b : positive) :
  0 <= q ->
  JS.isBinary64 (inject_Z (Z.pos a)) -> JS.isBinary64 (inject_Z (Z.pos b)) ->
  JS.gt (JS.fdiv (JS.ofZ (Z.pos a)) (JS.binary64 q)) (JS.ofZ (Z.pos b))
  = true ->
  JS.le (JS.round (JS.fmul (JS.ofZ (Z.pos b)) (JS.binary64 q)))
        (JS.ofZ (Z.pos a)) = true.
Proof.
  intros Hq Ba Bb Hgt.
  pose proof (positive_integer a) as Ha.
  pose proof (positive_integer b) as Hb.
  destruct (binary64_nonneg q Hq) as [[E _]|[E _]]; rewrite E in *.
  - exfalso.
    change (JS.fdiv (JS.ofZ (Z.pos a)) JS.PosInf) with (JS.binary64 0) in Hgt.
    destruct (binary64_below 0 0) as [E0 H0];
      [lra|lra|exact isBinary64_zero|].
    rewrite E0 in Hgt. unfold JS.gt, JS.ofZ in Hgt. cbn [JS.lt] in Hgt.
    apply Qltb_true in Hgt. lra.
  - pose proof (nearest_nonneg q) as Hs.
    set (s := JS.nearest q) in *.
    unfold JS.ofZ at 1. rewrite fmul_Fin.
    assert (Hwidth : inject_Z (Z.pos b) * s <= inject_Z (Z.pos a)).
    { destruct (Qlt_le_dec 0 s) as [Hpos|Hzero].
      - destruct (Qlt_le_dec (inject_Z (Z.pos a)) (inject_Z (Z.pos b) * s))
          as [Hlt|Hle]; [exfalso|exact Hle].
        unfold JS.ofZ at 1 in Hgt. rewrite (fdiv_Fin _ _ Hpos) in Hgt.
        assert (Hdiv : inject_Z (Z.pos a) / s <= inject_Z (Z.pos b)).
        { apply Qle_shift_div_r; lra. }
        assert (Hnn : 0 <= inject_Z (Z.pos a) / s).
        { apply Qle_shift_div_l; lra. }
        destruct (binary64_below _ _ Hnn Hdiv Bb) as [E1 H1].
        rewrite E1 in Hgt. unfold JS.gt, JS.ofZ in Hgt. cbn [JS.lt] in Hgt.
        apply Qltb_true in Hgt. lra.
      - assert (Ezero : s == 0) by lra. rewrite Ezero. lra. }
    assert (Hnn : 0 <= inject_Z (Z.pos b) * s)
      by (apply Qmult_le_0_compat; lra).
    destruct (binary64_below _ _ Hnn Hwidth Ba) as [E1 H1].
    rewrite E1. now apply round_le.
Qed.

Lemma pow2_small :
  2 ^ (-53) <= 1 # 1000 /\ 2 ^ (-51) <= 1 # 1000 /\ 2 ^ (-1075) <= 1 # 1000.
Proof. repeat split; apply Qle_bool_iff; vm_compute; reflexivity. Qed.

(** The second pass alone: the height exceeds [maxHeight] and the width,
    at most [maxWidth] before, comes out at most [maxWidth]. *)
Lemma second_pass_alone (w h : Q) (a b : positive) :
  0 < w ->
  JS.isBinary64 w -> JS.isBinary64 h -> JS.isBinary64 (inject_Z (Z.pos b)) ->
  w <= inject_Z (Z.pos a) -> inject_Z (Z.pos b) < h ->
  JS.le (JS.round (JS.fmul (JS.ofZ (Z.pos b))
                           (JS.fdiv (JS.Fin w) (JS.Fin h))))
        (JS.ofZ (Z.pos a)) = true.
Proof.
  intros Hw Bw Bh Bb Hwa Hbh.
  pose proof (positive_integer b) as Hb.
  assert (Hh : 0 < h) by lra.
  rewrite (fdiv_Fin w h Hh).
  set (q := w / h).
  assert (Eq : q * h == w) by (unfold q; field; lra).
  assert (Hq : 0 < q) by (apply Qlt_shift_div_l; lra).
  assert (Hqw : q <= w).
  { apply Qle_shift_div_r; [assumption|].
    assert (w * 1 <= w * h) by (apply Qmult_le_l; lra). lra. }
  destruct (binary64_below q w) as [E Hsw]; [lra|assumption..|].
  rewrite E. pose proof (nearest_nonneg q) as Hs.
  set (s := JS.nearest q) in *.
  unfold JS.ofZ at 1. rewrite fmul_Fin.
  assert (Hnn : 0 <= inject_Z (Z.pos b) * s)
    by (apply Qmult_le_0_compat; lra).
  destruct (isBinary64_nearest h) as [_ Hfinite]; [lra|assumption|].
  destruct (Qlt_le_dec 4 w) as [Hbig|Hsmall].
  - assert (E4 : 2 ^ (-1022) * 2 ^ 1024 == 4)
      by (rewrite <- pow2_add; reflexivity).
    assert (Hnormal : 2 ^ (-1022) <= q).
    { apply Qle_shift_div_l; [assumption|].
      assert (2 ^ (-1022) * h <= 2 ^ (-1022) * 2 ^ 1024).
      { apply Qmult_le_l; [apply pow2_positive|lra]. }
      lra. }
    pose proof (nearest_error_normal q Hnormal) as Herr. fold s in Herr.
    assert (Hgap : inject_Z (Z.pos b) + inject_Z (Z.pos b) * 2 ^ (-53) < h)
      by (apply binary64_gap_relative; [lra|assumption..]).
    assert (H1 : inject_Z (Z.pos b) * s
                 <= inject_Z (Z.pos b) * (q + q * 2 ^ (-53)))
      by (apply Qmult_le_l; lra).
    assert (H2 : q * (inject_Z (Z.pos b) + inject_Z (Z.pos b) * 2 ^ (-53))
                 <= q * h)
      by (apply Qmult_le_l; lra).
    assert (Hwidth : inject_Z (Z.pos b) * s <= w) by lra.
    destruct (binary64_below _ _ Hnn Hwidth Bw) as [E1 H1'].
    rewrite E1. apply round_le. lra.
  - destruct pow2_small as (Hu & H51 & Heta).
    pose proof (pow2_positive (-53)) as Hu0.
    pose proof (pow2_positive (-1075)) as Heta0.
    assert (E51 : 2 ^ 1024 * 2 ^ (-1075) == 2 ^ (-51))
      by (rewrite <- pow2_add; reflexivity).
    assert (Herr : s <= q + q * 2 ^ (-53) + 2 ^ (-1075)).
    { assert (Hqu : 0 <= q * 2 ^ (-53)) by (apply Qmult_le_0_compat; lra).
      destruct (nearest_error q) as [H|H]; [lra|fold s in H; lra..]. }
    assert (H1 : inject_Z (Z.pos b) * s <= h * s)
      by (apply Qmult_le_compat_r; lra).
    assert (H2 : h * s <= h * (q + q * 2 ^ (-53) + 2 ^ (-1075)))
      by (apply Qmult_le_l; lra).
    assert (H3 : h * 2 ^ (-1075) <= 2 ^ 1024 * 2 ^ (-1075))
      by (apply Qmult_le_compat_r; lra).
    assert (H4 : w * 2 ^ (-53) <= 4 * 2 ^ (-53))
      by (apply Qmult_le_compat_r; lra).
    assert (Hx : inject_Z (Z.pos b) * s <= w + 5 * (1 # 1000)).
    { assert (Eh : h * (q + q * 2 ^ (-53) + 2 ^ (-1075))
                   == w + w * 2 ^ (-53) + h * 2 ^ (-1075)).
      { rewrite <- Eq. ring. }
      lra. }
    set (x := inject_Z (Z.pos b) * s) in *.
    assert (B8 : JS.isBinary64 8) by (vm_compute; reflexivity).
    destruct (binary64_below x 8) as [E1 _]; [lra|lra|assumption|].
    rewrite E1. apply round_below_half.
    assert (H5 : x * 2 ^ (-53) <= 5 * 2 ^ (-53))
      by (apply Qmult_le_compat_r; lra).
    destruct (nearest_error x Hnn) as [Hr|Hr]; lra.
Qed.

Lemma binary64_not_NaN (x : Q) : JS.isNaN (JS.binary64 x) = false.
Proof.
  unfold JS.binary64.
  destruct (Qle_bool _ _); [|reflexivity]. now destruct (JS.Qltb x 0).
Qed.

(** The height [maxWidth / aspectRatio] of the first pass is a number. *)
Lemma first_pass_height (q : Q) (a : positive) :
  JS.isNaN (JS.fdiv (JS.ofZ (Z.pos a)) (JS.binary64 q)) = false.
Proof.
  unfold JS.fdiv.
  destruct (JS.binary64 q) as [| | |s] eqn:E.
  - pose proof (binary64_not_NaN q) as H. rewrite E in H. discriminate H.
  - apply binary64_not_NaN.
  - apply binary64_not_NaN.
  - unfold JS.ofZ, JS.div. destruct (Qeq_bool s 0).
    + reflexivity.
    + apply binary64_not_NaN.
Qed.

(** A number that does not exceed the integer [m] rounds to at most
    [m]. *)
Lemma round_not_gt (n : JS.number) (m : Z) :
  JS.isNaN n = false -> JS.gt n (JS.ofZ m) = false ->
  JS.le (JS.round n) (JS.ofZ m) = true.
Proof.
  intros Hn Hgt. destruct n as [| | |x]; try discriminate; [reflexivity|].
  unfold JS.gt, JS.ofZ in Hgt. cbn [JS.lt] in Hgt.
  apply Qltb_false in Hgt. now apply round_le.
Qed.

Lemma calculateOutputDimensions_positive (w h : Q)
    (options : Types.CompressionOptions) :
  0 < w -> 0 < h ->
  Worker.calculateOutputDimensions (JS.Fin w) (JS.Fin h) options
  = calculateDimensions {| width := JS.Fin w; height := JS.Fin h |}
                        (Spec.constraintsOf options).
Proof.
  intros Hw Hh.
  unfold calculateDimensions, Worker.calculateOutputDimensions,
    Spec.constraintsOf.
  cbn [width height maxWidth maxHeight maintainAspectRatio].
  rewrite (le_Fin_positive w Hw), (le_Fin_positive h Hh). reflexivity.
Qed.



(** With a positive bitmap, the aspect ratio locked and a constraint set,
    [calculateDimensions] rounds the result of the two-pass clamp. *)
Lemma calculateDimensions_twoPass (w h : Q) (mw mh : option positive) :
  0 < w -> 0 < h -> is_Some mw \/ is_Some mh ->
  calculateDimensions
    {| width := JS.Fin w; height := JS.Fin h |}
    {| maxWidth := Spec.integerConstraint mw;
       maxHeight := Spec.integerConstraint mh;
       maintainAspectRatio := true |}
  = {| width := JS.round (fst (Spec.twoPass w h mw mh));
       height := JS.round (snd (Spec.twoPass w h mw mh)) |}.
Proof.
  intros Hw Hh Hset.
  unfold calculateDimensions, Spec.twoPass.
  cbn [width height maxWidth maxHeight maintainAspectRatio negb].
  rewrite (le_Fin_positive w Hw), (le_Fin_positive h Hh).
  cbn [orb].
  destruct mw as [a|], mh as [b|];
    cbn [Spec.integerConstraint fmap option_fmap option_map];
    rewrite ?truthy_positive; cbn [JS.truthy negb andb JS.valueOf].
  - destruct (JS.gt (JS.Fin w) (JS.ofZ (Z.pos a)));
      now destruct (JS.gt _ (JS.ofZ (Z.pos b))).
  - now destruct (JS.gt (JS.Fin w) (JS.ofZ (Z.pos a))).
  - now destruct (JS.gt (JS.Fin h) (JS.ofZ (Z.pos b))).
  - destruct Hset as [[? H] | [? H]]; discriminate H.
Qed.

(** The rounded result of the two-pass clamp keeps within both
    constraints. *)
Lemma twoPass_within (w h : Q) (mw mh : option positive) :
  0 < w -> 0 < h -> JS.isBinary64 w -> JS.isBinary64 h ->
  (forall a, mw = Some a -> JS.isBinary64 (inject_Z (Z.pos a))) ->
  (forall b, mh = Some b -> JS.isBinary64 (inject_Z (Z.pos b))) ->
  (forall a, mw = Some a ->
     JS.le (JS.round (fst (Spec.twoPass w h mw mh))) (JS.ofZ (Z.pos a))
     = true)
  /\ (forall b, mh = Some b ->
        JS.le (JS.round (snd (Spec.twoPass w h mw mh))) (JS.ofZ (Z.pos b))
        = true).
Proof.
  intros Hw Hh Bw Bh Bmw Bmh.
  assert (Hq : 0 <= w / h) by (apply Qle_shift_div_l; lra).
  assert (Hself : forall m : Z,
             JS.le (JS.round (JS.ofZ m)) (JS.ofZ m) = true).
  { intros m. apply round_le, Qle_refl. }
  unfold Spec.twoPass.
  destruct mw as [a|], mh as [b|]; split; intros m Hm;
    try discriminate Hm; injection Hm as <-.
  - specialize (Bmw a eq_refl). specialize (Bmh b eq_refl).
    destruct (JS.gt (JS.Fin w) (JS.ofZ (Z.pos a))) eqn:E1.
    + destruct (JS.gt _ (JS.ofZ (Z.pos b))) eqn:E2; cbn [fst].
      * rewrite (fdiv_Fin w h Hh) in *.
        now apply second_pass_after_first.
      * apply Hself.
    + unfold JS.gt, JS.ofZ in E1. cbn [JS.lt] in E1.
      apply Qltb_false in E1.
      destruct (JS.gt (JS.Fin h) (JS.ofZ (Z.pos b))) eqn:E2; cbn [fst].
      * unfold JS.gt, JS.ofZ in E2. cbn [JS.lt] in E2.
        apply Qltb_true in E2.
        now apply second_pass_alone.
      * now apply round_le.
  - destruct (JS.gt (JS.Fin w) (JS.ofZ (Z.pos a))) eqn:E1.
    + destruct (JS.gt _ (JS.ofZ (Z.pos b))) eqn:E2; cbn [snd].
      * apply Hself.
      * rewrite (fdiv_Fin w h Hh) in *.
        apply round_not_gt; [apply first_pass_height|exact E2].
    + destruct (JS.gt (JS.Fin h) (JS.ofZ (Z.pos b))) eqn:E2; cbn [snd].
      * apply Hself.
      * now apply round_not_gt.
  - destruct (JS.gt (JS.Fin w) (JS.ofZ (Z.pos a))) eqn:E1; cbn [fst].
    + apply Hself.
    + now apply round_not_gt.
  - destruct (JS.gt (JS.Fin h) (JS.ofZ (Z.pos b))) eqn:E2; cbn [snd].
    + apply Hself.
    + now apply round_not_gt.
Qed.

Lemma calculateDimensions_unconstrained (w h : Q) (lock : bool) :
  0 < w -> 0 < h ->
  calculateDimensions
    {| width := JS.Fin w; height := JS.Fin h |}
    {| maxWidth := None; maxHeight := None; maintainAspectRatio := lock |}
  = {| width := JS.Fin w; height := JS.Fin h |}.
Proof.
  intros Hw Hh. unfold calculateDimensions.
  cbn [width height maxWidth maxHeight].
  now rewrite (le_Fin_positive w Hw), (le_Fin_positive h Hh).
Qed.

(** C4. For a bitmap of positive width and height and constraints that, when
    set, are positive integers, all of them binary64 values: with the aspect
    ratio locked, [calculateDimensions] returns the rounded result of the
    two-pass clamp, of width at most [maxWidth] and height at most
    [maxHeight], whichever are set; with neither set it returns the
    dimensions of the bitmap.  The worker's [calculateOutputDimensions]
    returns the same dimensions. *)
Theorem calculateDimensions_within_constraints
    (w h : Q) (mw mh : option positive) (options : Types.CompressionOptions) :
  0 < w -> 0 < h -> JS.isBinary64 w -> JS.isBinary64 h ->
  (forall a, mw = Some a -> JS.isBinary64 (inject_Z (Z.pos a))) ->
  (forall b, mh = Some b -> JS.isBinary64 (inject_Z (Z.pos b))) ->
  Types.maxWidth options = Spec.integerConstraint mw ->
  Types.maxHeight options = Spec.integerConstraint mh ->
  let original := {| width := JS.Fin w; height := JS.Fin h |} in
  let out := calculateDimensions original (Spec.constraintsOf options) in
  Worker.calculateOutputDimensions (JS.Fin w) (JS.Fin h) options = out
  /\ (Types.maintainAspectRatio options = true ->
        (is_Some mw \/ is_Some mh ->
           out = {| width := JS.round (fst (Spec.twoPass w h mw mh));
                    height := JS.round (snd (Spec.twoPass w h mw mh)) |})
        /\ (forall a, mw = Some a ->
              JS.le (width out) (JS.ofZ (Z.pos a)) = true)
        /\ (forall b, mh = Some b ->
              JS.le (height out) (JS.ofZ (Z.pos b)) = true))
  /\ (mw = None -> mh = None -> out = original).
Proof.
  intros Hw Hh Bw Bh Bmw Bmh Hmw Hmh original out.
  split; [now apply calculateOutputDimensions_positive|].
  subst out original. unfold Spec.constraintsOf. rewrite Hmw, Hmh.
  split.
  - intros ->.
    destruct (twoPass_within w h mw mh Hw Hh Bw Bh Bmw Bmh)
      as [Hwidth Hheight].
    split; [|split].
    + intros Hset. now apply calculateDimensions_twoPass.
    + intros a Ha.
      rewrite calculateDimensions_twoPass by (subst mw; eauto).
      cbn [width]. now apply Hwidth.
    + intros b Hb.
      rewrite calculateDimensions_twoPass by (subst mh; eauto).
      cbn [height]. now apply Hheight.
  - intros -> ->. now apply calculateDimensions_unconstrained.
Qed.

(** [calculateDimensions_within_constraints] on a bitmap of 4000 by 3000
    fitted into 1920 by 1080: the result is 1440 by 1080. *)
Lemma calculateDimensions_within_constraints_witness :
  0 < 4000 /\ 0 < 3000
  /\ Worker.calculateOutputDimensions (JS.Fin 4000) (JS.Fin 3000)
       Examples.fullHD
     = calculateDimensions {| width := JS.Fin 4000; height := JS.Fin 3000 |}
                           (Spec.constraintsOf Examples.fullHD)
  /\ JS.le (width (calculateDimensions
                     {| width := JS.Fin 4000; height := JS.Fin 3000 |}
                     (Spec.constraintsOf Examples.fullHD)))
           (JS.ofZ 1920) = true
  /\ JS.le (height (calculateDimensions
                      {| width := JS.Fin 4000; height := JS.Fin 3000 |}
                      (Spec.constraintsOf Examples.fullHD)))
           (JS.ofZ 1080) = true.
Proof.
  assert (Hw : 0 < 4000) by reflexivity.
  assert (Hh : 0 < 3000) by reflexivity.
  assert (Bw : JS.isBinary64 4000) by (vm_compute; reflexivity).
  assert (Bh : JS.isBinary64 3000) by (vm_compute; reflexivity).
  assert (Bmw : forall a, Some 1920%positive = Some a ->
                  JS.isBinary64 (inject_Z (Z.pos a))).
  { intros a Ha. injection Ha as <-. vm_compute. reflexivity. }
  assert (Bmh : forall b, Some 1080%positive = Some b ->
                  JS.isBinary64 (inject_Z (Z.pos b))).
  { intros b Hb. injection Hb as <-. vm_compute. reflexivity. }
  destruct (calculateDimensions_within_constraints
              4000 3000 (Some 1920%positive) (Some 1080%positive)
              Examples.fullHD Hw Hh Bw Bh Bmw Bmh eq_refl eq_refl)
    as (Hworker & Hlocked & _).
  destruct (Hlocked eq_refl) as (_ & Hwidth & Hheight).
  exact (conj Hw (conj Hh (conj Hworker
           (conj (Hwidth _ eq_refl) (Hheight _ eq_refl))))).
Defined.

(** The quotient and the product are rounded as the machine rounds them: a
    bitmap of 3332 by 3230 fitted into a width of 1617 comes out 1567 high,
    and one of 1 by 98 fitted into a height of 49 comes out 0 wide, where
    the exact values 1567.5 and 0.5 would round to 1568 and 1. *)
Lemma calculateDimensions_binary64 :
  calculateDimensions
    {| width := JS.ofZ 3332; height := JS.ofZ 3230 |}
    {| maxWidth := Some (JS.ofZ 1617); maxHeight := None;
       maintainAspectRatio := true |}
  = {| width := JS.ofZ 1617; height := JS.ofZ 1567 |}
  /\ calculateDimensions
       {| width := JS.ofZ 1; height := JS.ofZ 98 |}
       {| maxWidth := None; maxHeight := Some (JS.ofZ 49);
          maintainAspectRatio := true |}
     = {| width := JS.ofZ 0; height := JS.ofZ 49 |}.
Proof. split; vm_compute; reflexivity. Qed.

End Dimensions.

(** ** The processing store *)
Section Store.
Import ProcessingStore Spec.

Lemma Status_eqb_eq (a b : Status) : Status_eqb a b = true <-> a = b.
Proof. destruct a, b; simpl; split; congruence. Qed.

Lemma busyCount_app (q1 q2 : list ProcessingQueueItem) :
  busyCount (q1 ++ q2) = (busyCount q1 + busyCount q2)%nat.
Proof. unfold busyCount. now rewrite List.filter_app, List.length_app. Qed.

Lemma busyCount_idle (q : list ProcessingQueueItem) :
  Forall (fun item => status item <> processing) q -> busyCount q = 0%nat.
Proof.
  induction 1 as [|x q Hx _ IH]; [reflexivity|].
  unfold busyCount, isBusy in *. simpl.
  destruct (status x); [assumption|contradiction|assumption..].
Qed.

Lemma busyCount_queued (q : list ProcessingQueueItem) :
  Forall (fun item => status item = queued) q -> busyCount q = 0%nat.
Proof.
  intros H. apply busyCount_idle.
  eapply Forall_impl; [exact H|]. cbn beta. intros x Hx. now rewrite Hx.
Qed.

Lemma busyCount_map_le (f : ProcessingQueueItem -> ProcessingQueueItem)
    (q : list ProcessingQueueItem) :
  (forall item, isBusy (f item) = true -> isBusy item = true) ->
  (busyCount (map f q) <= busyCount q)%nat.
Proof.
  intros Hf. unfold busyCount.
  induction q as [|x q IH]; simpl; [lia|].
  destruct (isBusy (f x)) eqn:E.
  - rewrite (Hf x E). simpl. lia.
  - destruct (isBusy x); simpl; lia.
Qed.

Lemma busyCount_filter_le (p : ProcessingQueueItem -> bool)
    (q : list ProcessingQueueItem) :
  (busyCount (List.filter p q) <= busyCount q)%nat.
Proof.
  unfold busyCount.
  induction q as [|x q IH]; simpl; [lia|].
  destruct (p x); simpl; destruct (isBusy x); simpl; lia.
Qed.

Lemma ids_filter_NoDup (p : ProcessingQueueItem -> bool)
    (q : list ProcessingQueueItem) :
  NoDup (map id q) -> NoDup (map id (List.filter p q)).
Proof.
  induction q as [|x q IH]; simpl; [auto|].
  rewrite NoDup_cons. intros [Hx Hq].
  destruct (p x); simpl; [|auto].
  apply NoDup_cons. split; [|auto].
  intros Hin. apply Hx.
  apply list_elem_of_In in Hin. apply list_elem_of_In.
  apply in_map_iff in Hin as (y & Hy & Hin). apply in_map_iff.
  exists y. split; [assumption|].
  now apply List.filter_In in Hin.
Qed.

Lemma startAll_ids (now : Z) (id' : string) (q : list ProcessingQueueItem) :
  map id (startAll now id' q) = map id q.
Proof.
  unfold startAll. rewrite List.map_map. apply List.map_ext.
  intros x. now destruct (String.eqb (id x) id').
Qed.

Lemma startAll_cons (now : Z) (id' : string) (x : ProcessingQueueItem)
    (q : list ProcessingQueueItem) :
  startAll now id' (x :: q)
  = (if String.eqb (id x) id' then Spec.started now x else x)
      :: startAll now id' q.
Proof. reflexivity. Qed.

Lemma startAll_absent (now : Z) (id' : string) (q : list ProcessingQueueItem) :
  id' ∉ map id q -> startAll now id' q = q.
Proof.
  induction q as [|x q IH]; [reflexivity|].
  rewrite startAll_cons. cbn [map]. rewrite not_elem_of_cons. intros [Hx Hq].
  destruct (String.eqb_spec (id x) id'); [congruence|].
  now rewrite IH.
Qed.

(** With distinct ids, starting the queued item found changes that item
    alone. *)
Lemma startAll_single (now : Z) (id' : string) (q : list ProcessingQueueItem)
    (item : ProcessingQueueItem) :
  NoDup (map id q) ->
  List.find (fun item => String.eqb (id item) id') q = Some item ->
  exists before after,
    q = before ++ item :: after
    /\ id item = id'
    /\ startAll now id' q = before ++ Spec.started now item :: after.
Proof.
  induction q as [|x q IH]; [discriminate|].
  cbn [map List.find]. rewrite NoDup_cons, startAll_cons.
  intros [Hx Hq] Hfind.
  destruct (String.eqb_spec (id x) id') as [Heq|Hne].
  - injection Hfind as <-. exists [], q.
    repeat split; [assumption|].
    rewrite startAll_absent; [reflexivity|]. now rewrite <- Heq.
  - destruct (IH Hq Hfind) as (before & after & -> & Hid & Hstart).
    exists (x :: before), after. repeat split; [assumption|].
    now rewrite Hstart.
Qed.

Lemma startProcessing_unfold (now : Z) (id' : string)
    (state : ProcessingStoreState) :
  startProcessing now id' state
  = if Types.MAX_CONCURRENT_PROCESSING <=? busyCount (queue state)
    then (state, false)
    else match List.find (fun item => String.eqb (id item) id')
                         (queue state) with
         | None => (state, false)
         | Some item =>
             if negb (Status_eqb (status item) queued) then (state, false)
             else ({| queue := startAll now id' (queue state);
                      isProcessing := isProcessing state |}, true)
         end.
Proof. reflexivity. Qed.

Lemma startProcessing_true_iff (now : Z) (id' : string)
    (state : ProcessingStoreState) :
  snd (startProcessing now id' state) = true <-> ~ Spec.declines id' state.
Proof.
  rewrite startProcessing_unfold. unfold Spec.declines, getProcessingCount.
  fold isBusy. fold (busyCount (queue state)).
  destruct (Nat.leb_spec Types.MAX_CONCURRENT_PROCESSING
              (busyCount (queue state))) as [Hfull|Hfree]; simpl.
  { split; [discriminate|]. intros H. exfalso. apply H. now left. }
  destruct (List.find _ (queue state)) as [item|] eqn:Hfind; simpl.
  2: { split; [discriminate|]. intros H. exfalso. apply H. right. now left. }
  destruct (status item) eqn:Hstatus; simpl.
  - split; [|reflexivity]. intros _ [H|[H|(x & Hx & Hne)]].
    + lia.
    + discriminate H.
    + injection Hx as <-. congruence.
  - split; [discriminate|]. intros H. exfalso. apply H. right. right.
    exists item. split; [reflexivity|congruence].
  - split; [discriminate|]. intros H. exfalso. apply H. right. right.
    exists item. split; [reflexivity|congruence].
  - split; [discriminate|]. intros H. exfalso. apply H. right. right.
    exists item. split; [reflexivity|congruence].
Qed.

Lemma startProcessing_false (now : Z) (id' : string)
    (state : ProcessingStoreState) :
  snd (startProcessing now id' state) = false ->
  startProcessing now id' state = (state, false).
Proof.
  rewrite startProcessing_unfold.
  destruct (_ <=? _); [reflexivity|].
  destruct (List.find _ _) as [item|]; [|reflexivity].
  destruct (negb _); [reflexivity|discriminate].
Qed.

Lemma startProcessing_true (now : Z) (id' : string)
    (state : ProcessingStoreState) :
  snd (startProcessing now id' state) = true ->
  fst (startProcessing now id' state)
  = {| queue := startAll now id' (queue state);
       isProcessing := isProcessing state |}
  /\ (busyCount (queue state) < Types.MAX_CONCURRENT_PROCESSING)%nat
  /\ exists item,
       List.find (fun item => String.eqb (id item) id') (queue state)
       = Some item
       /\ status item = queued.
Proof.
  rewrite startProcessing_unfold.
  destruct (Nat.leb_spec Types.MAX_CONCURRENT_PROCESSING
              (busyCount (queue state))); [discriminate|].
  destruct (List.find _ _) as [item|]; [|discriminate].
  destruct (Status_eqb (status item) queued) eqn:E; [|discriminate].
  intros _. repeat split; [assumption|].
  exists item. split; [reflexivity|]. now apply Status_eqb_eq.
Qed.

Lemma busyCount_started (now : Z) (before after : list ProcessingQueueItem)
    (item : ProcessingQueueItem) :
  status item = queued ->
  busyCount (before ++ Spec.started now item :: after)
  = S (busyCount (before ++ item :: after)).
Proof.
  intros Hq. rewrite !busyCount_app.
  change (Spec.started now item :: after)
    with ([Spec.started now item] ++ after).
  change (item :: after) with ([item] ++ after).
  rewrite !busyCount_app.
  unfold busyCount at 2 5. unfold isBusy. simpl. rewrite Hq. simpl. lia.
Qed.

(** C10, as stated, fails on a queue where two items carry the id: the call
    returns true and also marks the second item, which was complete. *)
Lemma startProcessing_shared_id :
  ~ (forall now id' state,
        snd (startProcessing now id' state) = true ->
        Spec.startsSingleItem now id' (queue state)
          (queue (fst (startProcessing now id' state)))).
Proof.
  intros H.
  specialize (H 0%Z "a"
    {| queue := [ {| id := "a"; imageId := "a"; status := queued;
                     progress := JS.ofZ 0; startTime := None;
                     endTime := None |};
                  {| id := "a"; imageId := "a"; status := complete;
                     progress := JS.ofZ 100; startTime := Some 1%Z;
                     endTime := Some 2%Z |} ];
       isProcessing := true |} eq_refl).
  destruct H as (before & item & after & Hq & _ & Hstatus & Hq').
  cbn in Hq, Hq'.
  destruct before as [|x [|y before]]; cbn in Hq, Hq'.
  - injection Hq as <- <-. cbn in Hq'. discriminate Hq'.
  - injection Hq as _ <- _. discriminate Hstatus.
  - destruct before; discriminate Hq.
Qed.

(** C10, amended. [startProcessing] returns false and leaves the state as it
    is when the limit of processing items is reached, when no item has the
    id, or when the first item with the id is not queued; it returns true in
    every other case, and then marks every item carrying the id as processing
    with its start time set, and keeps every other item and the order.  When
    the ids of the queue are distinct, it returns true exactly when it moves
    that single item from queued to processing and changes nothing else. *)
Theorem startProcessing_transition (now : Z) (id' : string)
    (state : ProcessingStoreState) :
  let result := startProcessing now id' state in
  (Spec.declines id' state -> result = (state, false))
  /\ (snd result = true <-> ~ Spec.declines id' state)
  /\ (snd result = true ->
        isProcessing (fst result) = isProcessing state
        /\ queue (fst result)
           = map (fun item => if String.eqb (id item) id'
                              then Spec.started now item else item)
                 (queue state))
  /\ (NoDup (map id (queue state)) ->
        (snd result = true <->
         Spec.startsSingleItem now id' (queue state) (queue (fst result)))).
Proof.
  intros result. subst result.
  split; [|split; [|split]].
  - intros Hd. apply startProcessing_false.
    destruct (snd (startProcessing now id' state)) eqn:E; [|reflexivity].
    apply startProcessing_true_iff in E. contradiction.
  - apply startProcessing_true_iff.
  - intros Ht. destruct (startProcessing_true _ _ _ Ht) as (-> & _ & _).
    split; reflexivity.
  - intros Hids. split.
    + intros Ht.
      destruct (startProcessing_true _ _ _ Ht) as (-> & _ & item & Hf & Hs).
      destruct (startAll_single now id' _ item Hids Hf)
        as (before & after & Hq & Hid & Hq').
      exists before, item, after. cbn [queue]. auto.
    + intros (before & item & after & Hq & Hid & Hs & Hq').
      destruct (snd (startProcessing now id' state)) eqn:E; [reflexivity|].
      rewrite (startProcessing_false _ _ _ E) in Hq'. cbn [fst] in Hq'.
      rewrite Hq in Hq'. apply app_inv_head in Hq'.
      injection Hq' as Hitem. rewrite Hitem in Hs. discriminate Hs.
Qed.

Lemma find_unique (id' : string) (q : list ProcessingQueueItem)
    (item : ProcessingQueueItem) :
  NoDup (map id q) -> In item q -> id item = id' ->
  List.find (fun item => String.eqb (id item) id') q = Some item.
Proof.
  induction q as [|x q IH]; [contradiction|].
  cbn [map List.find In]. rewrite NoDup_cons. intros [Hx Hq] [->|Hin] Hid.
  - subst id'. now rewrite String.eqb_refl.
  - destruct (String.eqb_spec (id x) id') as [Heq|Hne]; [|now apply IH].
    exfalso. apply Hx. rewrite Heq, <- Hid.
    apply list_elem_of_In. now apply in_map.
Qed.

Lemma startProcessing_withinLimit (now : Z) (id' : string)
    (state : ProcessingStoreState) :
  withinLimit state -> withinLimit (fst (startProcessing now id' state)).
Proof.
  intros [Hids Hcount].
  destruct (snd (startProcessing now id' state)) eqn:E.
  - destruct (startProcessing_true _ _ _ E) as (-> & Hfree & item & Hf & Hs).
    destruct (startAll_single now id' _ item Hids Hf)
      as (before & after & Hq & Hid & Hq').
    split; cbn [queue].
    + now rewrite startAll_ids.
    + rewrite Hq', busyCount_started, <- Hq by assumption. lia.
  - rewrite (startProcessing_false _ _ _ E). now split.
Qed.

Lemma step_withinLimit (state : ProcessingStoreState) (op : Op) :
  withinLimit state -> Spec.admissible state op ->
  withinLimit (step state op).
Proof.
  intros [Hids Hcount] [Hop Hadd].
  destruct op as [items|id' updates|id'| |now id']; cbn [step].
  - destruct Hadd as [Hidle Hnew]. split; cbn [addToQueue queue].
    + exact Hnew.
    + rewrite busyCount_app, (busyCount_idle items Hidle). lia.
  - destruct Hop as [Hid Hstatus]. split; cbn [updateQueueItem queue].
    + rewrite List.map_map.
      erewrite List.map_ext; [exact Hids|].
      intros x. cbn beta. destruct (String.eqb (id x) id'); [|reflexivity].
      unfold spread. cbn [id]. now rewrite Hid.
    + etransitivity; [apply busyCount_map_le|exact Hcount].
      intros x. destruct (String.eqb (id x) id'); [|auto].
      unfold isBusy, spread. cbn [status].
      destruct (p_status updates) as [st|] eqn:E; cbn [default]; [|auto].
      intros Hb. apply Status_eqb_eq in Hb. unfold Datatypes.id in Hb.
      congruence.
  - split; cbn [removeFromQueue queue].
    + now apply ids_filter_NoDup.
    + etransitivity; [apply busyCount_filter_le|exact Hcount].
  - split; cbn [clearQueue queue].
    + constructor.
    + unfold busyCount. simpl. lia.
  - apply startProcessing_withinLimit. now split.
Qed.

(** Attempts to start items of distinct ids that are queued: each attempt
    succeeds until the limit is reached. *)
Lemma startProcessing_attempts (attempts : list (Z * string)) :
  forall state : ProcessingStoreState,
  withinLimit state ->
  NoDup (map snd attempts) ->
  (forall a, In a attempts ->
     exists item, In item (queue state) /\ id item = snd a
                  /\ status item = queued) ->
  busyCount
    (queue (run (map (fun a => OpStartProcessing (fst a) (snd a)) attempts)
                state))
  = Nat.min Types.MAX_CONCURRENT_PROCESSING
            (busyCount (queue state) + length attempts).
Proof.
  induction attempts as [|[now id'] attempts IH]; intros state Hinv Hnd Hq.
  - destruct Hinv as [_ Hcount]. cbn [map length]. unfold run.
    cbn [fold_left]. rewrite Nat.add_0_r. lia.
  - cbn [map fst snd] in *. unfold run in *. cbn [fold_left step].
    apply NoDup_cons in Hnd as [Hfresh Hnd].
    pose proof (startProcessing_withinLimit now id' state Hinv) as Hinv'.
    destruct (snd (startProcessing now id' state)) eqn:E.
    + destruct (startProcessing_true _ _ _ E) as (Hst & Hfree & item & Hf & Hs).
      destruct Hinv as [Hids Hcount].
      destruct (startAll_single now id' _ item Hids Hf)
        as (before & after & Hqueue & Hid & Hqueue').
      rewrite IH; try assumption.
      * rewrite Hst. cbn [queue length].
        rewrite Hqueue', busyCount_started, <- Hqueue by assumption. lia.
      * intros a Ha. destruct (Hq a (or_intror Ha)) as (x & Hx & Hxid & Hxs).
        exists x. split; [|auto].
        rewrite Hst. cbn [queue]. unfold startAll.
        apply in_map_iff. exists x. split; [|assumption].
        destruct (String.eqb_spec (id x) id') as [Heq|]; [|reflexivity].
        exfalso. apply Hfresh. rewrite <- Heq, Hxid.
        apply list_elem_of_In. now apply in_map.
    + assert (Hfull : busyCount (queue state)
                      = Types.MAX_CONCURRENT_PROCESSING).
      { destruct Hinv as [Hids Hcount].
        destruct (Nat.eq_dec (busyCount (queue state))
                    Types.MAX_CONCURRENT_PROCESSING); [assumption|].
        exfalso.
        assert (Ht : snd (startProcessing now id' state) = true);
          [|congruence].
        apply startProcessing_true_iff. intros [Hd|[Hd|(x & Hx & Hne)]].
        - unfold getProcessingCount in Hd. fold isBusy in Hd.
          fold (busyCount (queue state)) in Hd. lia.
        - destruct (Hq (now, id') (or_introl eq_refl))
            as (item & Hin & Hid & Hs).
          rewrite (find_unique id' _ item Hids Hin Hid) in Hd. discriminate.
        - destruct (Hq (now, id') (or_introl eq_refl))
            as (item & Hin & Hid & Hs).
          rewrite (find_unique id' _ item Hids Hin Hid) in Hx.
          injection Hx as <-. contradiction. }
      rewrite (startProcessing_false _ _ _ E). cbn [fst].
      rewrite IH; try assumption.
      * cbn [length]. lia.
      * intros a Ha. apply Hq. now right.
Qed.

(** C1, as stated, fails: five items enqueued under one id are all marked
    processing by a single [startProcessing]. *)
Lemma processing_limit_shared_id :
  ~ (forall ops : list Op,
        Forall Spec.onCompletion ops ->
        (getProcessingCount (run ops initialState)
         <= Types.MAX_CONCURRENT_PROCESSING)%nat).
Proof.
  intros H.
  specialize (H [OpAddToQueue
                   (repeat {| id := "a"; imageId := "a"; status := queued;
                              progress := JS.ofZ 0; startTime := None;
                              endTime := None |} 5);
                 OpStartProcessing 0%Z "a"]).
  cbn in H. assert (5 <= 4)%nat; [|lia].
  apply H. repeat constructor.
Qed.

(** Items enqueued as processing count at once. *)
Lemma addToQueue_processing_items :
  getProcessingCount
    (addToQueue (repeat (Spec.started 0 (Examples.queuedItem "a")) 5)
                initialState) = 5%nat.
Proof. reflexivity. Qed.

(** C1, amended. From the empty queue, through any sequence of addToQueue,
    startProcessing, removeFromQueue, clearQueue and updateQueueItem calls in
    which no item is enqueued as processing, items are enqueued under ids new
    to the queue, and updates neither rename an item nor mark it processing,
    the number of processing items never exceeds
    MAX_CONCURRENT_PROCESSING = 4.  After enqueuing 20 queued items of
    distinct ids and attempting to start each of them with startProcessing,
    exactly 4 are processing. *)
Theorem processing_limit :
  (forall state, Spec.reachable state ->
     (getProcessingCount state <= Types.MAX_CONCURRENT_PROCESSING)%nat)
  /\ (forall (items : list ProcessingQueueItem)
             (time : ProcessingQueueItem -> Z),
        length items = 20%nat ->
        Forall (fun item => status item = queued) items ->
        NoDup (map id items) ->
        getProcessingCount
          (run (map (fun item => OpStartProcessing (time item) (id item))
                    items)
               (addToQueue items initialState)) = 4%nat).
Proof.
  split.
  - intros state Hreach.
    assert (Hinv : withinLimit state); [|apply Hinv].
    induction Hreach as [|state op _ IH Hop].
    + split; [constructor|]. unfold busyCount. simpl. lia.
    + now apply step_withinLimit.
  - intros items time Hlen Hqueued Hids.
    assert (Hops :
      map (fun item => OpStartProcessing (time item) (id item)) items
      = map (fun a => OpStartProcessing (fst a) (snd a))
            (map (fun item => (time item, id item)) items))
      by now rewrite List.map_map.
    rewrite Hops. unfold getProcessingCount. fold isBusy.
    match goal with
    | |- length (List.filter isBusy ?q) = _ => fold (busyCount q)
    end.
    rewrite startProcessing_attempts.
    + cbn [addToQueue queue initialState app].
      rewrite (busyCount_queued items Hqueued), List.length_map, Hlen.
      reflexivity.
    + split; cbn [addToQueue queue initialState app]; [assumption|].
      rewrite (busyCount_queued items Hqueued).
      unfold Types.MAX_CONCURRENT_PROCESSING. lia.
    + now rewrite List.map_map.
    + intros a Ha. apply in_map_iff in Ha as (item & <- & Hin).
      exists item. cbn [addToQueue queue initialState app fst snd].
      repeat split; [assumption|].
      rewrite Forall_forall in Hqueued. apply Hqueued.
      now apply list_elem_of_In.
Qed.

(** [startProcessing_transition] on a queue of two queued items of distinct
    ids: starting the first changes that item alone. *)
Lemma startProcessing_transition_witness :
  NoDup (map id (queue Examples.twoQueued))
  /\ ~ Spec.declines "a" Examples.twoQueued
  /\ Spec.startsSingleItem 7 "a" (queue Examples.twoQueued)
       (queue (fst (startProcessing 7 "a" Examples.twoQueued))).
Proof.
  assert (Hids : NoDup (map id (queue Examples.twoQueued))).
  { apply (bool_decide_unpack _). vm_compute. exact I. }
  destruct (startProcessing_transition 7 "a" Examples.twoQueued)
    as (_ & Hiff & _ & Hsingle).
  split; [exact Hids|]. split.
  - apply Hiff. reflexivity.
  - apply (Hsingle Hids). reflexivity.
Defined.

(** [processing_limit] on twenty queued items of distinct ids: the state
    after the attempts is reachable, and 4 items are processing. *)
Lemma processing_limit_witness :
  length Examples.twentyItems = 20%nat
  /\ Forall (fun item => status item = queued) Examples.twentyItems
  /\ NoDup (map id Examples.twentyItems)
  /\ Spec.reachable (addToQueue Examples.twentyItems initialState)
  /\ (getProcessingCount (addToQueue Examples.twentyItems initialState)
      <= Types.MAX_CONCURRENT_PROCESSING)%nat
  /\ getProcessingCount
       (run (map (fun item => OpStartProcessing 0 (id item))
                 Examples.twentyItems)
            (addToQueue Examples.twentyItems initialState)) = 4%nat.
Proof.
  assert (Hlen : length Examples.twentyItems = 20%nat) by reflexivity.
  assert (Hqueued :
    Forall (fun item => status item = queued) Examples.twentyItems).
  { apply Forall_fmap, Forall_forall. intros i _. reflexivity. }
  assert (Hids : NoDup (map id Examples.twentyItems)).
  { apply (bool_decide_unpack _). vm_compute. exact I. }
  assert (Hreach :
    Spec.reachable (addToQueue Examples.twentyItems initialState)).
  { apply (Spec.reachable_step initialState
             (OpAddToQueue Examples.twentyItems)).
    - apply Spec.reachable_initial.
    - split; [exact I|]. split; [|exact Hids].
      apply Forall_fmap, Forall_forall. intros i _. discriminate. }
  destruct processing_limit as [Hlimit Htwenty].
  exact (conj Hlen (conj Hqueued (conj Hids (conj Hreach
           (conj (Hlimit _ Hreach)
                 (Htwenty Examples.twentyItems (fun _ => 0%Z)
                          Hlen Hqueued Hids)))))).
Defined.

End Store.

(** ** The history store *)
Section History.
Import HistoryStore Spec.

#[local] Instance older_transitive : Transitive older.
Proof. unfold older. intros a b c. lia. Qed.

Lemma leb_older (a b : string * CompressionHistoryEntry) :
  is_true (IndexOrder.leb a b) -> older a b.
Proof.
  unfold IndexOrder.leb, older, is_true. intros H.
  apply orb_true_iff in H as [H|H].
  - apply Z.ltb_lt in H. lia.
  - apply andb_true_iff in H as [H _]. apply Z.eqb_eq in H. lia.
Qed.

Lemma timestampIndex_Permutation (store : gmap string CompressionHistoryEntry) :
  timestampIndex store ≡ₚ map_to_list store.
Proof. symmetry. apply IndexSort.Permuted_sort. Qed.

Lemma timestampIndex_sorted (store : gmap string CompressionHistoryEntry) :
  StronglySorted older (timestampIndex store).
Proof.
  apply Sorted_StronglySorted; [apply older_transitive|].
  pose proof (IndexSort.Sorted_sort (map_to_list store)) as H.
  unfold timestampIndex.
  induction H as [|a l _ IH Hd]; constructor; [assumption|].
  destruct Hd; constructor. now apply leb_older.
Qed.

Lemma elem_of_timestampIndex (store : gmap string CompressionHistoryEntry)
    (k : string) (e : CompressionHistoryEntry) :
  (k, e) ∈ timestampIndex store <-> store !! k = Some e.
Proof.
  rewrite timestampIndex_Permutation. apply elem_of_map_to_list.
Qed.

Lemma timestampIndex_keys_NoDup (store : gmap string CompressionHistoryEntry) :
  NoDup (timestampIndex store).*1.
Proof.
  rewrite timestampIndex_Permutation. apply NoDup_fst_map_to_list.
Qed.

Lemma timestampIndex_length (store : gmap string CompressionHistoryEntry) :
  length (timestampIndex store) = size store.
Proof.
  rewrite timestampIndex_Permutation. apply length_map_to_list.
Qed.

#[local] Instance newestFirst_transitive : Transitive newestFirst.
Proof. unfold newestFirst. intros a b c. lia. Qed.

Lemma getHistoryEntries_sorted (store : gmap string CompressionHistoryEntry) :
  StronglySorted newestFirst (getHistoryEntries store).
Proof.
  apply Sorted_StronglySorted; [apply newestFirst_transitive|].
  unfold getHistoryEntries. rewrite fmap_reverse.
  apply (Sorted_reverse (flip newestFirst)).
  apply (Sorted_fmap snd older); [auto|].
  apply StronglySorted_Sorted, timestampIndex_sorted.
Qed.

Lemma elem_of_getHistoryEntries (store : gmap string CompressionHistoryEntry)
    (e : CompressionHistoryEntry) :
  e ∈ getHistoryEntries store <-> exists k, store !! k = Some e.
Proof.
  unfold getHistoryEntries. rewrite list_elem_of_fmap. split.
  - intros ([k e'] & -> & Hin). exists k. cbn [snd].
    rewrite elem_of_reverse, elem_of_timestampIndex in Hin. exact Hin.
  - intros [k Hk]. exists (k, e). split; [reflexivity|].
    rewrite elem_of_reverse, elem_of_timestampIndex. exact Hk.
Qed.

Lemma getHistoryEntries_length (store : gmap string CompressionHistoryEntry) :
  length (getHistoryEntries store) = size store.
Proof.
  unfold getHistoryEntries.
  now rewrite length_fmap, length_reverse, timestampIndex_length.
Qed.

Lemma strictly_sorted (l : list CompressionHistoryEntry) :
  StronglySorted newestFirst l -> NoDup (timestamp <$> l) ->
  StronglySorted strictlyNewer l.
Proof.
  induction 1 as [|a l Hl IH Ha]; [constructor|].
  rewrite fmap_cons, NoDup_cons. intros [Hnew Hnd].
  constructor; [auto|].
  rewrite Forall_forall in Ha |- *. intros b Hb.
  specialize (Ha b Hb). unfold newestFirst, strictlyNewer in *.
  assert (timestamp a <> timestamp b); [|lia].
  intros Heq. apply Hnew. rewrite Heq. now apply list_elem_of_fmap_2.
Qed.

Lemma getHistoryEntries_timestamps_NoDup
    (store : gmap string CompressionHistoryEntry) :
  (forall k1 k2 e1 e2,
      store !! k1 = Some e1 -> store !! k2 = Some e2 ->
      timestamp e1 = timestamp e2 -> k1 = k2) ->
  NoDup (timestamp <$> getHistoryEntries store).
Proof.
  intros Hdistinct. unfold getHistoryEntries.
  rewrite <- list_fmap_compose.
  apply NoDup_fmap_2_strong.
  - intros [k1 e1] [k2 e2] H1 H2 Heq. cbn in Heq.
    rewrite elem_of_reverse, elem_of_timestampIndex in H1, H2.
    assert (k1 = k2) as -> by eauto. congruence.
  - apply (NoDup_fmap_1 fst). rewrite fmap_reverse.
    rewrite reverse_Permutation. apply timestampIndex_keys_NoDup.
Qed.

(** *** Eviction *)

Lemma deleteAll_lookup (l : list (string * CompressionHistoryEntry))
    (store : gmap string CompressionHistoryEntry) (k : string) :
  fold_left (fun s record => delete (fst record) s) l store !! k
  = if decide (k ∈ l.*1) then None else store !! k.
Proof.
  revert store. induction l as [|r l IH]; intros store; cbn [fold_left].
  - case_decide as H; [|reflexivity]. now apply elem_of_nil in H.
  - rewrite IH, fmap_cons.
    destruct (decide (k = r.1)) as [->|Hne].
    + rewrite lookup_delete_eq.
      rewrite (decide_True (P := r.1 ∈ r.1 :: l.*1))
        by apply list_elem_of_here.
      now case_decide.
    + rewrite lookup_delete_ne by congruence.
      repeat case_decide; try reflexivity.
      * exfalso. apply H0. now apply list_elem_of_further.
      * exfalso. apply elem_of_cons in H0 as [?|?]; contradiction.
Qed.

Lemma deleteAll_size (l : list (string * CompressionHistoryEntry))
    (store : gmap string CompressionHistoryEntry) :
  NoDup l.*1 -> (forall k, k ∈ l.*1 -> is_Some (store !! k)) ->
  size (fold_left (fun s record => delete (fst record) s) l store)
  = (size store - length l)%nat.
Proof.
  revert store. induction l as [|r l IH]; intros store; cbn [fold_left length].
  - intros _ _. lia.
  - rewrite fmap_cons, NoDup_cons. intros [Hr Hl] Hin.
    rewrite IH; [|assumption|].
    + rewrite map_size_delete_Some by (apply Hin, list_elem_of_here). lia.
    + intros k Hk. rewrite lookup_delete_ne.
      * apply Hin. now apply list_elem_of_further.
      * intros Heq. rewrite <- Heq in Hk. contradiction.
Qed.

Lemma take_keys_NoDup (n : nat) (store : gmap string CompressionHistoryEntry) :
  NoDup (take n (timestampIndex store)).*1.
Proof.
  pose proof (timestampIndex_keys_NoDup store) as H.
  rewrite <- (take_drop n (timestampIndex store)), fmap_app in H.
  now apply NoDup_app in H as [H _].
Qed.

Lemma evictOldest_size (n : nat) (store : gmap string CompressionHistoryEntry) :
  (n <= size store)%nat -> size (evictOldest n store) = (size store - n)%nat.
Proof.
  intros Hn. unfold evictOldest. rewrite deleteAll_size.
  - rewrite length_take_le; [reflexivity|]. now rewrite timestampIndex_length.
  - apply take_keys_NoDup.
  - intros k Hk. apply list_elem_of_fmap in Hk as ([k' e] & -> & Hin).
    apply subseteq_take in Hin.
    rewrite elem_of_timestampIndex in Hin. eauto.
Qed.

(** The records a cursor reaches first are the oldest of the store. *)
Lemma take_oldest (n : nat) (store : gmap string CompressionHistoryEntry)
    (k k' : string) (e e' : CompressionHistoryEntry) :
  (k, e) ∈ take n (timestampIndex store) ->
  store !! k' = Some e' -> k' ∉ (take n (timestampIndex store)).*1 ->
  (timestamp e <= timestamp e')%Z.
Proof.
  intros Hin Hk' Hout.
  pose proof (timestampIndex_sorted store) as Hs.
  rewrite <- (take_drop n (timestampIndex store)) in Hs.
  apply (StronglySorted_app_1_elem_of _ _ _ (k, e) (k', e') Hs);
    [assumption|].
  apply elem_of_timestampIndex in Hk'.
  rewrite <- (take_drop n (timestampIndex store)) in Hk'.
  apply elem_of_app in Hk' as [Hk'|Hk']; [|assumption].
  exfalso. apply Hout. now apply (list_elem_of_fmap_2 fst) in Hk'.
Qed.

Lemma evictOldest_lookup (n : nat) (store : gmap string CompressionHistoryEntry)
    (k : string) :
  evictOldest n store !! k
  = if decide (k ∈ (take n (timestampIndex store)).*1) then None
    else store !! k.
Proof. apply deleteAll_lookup. Qed.

Lemma addHistoryEntry_new_id (entry : CompressionHistoryEntry)
    (store : gmap string CompressionHistoryEntry) :
  (MAX_HISTORY_ENTRIES <= size store)%nat -> store !! id entry = None ->
  addHistoryEntry entry store
  = (<[id entry := entry]>
       (evictOldest (size store - MAX_HISTORY_ENTRIES + 1) store),
     Resolved true).
Proof.
  intros Hfull Hnew. unfold addHistoryEntry.
  destruct (Nat.leb_spec MAX_HISTORY_ENTRIES (size store)) as [_|?]; [|lia].
  rewrite evictOldest_lookup, Hnew. now case_decide.
Qed.

Lemma addHistoryEntry_size (entry : CompressionHistoryEntry)
    (store : gmap string CompressionHistoryEntry) :
  (size store <= MAX_HISTORY_ENTRIES)%nat ->
  (size (fst (addHistoryEntry entry store)) <= MAX_HISTORY_ENTRIES)%nat.
Proof.
  intros Hsize. unfold addHistoryEntry.
  destruct (Nat.leb_spec MAX_HISTORY_ENTRIES (size store)) as [Hfull|Hfree].
  - destruct (evictOldest _ store !! id entry) eqn:E; cbn [fst];
      [assumption|].
    rewrite map_size_insert_None by assumption.
    unfold MAX_HISTORY_ENTRIES in *. rewrite evictOldest_size by lia. lia.
  - destruct (store !! id entry) eqn:E; cbn [fst]; [assumption|].
    rewrite map_size_insert_None by assumption. lia.
Qed.

Lemma addAll_size (entries : list CompressionHistoryEntry) :
  forall store : gmap string CompressionHistoryEntry,
  (size store <= MAX_HISTORY_ENTRIES)%nat ->
  (size (addAll entries store) <= MAX_HISTORY_ENTRIES)%nat.
Proof.
  induction entries as [|entry entries IH]; intros store Hsize;
    [assumption|].
  unfold addAll. cbn [fold_left]. apply IH.
  now apply addHistoryEntry_size.
Qed.

(** An entry whose id the store holds, and keeps after the eviction, is
    refused: the promise rejects and the store is left as it was. *)
Lemma addHistoryEntry_refused (entry : CompressionHistoryEntry)
    (store : gmap string CompressionHistoryEntry) :
  is_Some (store !! id entry) ->
  id entry ∉ (take (size store - MAX_HISTORY_ENTRIES + 1)
                   (timestampIndex store)).*1 ->
  addHistoryEntry entry store = (store, Rejected "Failed to add history entry").
Proof.
  intros [e He] Hkept. unfold addHistoryEntry.
  destruct (MAX_HISTORY_ENTRIES <=? size store).
  - rewrite evictOldest_lookup, decide_False, He by assumption. reflexivity.
  - now rewrite He.
Qed.

(** The oldest entry of the full store, added once more, is evicted and
    inserted again: it is present after the call. *)
Lemma addHistoryEntry_oldest_again :
  addHistoryEntry (Examples.historyEntry 0) Examples.fullStore
  = (Examples.fullStore, Resolved true).
Proof.
  unfold addHistoryEntry.
  assert (Hfull : (MAX_HISTORY_ENTRIES <=? size Examples.fullStore) = true)
    by (vm_compute; reflexivity).
  rewrite Hfull.
  assert (Hsize : size Examples.fullStore = 100%nat)
    by (vm_compute; reflexivity).
  assert (Hindex : take 1 (timestampIndex Examples.fullStore)
                   = [("entry-0", Examples.historyEntry 0)])
    by (vm_compute; reflexivity).
  assert (Hold : Examples.fullStore !! "entry-0"
                 = Some (Examples.historyEntry 0))
    by (vm_compute; reflexivity).
  rewrite Hsize. unfold MAX_HISTORY_ENTRIES, evictOldest.
  change (100 - 100 + 1)%nat with 1%nat. rewrite Hindex.
  cbn [fold_left fst]. change (id (Examples.historyEntry 0)) with "entry-0".
  rewrite lookup_delete_eq, insert_delete_eq.
  now rewrite insert_id.
Qed.

(** C2, as stated, fails: an entry added to the full store under an id the
    store already holds is refused; the store is left as it was, with its
    oldest entry and without the new one. *)
Lemma addHistoryEntry_repeated_id :
  ~ (forall (entries : list CompressionHistoryEntry)
            (entry : CompressionHistoryEntry),
        let store := addAll entries ∅ in
        (MAX_HISTORY_ENTRIES <= size store)%nat ->
        let store' := fst (addHistoryEntry entry store) in
        size store' = MAX_HISTORY_ENTRIES
        /\ store' !! id entry = Some entry
        /\ (forall k e, head (timestampIndex store) = Some (k, e) ->
              store' !! k = None)).
Proof.
  intros H.
  destruct (H (Examples.historyEntry <$> seq 0 100) Examples.repeatedEntry)
    as (_ & Hnew & _).
  - apply Nat.leb_le. vm_compute. reflexivity.
  - vm_compute in Hnew. discriminate Hnew.
Qed.

(** C2, amended. After any sequence of [addHistoryEntry] calls from the empty
    store, the store holds at most 100 entries.  When an entry whose id is
    not in the store is added at a count of 100 or more, the call resolves to
    true; the first (count - 100 + 1) records in ascending order of timestamp
    are evicted, none of them more recent than an entry that stays; every
    other entry is kept; and after the insert the count is exactly 100, the
    evicted entries are absent and the new entry is present. *)
Theorem addHistoryEntry_limit :
  (forall entries : list CompressionHistoryEntry,
      (size (addAll entries ∅) <= MAX_HISTORY_ENTRIES)%nat)
  /\ (forall (store : gmap string CompressionHistoryEntry)
             (entry : CompressionHistoryEntry),
        (MAX_HISTORY_ENTRIES <= size store)%nat ->
        store !! id entry = None ->
        let evicted :=
          take (size store - MAX_HISTORY_ENTRIES + 1) (timestampIndex store) in
        let result := addHistoryEntry entry store in
        snd result = Resolved true
        /\ length evicted = (size store - MAX_HISTORY_ENTRIES + 1)%nat
        /\ size (fst result) = MAX_HISTORY_ENTRIES
        /\ fst result !! id entry = Some entry
        /\ (forall k e, (k, e) ∈ evicted ->
              store !! k = Some e /\ fst result !! k = None)
        /\ (forall k, k <> id entry -> k ∉ evicted.*1 ->
              fst result !! k = store !! k)
        /\ (forall k e k' e',
              (k, e) ∈ evicted -> store !! k' = Some e' ->
              k' ∉ evicted.*1 ->
              (timestamp e <= timestamp e')%Z)).
Proof.
  split.
  - intros entries. apply addAll_size. rewrite map_size_empty. lia.
  - intros store entry Hfull Hnew evicted result. subst result.
    rewrite addHistoryEntry_new_id by assumption. cbn [fst snd].
    assert (Hpresent : forall k e, (k, e) ∈ evicted -> store !! k = Some e).
    { intros k e Hin. apply subseteq_take in Hin.
      now apply elem_of_timestampIndex. }
    split; [reflexivity|]. split; [|split; [|split; [|split; [|split]]]].
    + subst evicted. apply length_take_le.
      rewrite timestampIndex_length. unfold MAX_HISTORY_ENTRIES in *. lia.
    + rewrite map_size_insert_None.
      * rewrite evictOldest_size; unfold MAX_HISTORY_ENTRIES in *; lia.
      * rewrite evictOldest_lookup, Hnew. now case_decide.
    + apply lookup_insert_eq.
    + intros k e Hin. split; [now apply Hpresent|].
      rewrite lookup_insert_ne.
      * rewrite evictOldest_lookup. rewrite decide_True; [reflexivity|].
        now apply (list_elem_of_fmap_2 fst) in Hin.
      * intros Heq. apply Hpresent in Hin. rewrite <- Heq in Hin. congruence.
    + intros k Hk Hout. rewrite lookup_insert_ne by congruence.
      rewrite evictOldest_lookup. now rewrite decide_False.
    + intros k e k' e' Hin Hk' Hout.
      exact (take_oldest _ store k k' e e' Hin Hk' Hout).
Qed.

(** C8, as stated, fails: two entries saved in the same millisecond are
    listed one after the other, which is not a strict descent. *)
Lemma getHistoryEntries_equal_timestamps :
  ~ (forall store : gmap string CompressionHistoryEntry,
        StronglySorted strictlyNewer (getHistoryEntries store)).
Proof.
  intros H. specialize (H Examples.sameMillisecond).
  assert (E : timestamp <$> getHistoryEntries Examples.sameMillisecond
              = [5%Z; 5%Z]) by (vm_compute; reflexivity).
  destruct (getHistoryEntries Examples.sameMillisecond) as [|a [|b l]];
    try discriminate E.
  injection E as Ha Hb _.
  apply StronglySorted_inv in H as [_ H].
  apply Forall_inv in H. unfold strictlyNewer in H. lia.
Qed.

(** C8, amended. [getHistoryEntries] returns all the entries of the store,
    each once, newest first: in descending timestamp order where entries of
    equal timestamp follow one another, and in strictly descending order
    when no two entries of the store share a timestamp. *)
Theorem getHistoryEntries_newest_first
    (store : gmap string CompressionHistoryEntry) :
  (forall e, e ∈ getHistoryEntries store <-> exists k, store !! k = Some e)
  /\ length (getHistoryEntries store) = size store
  /\ StronglySorted newestFirst (getHistoryEntries store)
  /\ ((forall k1 k2 e1 e2,
         store !! k1 = Some e1 -> store !! k2 = Some e2 ->
         timestamp e1 = timestamp e2 -> k1 = k2) ->
      StronglySorted strictlyNewer (getHistoryEntries store)).
Proof.
  split; [|split; [|split]].
  - apply elem_of_getHistoryEntries.
  - apply getHistoryEntries_length.
  - apply getHistoryEntries_sorted.
  - intros Hdistinct. apply strictly_sorted.
    + apply getHistoryEntries_sorted.
    + now apply getHistoryEntries_timestamps_NoDup.
Qed.

(** [addHistoryEntry_limit] on the store filled with [entry-0] to [entry-99]
    and an entry under a new id: [entry-0] is evicted. *)
Lemma addHistoryEntry_limit_witness :
  (MAX_HISTORY_ENTRIES <= size Examples.fullStore)%nat
  /\ Examples.fullStore !! id Examples.newEntry = None
  /\ size (fst (addHistoryEntry Examples.newEntry Examples.fullStore))
     = MAX_HISTORY_ENTRIES
  /\ fst (addHistoryEntry Examples.newEntry Examples.fullStore)
       !! id Examples.newEntry = Some Examples.newEntry
  /\ fst (addHistoryEntry Examples.newEntry Examples.fullStore) !! "entry-0"
     = None.
Proof.
  assert (Hfull : (MAX_HISTORY_ENTRIES <= size Examples.fullStore)%nat).
  { apply Nat.leb_le. vm_compute. reflexivity. }
  assert (Hnew : Examples.fullStore !! id Examples.newEntry = None).
  { vm_compute. reflexivity. }
  destruct (proj2 addHistoryEntry_limit Examples.fullStore Examples.newEntry
              Hfull Hnew)
    as (_ & _ & Hsize & Hpresent & Hevicted & _).
  assert (Holdest :
    ("entry-0", Examples.historyEntry 0)
    ∈ take (size Examples.fullStore - MAX_HISTORY_ENTRIES + 1)
           (timestampIndex Examples.fullStore)).
  { vm_compute. apply list_elem_of_here. }
  exact (conj Hfull (conj Hnew (conj Hsize (conj Hpresent
           (proj2 (Hevicted _ _ Holdest)))))).
Defined.

(** [getHistoryEntries_newest_first] on a store of two entries saved at
    different times. *)
Lemma getHistoryEntries_newest_first_witness :
  (forall k1 k2 e1 e2,
      Examples.twoEntries !! k1 = Some e1 ->
      Examples.twoEntries !! k2 = Some e2 ->
      timestamp e1 = timestamp e2 -> k1 = k2)
  /\ StronglySorted strictlyNewer (getHistoryEntries Examples.twoEntries).
Proof.
  assert (Hdistinct : forall k1 k2 e1 e2,
    Examples.twoEntries !! k1 = Some e1 ->
    Examples.twoEntries !! k2 = Some e2 ->
    timestamp e1 = timestamp e2 -> k1 = k2).
  { intros k1 k2 e1 e2 H1 H2 Ht.
    apply elem_of_map_to_list in H1, H2.
    set (l := map_to_list Examples.twoEntries) in H1, H2.
    vm_compute in l. subst l.
    rewrite !elem_of_cons, elem_of_nil in H1, H2.
    destruct H1 as [H1|[H1|[]]], H2 as [H2|[H2|[]]];
      injection H1 as -> ->; injection H2 as -> ->;
      first [reflexivity | discriminate Ht]. }
  destruct (getHistoryEntries_newest_first Examples.twoEntries)
    as (_ & _ & _ & Hstrict).
  exact (conj Hdistinct (Hstrict Hdistinct)).
Defined.

End History.

(** ** The batch scheduler *)
Section Batch.
Import BatchProcessing.

Lemma overallProgress_overall (s : State) :
  overallProgress s = Spec.overall (Spec.progressValues s) (totalCount s).
Proof.
  unfold overallProgress, Spec.overall, Spec.progressValues, Spec.total.
  destruct (totalCount s =? 0)%nat; [reflexivity|].
  rewrite map_fold_foldr. do 2 f_equal.
  induction (map_to_list (individualProgress s)) as [|[k item] l IH];
    [reflexivity|].
  cbn [foldr fmap list_fmap uncurry snd]. now rewrite IH.
Qed.

(** The events that leave [totalCount] as it is. *)
Lemma processNextInQueue_totalCount (now : Z) (s : State) :
  totalCount (processNextInQueue now s) = totalCount s.
Proof.
  unfold processNextInQueue.
  destruct (aborted s); [reflexivity|].
  destruct (getAvailableWorker (workerPool s)); [|reflexivity].
  destruct (pendingQueue s) as [|[imageId' f] rest]; [reflexivity|].
  cbn [optionsRef setPendingQueue].
  now destruct (optionsRef s).
Qed.

Lemma checkCompletion_totalCount (s : State) :
  totalCount (checkCompletion s) = totalCount s.
Proof. unfold checkCompletion. now destruct (_ && _). Qed.

Lemma handleMessage_totalCount (now : Z) (w : nat) (imageId' : string)
    (response : WorkerResponse) (s : State) :
  totalCount (fst (handleMessage now w imageId' response s)) = totalCount s.
Proof.
  unfold handleMessage.
  destruct (aborted s); [reflexivity|].
  destruct response as [[p|]|[result|]|workerError]; cbn [fst];
    rewrite ?checkCompletion_totalCount, ?processNextInQueue_totalCount;
    reflexivity.
Qed.

Lemma fileRead_totalCount (now : Z) (w : nat) (imageId' : string)
    (rejection : option string) (s : State) :
  totalCount (fileRead now w imageId' rejection s) = totalCount s.
Proof.
  unfold fileRead. destruct rejection.
  - now rewrite checkCompletion_totalCount, processNextInQueue_totalCount.
  - now destruct (aborted s).
Qed.

Lemma processBatch_totalCount (now : Z) (imageIds : list string)
    (options : Types.CompressionOptions) (s : State) :
  imageIds <> [] ->
  totalCount (fst (processBatch now imageIds options s)) = length imageIds.
Proof.
  intros Hne. unfold processBatch.
  destruct imageIds as [|i imageIds]; [contradiction|].
  cbn [length Nat.eqb].
  match goal with
  | |- context [fold_left ?f ?l ?a] =>
      assert (H : totalCount (fst (fold_left f l a)) = S (length imageIds))
  end.
  { match goal with
    | |- totalCount (fst (fold_left ?f ?l (?st, ?q))) = _ =>
        assert (Hst : totalCount st = S (length imageIds)) by reflexivity;
        generalize dependent st; generalize q
    end.
    generalize (i :: imageIds) as ids.
    induction ids as [|j ids IH]; intros q st Hst; [assumption|].
    cbn [fold_left]. unfold enqueueImage at 2.
    destruct (List.find _ (images st)) as [image|]; [|now apply IH].
    destruct (ImageStore.status image); now apply IH. }
  destruct (fold_left _ _ _) as [s' queueItems]. cbn [fst] in *.
  unfold Types.MAX_CONCURRENT_PROCESSING. cbn [Nat.iter nat_rect].
  now rewrite !processNextInQueue_totalCount.
Qed.

Lemma cancel_totalCount (s : State) : totalCount (cancel s) = totalCount s.
Proof. reflexivity. Qed.

Lemma step_totalCount (now : Z) (s : State) (e : Event) :
  Spec.sameBatch e -> totalCount (step now s e) = totalCount s.
Proof.
  destruct e as [[|i imageIds] options| |w response|w imageId' rejection];
    cbn [Spec.sameBatch step]; intros He; try contradiction.
  - reflexivity.
  - apply cancel_totalCount.
  - destruct (workerPool s !! w) as [[b c [imageId'|]]|]; [|reflexivity..].
    apply handleMessage_totalCount.
  - apply fileRead_totalCount.
Qed.

Lemma run_totalCount (events : list (Z * Event)) :
  forall s : State,
  Forall (fun e => Spec.sameBatch (snd e)) events ->
  totalCount (run events s) = totalCount s.
Proof.
  induction events as [|[now e] events IH]; intros s Hev; [reflexivity|].
  apply Forall_cons in Hev as [He Hev].
  unfold run in *. cbn [fold_left]. rewrite IH by assumption.
  now apply step_totalCount.
Qed.

(** C7, as stated, fails: a batch declared with no image is ignored, so the
    overall progress stays that of the batch before, here 25 of a batch of
    two, and is not the value for a batch size of 0. *)
Lemma overallProgress_empty_batch :
  ~ (forall now imageIds options (s : State),
        let s' := fst (processBatch now imageIds options s) in
        overallProgress s'
        = Spec.overall (Spec.progressValues s') (length imageIds)).
Proof.
  intros H.
  specialize (H 9%Z [] Examples.fullHD Examples.halfway).
  vm_compute in H. discriminate H.
Qed.

(** C7. The overall progress is computed from the per-item progress values
    and the batch size alone: it is round(sum of the values / totalCount),
    and 0 when totalCount is 0, as it is before the first batch.
    [processBatch] on imageIds that are not empty sets totalCount to their
    length, whether or not every image is queued, and no later message,
    file read, cancellation or empty batch changes it.  [processBatch] on
    no imageIds leaves the batch size and the overall progress as they
    are. *)
Theorem overallProgress_recomputed :
  (forall s : State,
      overallProgress s
      = Spec.overall (Spec.progressValues s) (totalCount s))
  /\ (forall s : State, totalCount s = 0%nat -> overallProgress s = JS.ofZ 0)
  /\ (forall images' : list ImageStore.ImageFile,
        overallProgress (initialState images') = JS.ofZ 0)
  /\ (forall now imageIds options (s : State) events,
        imageIds <> [] ->
        Forall (fun e => Spec.sameBatch (snd e)) events ->
        let s' := run events (fst (processBatch now imageIds options s)) in
        totalCount s' = length imageIds
        /\ overallProgress s'
           = JS.round (JS.div (Spec.total (Spec.progressValues s'))
                              (JS.ofZ (Z.of_nat (length imageIds)))))
  /\ (forall now options (s : State),
        let s' := fst (processBatch now [] options s) in
        totalCount s' = totalCount s
        /\ Spec.progressValues s' = Spec.progressValues s
        /\ overallProgress s' = overallProgress s).
Proof.
  split; [|split; [|split; [|split]]].
  - apply overallProgress_overall.
  - intros s H. unfold overallProgress. now rewrite H.
  - reflexivity.
  - intros now imageIds options s events Hne Hev s'.
    assert (Hcount : totalCount s' = length imageIds).
    { subst s'. rewrite run_totalCount by assumption.
      now apply processBatch_totalCount. }
    split; [assumption|].
    rewrite overallProgress_overall, Hcount. unfold Spec.overall.
    destruct imageIds; [contradiction|reflexivity].
  - intros now options s. cbn. repeat split.
Qed.

(** *** Failures *)



Lemma checkCompletion_individualProgress (s : State) :
  individualProgress (checkCompletion s) = individualProgress s.
Proof. unfold checkCompletion. now destruct (_ && _). Qed.






(** [overallProgress_recomputed] on the batch of two images of which one is
    queued, after a progress message of 50: the overall progress is 25. *)
Lemma overallProgress_recomputed_witness :
  ["a"; "b"] <> []
  /\ totalCount Examples.halfway = 2%nat
  /\ overallProgress Examples.halfway = JS.ofZ 25.
Proof.
  assert (Hne : ["a"; "b"] <> []) by discriminate.
  assert (Hev : Forall (fun e => Spec.sameBatch (snd e))
                  [(5%Z, WorkerMessage 0
                           (ProgressMessage (Some (JS.ofZ 50))))]).
  { repeat constructor. }
  destruct (proj1 (proj2 (proj2 (proj2 overallProgress_recomputed)))
              0%Z ["a"; "b"] Examples.fullHD
              (initialState Examples.twoImages) _ Hne Hev)
    as [Hcount Hoverall].
  split; [exact Hne|]. split; [exact Hcount|].
  etransitivity; [exact Hoverall|]. vm_compute. reflexivity.
Defined.


End Batch.

(** ** More on the processing store *)
Section StoreOperations.
Import ProcessingStore Spec.

Lemma find_startAll (now : Z) (id' : string) (q : list ProcessingQueueItem) :
  List.find (fun item => String.eqb (id item) id') (startAll now id' q)
  = started now <$> List.find (fun item => String.eqb (id item) id') q.
Proof.
  induction q as [|x q IH]; [reflexivity|].
  rewrite startAll_cons. cbn [List.find].
  destruct (String.eqb (id x) id') eqn:E.
  - cbn [List.find started id]. now rewrite E.
  - cbn [List.find]. now rewrite E.
Qed.

(** X1. An item is started once: after [startProcessing] returned true for an
    id, a further call for that id returns false and changes nothing, whatever
    the queue holds. *)
Theorem startProcessing_once (now now' : Z) (id' : string)
    (state : ProcessingStoreState) :
  snd (startProcessing now id' state) = true ->
  startProcessing now' id' (fst (startProcessing now id' state))
  = (fst (startProcessing now id' state), false).
Proof.
  intros Ht.
  destruct (startProcessing_true _ _ _ Ht) as (Hst & _ & item & Hfind & _).
  apply startProcessing_false.
  rewrite startProcessing_unfold, Hst. cbn [queue].
  destruct (_ <=? _); [reflexivity|].
  rewrite find_startAll, Hfind. reflexivity.
Qed.

Lemma startProcessing_once_witness :
  snd (startProcessing 7 "a" Examples.twoQueued) = true
  /\ startProcessing 9 "a" (fst (startProcessing 7 "a" Examples.twoQueued))
     = (fst (startProcessing 7 "a" Examples.twoQueued), false).
Proof.
  assert (H : snd (startProcessing 7 "a" Examples.twoQueued) = true)
    by reflexivity.
  exact (conj H (startProcessing_once 7 9 "a" Examples.twoQueued H)).
Defined.

(** What [queue.map] gives when a single item carries the id. *)
Lemma map_single (f : ProcessingQueueItem -> ProcessingQueueItem)
    (id' : string) (q : list ProcessingQueueItem) (item : ProcessingQueueItem) :
  NoDup (map id q) -> In item q -> id item = id' ->
  exists before after,
    q = before ++ item :: after
    /\ map (fun x => if String.eqb (id x) id' then f x else x) q
       = before ++ f item :: after.
Proof.
  induction q as [|x q IH]; [contradiction|].
  cbn [map In]. rewrite NoDup_cons. intros [Hx Hq] [->|Hin] Hid.
  - exists [], q. split; [reflexivity|]. cbn [app].
    rewrite Hid, String.eqb_refl. f_equal.
    rewrite <- (List.map_id q) at 2. apply List.map_ext_in.
    intros y Hy.
    destruct (String.eqb_spec (id y) id') as [Heq|]; [|reflexivity].
    exfalso. apply Hx. rewrite Hid, <- Heq.
    apply list_elem_of_In. now apply in_map.
  - destruct (IH Hq Hin Hid) as (before & after & -> & Hmap).
    exists (x :: before), after. split; [reflexivity|].
    cbn [app]. rewrite Hmap.
    destruct (String.eqb_spec (id x) id') as [Heq|]; [|reflexivity].
    exfalso. apply Hx. rewrite Heq, <- Hid.
    apply list_elem_of_In. apply in_map. apply in_or_app. right. now left.
Qed.

(** X2. Completing frees a slot: in a queue of distinct ids, an update that
    takes a processing item to another status, without renaming it, lowers the
    number of processing items by exactly one. *)
Theorem updateQueueItem_frees_slot (id' : string) (updates : PartialItem)
    (state : ProcessingStoreState) (item : ProcessingQueueItem) (s : Status) :
  NoDup (map id (queue state)) ->
  In item (queue state) -> id item = id' -> status item = processing ->
  p_id updates = None -> p_status updates = Some s -> s <> processing ->
  S (getProcessingCount (updateQueueItem id' updates state))
  = getProcessingCount state.
Proof.
  intros Hids Hin Hid Hbusy Hname Hstatus Hs.
  destruct (map_single (fun x => spread x updates) id' _ item Hids Hin Hid)
    as (before & after & Hq & Hmap).
  unfold getProcessingCount, updateQueueItem. cbn [queue].
  fold isBusy. fold (busyCount (queue state)).
  match goal with
  | |- S (length (List.filter isBusy ?q)) = _ => fold (busyCount q)
  end.
  rewrite Hmap, Hq, !busyCount_app.
  change (spread item updates :: after) with ([spread item updates] ++ after).
  change (item :: after) with ([item] ++ after).
  rewrite !busyCount_app.
  assert (H1 : busyCount [spread item updates] = 0%nat).
  { unfold busyCount, isBusy, spread. cbn [List.filter status].
    rewrite Hstatus. cbn [default]. unfold Datatypes.id.
    destruct s; [reflexivity|contradiction|reflexivity..]. }
  assert (H2 : busyCount [item] = 1%nat).
  { unfold busyCount, isBusy. cbn [List.filter]. now rewrite Hbusy. }
  rewrite H1, H2. lia.
Qed.

Lemma updateQueueItem_frees_slot_witness :
  S (getProcessingCount
       (updateQueueItem "a" (Examples.completion 9)
          (fst (startProcessing 7 "a" Examples.twoQueued))))
  = getProcessingCount (fst (startProcessing 7 "a" Examples.twoQueued)).
Proof.
  apply (updateQueueItem_frees_slot "a" (Examples.completion 9)
           (fst (startProcessing 7 "a" Examples.twoQueued))
           (started 7 (Examples.queuedItem "a")) complete).
  - apply (bool_decide_unpack _). vm_compute. exact I.
  - left. reflexivity.
  - reflexivity.
  - reflexivity.
  - reflexivity.
  - reflexivity.
  - discriminate.
Defined.

(** X3. [updateQueueItem] keeps the length and the order of the queue and
    touches only the items carrying the id; for an id no item carries it
    changes nothing; and an update that does not rename keeps every id. *)
Theorem updateQueueItem_others (id' : string) (updates : PartialItem)
    (state : ProcessingStoreState) :
  length (queue (updateQueueItem id' updates state)) = length (queue state)
  /\ (forall i item,
        queue state !! i = Some item -> id item <> id' ->
        queue (updateQueueItem id' updates state) !! i = Some item)
  /\ (forall i item,
        queue state !! i = Some item -> id item = id' ->
        queue (updateQueueItem id' updates state) !! i
        = Some (spread item updates))
  /\ (id' ∉ map id (queue state) -> updateQueueItem id' updates state = state)
  /\ (p_id updates = None ->
      map id (queue (updateQueueItem id' updates state))
      = map id (queue state)).
Proof.
  unfold updateQueueItem. cbn [queue].
  split; [apply List.length_map|].
  split; [|split; [|split]].
  - intros i item Hi Hne.
    change (map ?f ?l) with (f <$> l). rewrite list_lookup_fmap, Hi.
    cbn. destruct (String.eqb_spec (id item) id'); [contradiction|reflexivity].
  - intros i item Hi Heq.
    change (map ?f ?l) with (f <$> l). rewrite list_lookup_fmap, Hi.
    cbn. now rewrite Heq, String.eqb_refl.
  - intros Hout. destruct state as [q b]. cbn [queue isProcessing] in *.
    f_equal. rewrite <- (List.map_id q) at 2. apply List.map_ext_in.
    intros x Hx.
    destruct (String.eqb_spec (id x) id') as [Heq|]; [|reflexivity].
    exfalso. apply Hout. rewrite <- Heq.
    apply list_elem_of_In. now apply in_map.
  - intros Hname. rewrite List.map_map. apply List.map_ext.
    intros x. destruct (String.eqb (id x) id'); [|reflexivity].
    unfold spread. cbn [id]. now rewrite Hname.
Qed.

Lemma updateQueueItem_others_witness :
  ("z" ∉ map id (queue Examples.twoQueued))
  /\ updateQueueItem "z" (Examples.completion 9) Examples.twoQueued
     = Examples.twoQueued
  /\ map id (queue (updateQueueItem "a" (Examples.completion 9)
                      Examples.twoQueued))
     = map id (queue Examples.twoQueued).
Proof.
  assert (Hout : "z" ∉ map id (queue Examples.twoQueued)).
  { apply (bool_decide_unpack _). vm_compute. exact I. }
  split; [exact Hout|]. split.
  - exact (proj1 (proj2 (proj2 (proj2
             (updateQueueItem_others "z" (Examples.completion 9)
                Examples.twoQueued)))) Hout).
  - exact (proj2 (proj2 (proj2 (proj2
             (updateQueueItem_others "a" (Examples.completion 9)
                Examples.twoQueued)))) eq_refl).
Defined.

Lemma filter_sublist (p : ProcessingQueueItem -> bool)
    (q : list ProcessingQueueItem) :
  List.filter p q `sublist_of` q.
Proof.
  induction q as [|x q IH]; [constructor|].
  cbn [List.filter].
  destruct (p x); [apply sublist_skip|apply sublist_cons]; exact IH.
Qed.

Lemma filter_twice (p : ProcessingQueueItem -> bool)
    (q : list ProcessingQueueItem) :
  List.filter p (List.filter p q) = List.filter p q.
Proof.
  induction q as [|x q IH]; [reflexivity|].
  cbn [List.filter]. destruct (p x) eqn:E; [|exact IH].
  cbn [List.filter]. now rewrite E, IH.
Qed.

Lemma filter_absent (id' : string) (q : list ProcessingQueueItem) :
  id' ∉ map id q ->
  List.filter (fun item => negb (String.eqb (id item) id')) q = q.
Proof.
  induction q as [|x q IH]; [reflexivity|].
  cbn [map]. rewrite not_elem_of_cons. intros [Hx Hq].
  cbn [List.filter].
  destruct (String.eqb_spec (id x) id'); [congruence|].
  cbn [negb]. now rewrite IH.
Qed.

(** X4. [removeFromQueue] removes every item carrying the id and keeps the
    others in their order; for an id no item carries the queue is unchanged;
    the flag [isProcessing] then tells whether a queued or processing item is
    left; removing twice is removing once. *)
Theorem removeFromQueue_removes (id' : string) (state : ProcessingStoreState) :
  (forall item,
      In item (queue (removeFromQueue id' state))
      <-> In item (queue state) /\ id item <> id')
  /\ queue (removeFromQueue id' state) `sublist_of` queue state
  /\ (id' ∉ map id (queue state) ->
      queue (removeFromQueue id' state) = queue state)
  /\ (isProcessing (removeFromQueue id' state) = true
      <-> exists item,
            In item (queue state) /\ id item <> id'
            /\ (status item = queued \/ status item = processing))
  /\ (getProcessingCount (removeFromQueue id' state)
      <= getProcessingCount state)%nat
  /\ removeFromQueue id' (removeFromQueue id' state)
     = removeFromQueue id' state.
Proof.
  assert (Hin : forall item,
    In item (queue (removeFromQueue id' state))
    <-> In item (queue state) /\ id item <> id').
  { intros item. unfold removeFromQueue. cbn [queue].
    rewrite List.filter_In. split; intros [H1 H2]; split; try assumption.
    - intros Heq. rewrite Heq, String.eqb_refl in H2. discriminate.
    - now destruct (String.eqb_spec (id item) id'). }
  split; [exact Hin|]. split; [|split; [|split; [|split]]].
  - apply filter_sublist.
  - apply filter_absent.
  - unfold removeFromQueue at 1. cbn [isProcessing].
    rewrite existsb_exists. split.
    + intros (item & Hitem & Hactive).
      change (In item (queue (removeFromQueue id' state))) in Hitem.
      apply Hin in Hitem as [Hitem Hne].
      exists item. repeat split; try assumption.
      apply orb_true_iff in Hactive.
      now rewrite !Status_eqb_eq in Hactive.
    + intros (item & Hitem & Hne & Hactive).
      exists item. split.
      * change (In item (queue (removeFromQueue id' state))).
        apply Hin. now split.
      * apply orb_true_iff. now rewrite !Status_eqb_eq.
  - unfold getProcessingCount, removeFromQueue. cbn [queue].
    apply busyCount_filter_le.
  - unfold removeFromQueue. cbn [queue]. now rewrite filter_twice.
Qed.

Lemma removeFromQueue_removes_witness :
  ("z" ∉ map id (queue Examples.twoQueued))
  /\ queue (removeFromQueue "z" Examples.twoQueued)
     = queue Examples.twoQueued.
Proof.
  assert (Hout : "z" ∉ map id (queue Examples.twoQueued)).
  { apply (bool_decide_unpack _). vm_compute. exact I. }
  split; [exact Hout|].
  exact (proj1 (proj2 (proj2
           (removeFromQueue_removes "z" Examples.twoQueued))) Hout).
Defined.

End StoreOperations.

(** ** The indicator, file names and resizing of the helpers *)
Section Helpers.
#[local] Open Scope Q_scope.
Import FileHelpers Spec.

(** *** The compression indicator *)

Lemma indicator_Fin (r : Q) :
  getCompressionIndicator (JS.Fin r)
  = if JS.Qltb 60 r then green
    else if Qle_bool 30 r then yellow else orange.
Proof. reflexivity. Qed.

Lemma Qle_bool_ext (a b c d : Q) :
  a == c -> b == d -> Qle_bool a b = Qle_bool c d.
Proof. intros Hac Hbd. now rewrite Hac, Hbd. Qed.

(** The indicator of a clamped ratio is the indicator of the ratio. *)
Lemma indicator_clamp (r : Q) :
  getCompressionIndicator (Spec.clamp (JS.Fin r) (JS.ofZ 0) (JS.ofZ 100))
  = getCompressionIndicator (JS.Fin r).
Proof.
  unfold Spec.clamp, JS.ofZ. rewrite min_Fin.
  change (inject_Z 100) with 100. change (inject_Z 0) with 0.
  destruct (Qle_bool 100 r) eqn:E1; rewrite max_Fin.
  - apply Qle_bool_iff in E1. cbn [Qle_bool]. rewrite !indicator_Fin.
    replace (JS.Qltb 60 r) with true; [reflexivity|].
    symmetry. apply Qltb_true. lra.
  - apply Qle_bool_false in E1.
    destruct (Qle_bool 0 r) eqn:E2; [reflexivity|].
    apply Qle_bool_false in E2. rewrite !indicator_Fin.
    replace (JS.Qltb 60 r) with false by (symmetry; apply Qltb_false; lra).
    replace (Qle_bool 30 r) with false; [reflexivity|].
    symmetry. destruct (Qle_bool 30 r) eqn:E3; [|reflexivity].
    apply Qle_bool_iff in E3. lra.
Qed.

(** X5. The indicator shown for a result, by its sizes: green when the result
    is smaller than two fifths of the original, orange when it is larger than
    seven tenths of it, yellow in between, both bounds included; orange
    whenever the original size is zero or negative. *)
Theorem indicator_by_sizes (o c : Q) :
  (0 < o -> 5 * c < 2 * o ->
     getCompressionIndicator (calculateCompressionRatio (JS.Fin o) (JS.Fin c))
     = green)
  /\ (0 < o -> 2 * o <= 5 * c -> 10 * c <= 7 * o ->
        getCompressionIndicator
          (calculateCompressionRatio (JS.Fin o) (JS.Fin c)) = yellow)
  /\ (0 < o -> 7 * o < 10 * c ->
        getCompressionIndicator
          (calculateCompressionRatio (JS.Fin o) (JS.Fin c)) = orange)
  /\ (o <= 0 ->
        getCompressionIndicator
          (calculateCompressionRatio (JS.Fin o) (JS.Fin c)) = orange).
Proof.
  assert (Hind : 0 < o ->
    getCompressionIndicator (calculateCompressionRatio (JS.Fin o) (JS.Fin c))
    = getCompressionIndicator (JS.Fin (100 - 100 * (c / o)))).
  { intros Ho.
    rewrite calculateCompressionRatio_positive by assumption.
    rewrite ratio_positive_original, indicator_clamp by assumption.
    rewrite !indicator_Fin.
    assert (E : (o - c) / o * 100 == 100 - 100 * (c / o)) by (field; lra).
    unfold JS.Qltb.
    now rewrite (Qle_bool_ext _ _ _ 60 E (Qeq_refl 60)),
      (Qle_bool_ext 30 _ 30 _ (Qeq_refl 30) E). }
  split; [|split; [|split]].
  - intros Ho H. rewrite Hind, indicator_Fin by assumption.
    replace (JS.Qltb 60 _) with true; [reflexivity|].
    symmetry. apply Qltb_true.
    assert (c / o < (2 # 5)); [|lra].
    apply Qlt_shift_div_r; lra.
  - intros Ho H1 H2. rewrite Hind, indicator_Fin by assumption.
    assert ((2 # 5) <= c / o) by (apply Qle_shift_div_l; lra).
    assert (c / o <= (7 # 10)) by (apply Qle_shift_div_r; lra).
    replace (JS.Qltb 60 _) with false by (symmetry; apply Qltb_false; lra).
    replace (Qle_bool 30 _) with true; [reflexivity|].
    symmetry. apply Qle_bool_iff. lra.
  - intros Ho H. rewrite Hind, indicator_Fin by assumption.
    assert ((7 # 10) < c / o) by (apply Qlt_shift_div_l; lra).
    replace (JS.Qltb 60 _) with false by (symmetry; apply Qltb_false; lra).
    replace (Qle_bool 30 _) with false; [reflexivity|].
    symmetry. destruct (Qle_bool 30 _) eqn:E; [|reflexivity].
    apply Qle_bool_iff in E. lra.
  - intros Ho. now rewrite calculateCompressionRatio_nonpositive.
Qed.

Lemma indicator_by_sizes_witness :
  getCompressionIndicator
    (calculateCompressionRatio (JS.Fin 1000) (JS.Fin 399)) = green
  /\ getCompressionIndicator
       (calculateCompressionRatio (JS.Fin 1000) (JS.Fin 400)) = yellow
  /\ getCompressionIndicator
       (calculateCompressionRatio (JS.Fin 1000) (JS.Fin 700)) = yellow
  /\ getCompressionIndicator
       (calculateCompressionRatio (JS.Fin 1000) (JS.Fin 701)) = orange
  /\ getCompressionIndicator
       (calculateCompressionRatio (JS.Fin 0) (JS.Fin 10)) = orange.
Proof.
  split; [|split; [|split; [|split]]].
  - apply (proj1 (indicator_by_sizes 1000 399)); reflexivity.
  - apply (proj1 (proj2 (indicator_by_sizes 1000 400)));
      try reflexivity; vm_compute; discriminate.
  - apply (proj1 (proj2 (indicator_by_sizes 1000 700)));
      try reflexivity; vm_compute; discriminate.
  - apply (proj1 (proj2 (proj2 (indicator_by_sizes 1000 701)))); reflexivity.
  - apply (proj2 (proj2 (proj2 (indicator_by_sizes 0 10)))).
    vm_compute. discriminate.
Defined.

(** *** File names *)

Lemma lastIndexOf_absent (c : ascii) (s : string) :
  contains c s = false -> lastIndexOf c s = (-1)%Z.
Proof.
  induction s as [|a s IH]; [reflexivity|].
  cbn [contains lastIndexOf]. intros H.
  apply orb_false_iff in H as [Ha Hs]. now rewrite IH, Ha.
Qed.

Lemma append_cons (a : ascii) (s1 s2 : string) :
  String a s1 +:+ s2 = String a (s1 +:+ s2).
Proof. reflexivity. Qed.

Lemma append_empty (s : string) : "" +:+ s = s.
Proof. reflexivity. Qed.

(** The last occurrence in [base.ext], where [ext] is free of the
    character, is right after [base]. *)
Lemma lastIndexOf_last (c : ascii) (base ext : string) :
  contains c ext = false ->
  lastIndexOf c (base +:+ String c ext) = Z.of_nat (String.length base).
Proof.
  intros Hext. induction base as [|a base IH].
  - rewrite append_empty. cbn [lastIndexOf String.length].
    rewrite (lastIndexOf_absent _ _ Hext), Ascii.eqb_refl. reflexivity.
  - rewrite append_cons. cbn [lastIndexOf String.length]. rewrite IH.
    destruct (0 <=? Z.of_nat (String.length base))%Z eqn:E; lia.
Qed.

Lemma substring_prefix (s1 s2 : string) :
  String.substring 0 (String.length s1) (s1 +:+ s2) = s1.
Proof.
  induction s1 as [|a s1 IH].
  - rewrite append_empty. now destruct s2.
  - rewrite append_cons. cbn [String.length String.substring].
    now rewrite IH.
Qed.

Lemma extension_extensionOf (format : Types.OutputFormat) :
  match format with
  | Types.jpeg => "jpg"
  | _ => Types.formatName format
  end = extensionOf format.
Proof. now destruct format. Qed.

(** X6. [generateCompressedFilename] replaces what follows the last dot: for a
    name [base.ext] with [base] not empty and no dot in [ext], the result is
    [base_compressed.] followed by the extension of the format, jpg for jpeg.
    A name with no dot past its first character is kept whole, so a name that
    only starts with a dot keeps it. *)
Theorem generateCompressedFilename_pattern (format : Types.OutputFormat) :
  (forall base ext : string,
     base <> "" -> contains "." ext = false ->
     generateCompressedFilename (base +:+ "." +:+ ext) format
     = base +:+ "_compressed." +:+ extensionOf format)
  /\ (forall name : string,
        contains "." (afterFirst name) = false ->
        generateCompressedFilename name format
        = name +:+ "_compressed." +:+ extensionOf format).
Proof.
  split.
  - intros base ext Hbase Hext. unfold generateCompressedFilename.
    rewrite extension_extensionOf.
    change ("." +:+ ext) with (String "." ext).
    rewrite (lastIndexOf_last _ _ _ Hext).
    destruct base as [|a base]; [congruence|].
    replace (0 <? Z.of_nat (String.length (String a base)))%Z with true
      by (symmetry; apply Z.ltb_lt; cbn [String.length]; lia).
    now rewrite Nat2Z.id, substring_prefix.
  - intros name Hname. unfold generateCompressedFilename.
    rewrite extension_extensionOf.
    replace (0 <? lastIndexOf "." name)%Z with false; [reflexivity|].
    symmetry. apply Z.ltb_ge.
    destruct name as [|a name]; cbn [lastIndexOf afterFirst] in *; [lia|].
    rewrite (lastIndexOf_absent _ _ Hname). cbn.
    destruct (Ascii.eqb a "."); lia.
Qed.

Lemma generateCompressedFilename_pattern_witness :
  generateCompressedFilename "holiday.2024.jpeg" Types.jpeg
  = "holiday.2024_compressed.jpg"
  /\ generateCompressedFilename ".hidden" Types.webp
     = ".hidden_compressed.webp".
Proof.
  destruct (generateCompressedFilename_pattern Types.jpeg) as [Hdot _].
  destruct (generateCompressedFilename_pattern Types.webp) as [_ Hnone].
  split.
  - apply (Hdot "holiday.2024" "jpeg"); [discriminate|reflexivity].
  - apply (Hnone ".hidden"). reflexivity.
Defined.

(** *** Resizing *)

Lemma round_integer (z : Z) : JS.round (JS.ofZ z) = JS.ofZ z.
Proof.
  unfold JS.ofZ. cbn [JS.round]. unfold JS.ofZ. do 2 f_equal.
  unfold Qfloor, Qplus, inject_Z. cbn [Qnum Qden].
  rewrite Z.mul_1_l. change (Z.pos (1 * 2)) with 2%Z.
  rewrite Z.add_comm, Z.div_add by lia. reflexivity.
Qed.

Lemma inject_Z_le (p q : positive) :
  (p <= q)%positive -> inject_Z (Z.pos p) <= inject_Z (Z.pos q).
Proof. intros H. rewrite <- Zle_Qle. lia. Qed.

Lemma le_ofZ_trans (n : JS.number) (a b : Z) :
  JS.le n (JS.ofZ a) = true -> (a <= b)%Z -> JS.le n (JS.ofZ b) = true.
Proof.
  intros Hn Hab. destruct n as [| | |x]; try discriminate; [reflexivity|].
  unfold JS.le, JS.ofZ in *. apply Qle_bool_iff in Hn. apply Qle_bool_iff.
  rewrite Zle_Qle in Hab. lra.
Qed.

Lemma gt_Fin (x : Q) (z : Z) :
  JS.gt (JS.Fin x) (JS.ofZ z) = true <-> inject_Z z < x.
Proof. unfold JS.gt, JS.ofZ. cbn [JS.lt]. apply Qltb_true. Qed.

Lemma not_gt_Fin (x : Q) (z : Z) :
  JS.gt (JS.Fin x) (JS.ofZ z) = false <-> x <= inject_Z z.
Proof. unfold JS.gt, JS.ofZ. cbn [JS.lt]. apply Qltb_false. Qed.

Lemma pow2_unit : 2 ^ 53 * 2 ^ (-53) == 1.
Proof. rewrite <- pow2_add. reflexivity. Qed.

Lemma below_pow2 (p : positive) (k : Z) :
  (0 <= k)%Z -> (Z.pos p < 2 ^ k)%Z -> inject_Z (Z.pos p) < 2 ^ k.
Proof.
  intros Hk H. rewrite <- (pow2_inject k) by assumption.
  now rewrite <- Zlt_Qlt.
Qed.

(** The aspect ratio of a bitmap of integer sides below [2^53]: the
    binary64 value [s] of [w / h], with [w - w * 2^-53 <= h * s]. *)
Lemma aspectRatio_integer (w h : positive) :
  (Z.pos w < 2 ^ 53)%Z -> (Z.pos h < 2 ^ 53)%Z ->
  exists s : Q,
    JS.fdiv (JS.Fin (inject_Z (Z.pos w))) (JS.Fin (inject_Z (Z.pos h)))
    = JS.Fin s
    /\ s = JS.nearest (inject_Z (Z.pos w) / inject_Z (Z.pos h))
    /\ 0 < s
    /\ inject_Z (Z.pos w) - inject_Z (Z.pos w) * 2 ^ (-53)
       <= inject_Z (Z.pos h) * s.
Proof.
  intros Hw53 Hh53.
  pose proof (positive_integer w) as Hw.
  pose proof (positive_integer h) as Hh.
  pose proof (below_pow2 w 53 ltac:(lia) Hw53) as Hw'.
  pose proof (below_pow2 h 53 ltac:(lia) Hh53) as Hh'.
  set (W := inject_Z (Z.pos w)) in *. set (H := inject_Z (Z.pos h)) in *.
  assert (Bw : JS.isBinary64 W) by now apply isBinary64_positive.
  rewrite (fdiv_Fin W H) by lra.
  assert (Eq : W / H * H == W) by (field; lra).
  assert (Hq : 0 < W / H) by (apply Qlt_shift_div_l; lra).
  assert (Hqw : W / H <= W).
  { apply Qle_shift_div_r; [lra|].
    assert (W * 1 <= W * H) by (apply Qmult_le_l; lra). lra. }
  destruct (binary64_below (W / H) W) as [E _]; [lra|assumption..|].
  assert (Hnormal : 2 ^ (-1022) <= W / H).
  { apply Qle_shift_div_l; [lra|].
    assert (E969 : 2 ^ (-1022) * 2 ^ 53 <= 1).
    { rewrite <- pow2_add. apply (pow2_le _ 0). lia. }
    assert (2 ^ (-1022) * H <= 2 ^ (-1022) * 2 ^ 53).
    { apply Qmult_le_l; [apply pow2_positive|lra]. }
    lra. }
  pose proof (nearest_lower_normal _ Hnormal) as Hlow.
  set (s := JS.nearest (W / H)) in *.
  pose proof (pow2_positive (-53)) as Hu.
  pose proof pow2_unit as Hunit.
  assert (Hwu : W * 2 ^ (-53) < 1).
  { assert (W * 2 ^ (-53) < 2 ^ 53 * 2 ^ (-53))
      by (apply Qmult_lt_compat_r; lra).
    lra. }
  assert (Hq1 : W / H * 2 ^ (-53) * H == W * 2 ^ (-53)).
  { rewrite <- Eq at 2. ring. }
  assert (Hhs : W - W * 2 ^ (-53) <= H * s).
  { assert (H * (W / H - W / H * 2 ^ (-53)) <= H * s)
      by (apply Qmult_le_l; lra).
    lra. }
  exists s. repeat split; try assumption.
  assert (0 < H * s) by lra.
  destruct (Qlt_le_dec 0 s) as [Hs|Hs]; [assumption|exfalso].
  assert (H * s <= H * 0) by (apply Qmult_le_l; lra). lra.
Qed.

(** The first pass does not enlarge: with [maxWidth] below the width, the
    height [maxWidth / aspectRatio] is at most the height of the bitmap. *)
Lemma first_pass_shrinks (w h a : positive) :
  (Z.pos w < 2 ^ 53)%Z -> (Z.pos h < 2 ^ 53)%Z -> (a < w)%positive ->
  exists r : Q,
    JS.fdiv (JS.ofZ (Z.pos a))
            (JS.fdiv (JS.Fin (inject_Z (Z.pos w)))
                     (JS.Fin (inject_Z (Z.pos h))))
    = JS.Fin r
    /\ 0 <= r /\ r <= inject_Z (Z.pos h).
Proof.
  intros Hw53 Hh53 Haw.
  destruct (aspectRatio_integer w h Hw53 Hh53) as (s & -> & _ & Hs & Hhs).
  pose proof (positive_integer a) as Ha.
  pose proof (positive_integer h) as Hh.
  pose proof (below_pow2 w 53 ltac:(lia) Hw53) as Hw'.
  assert (Ha1 : inject_Z (Z.pos a) + 1 <= inject_Z (Z.pos w)).
  { change 1 with (inject_Z 1). rewrite <- inject_Z_plus, <- Zle_Qle. lia. }
  pose proof pow2_unit as Hunit.
  assert (Hwu : inject_Z (Z.pos w) * 2 ^ (-53) < 1).
  { assert (inject_Z (Z.pos w) * 2 ^ (-53) < 2 ^ 53 * 2 ^ (-53))
      by (apply Qmult_lt_compat_r; [apply pow2_positive|lra]).
    lra. }
  unfold JS.ofZ. rewrite (fdiv_Fin _ s Hs).
  assert (Hdiv : inject_Z (Z.pos a) / s <= inject_Z (Z.pos h)).
  { apply Qle_shift_div_r; [assumption|]. lra. }
  assert (Hnn : 0 <= inject_Z (Z.pos a) / s).
  { apply Qle_shift_div_l; lra. }
  destruct (binary64_below _ _ Hnn Hdiv) as [E Hr];
    [now apply isBinary64_positive|].
  exists (JS.nearest (inject_Z (Z.pos a) / s)).
  split; [exact E|]. split; [apply nearest_nonneg|exact Hr].
Qed.

(** The second pass from the sides of the bitmap does not enlarge. *)
Lemma second_pass_shrinks (w h : positive) (mh : option positive) :
  (Z.pos w < 2 ^ 53)%Z -> (Z.pos h < 2 ^ 53)%Z ->
  let W := JS.Fin (inject_Z (Z.pos w)) in
  let H := JS.Fin (inject_Z (Z.pos h)) in
  let out :=
    match mh with
    | Some b =>
        if JS.gt H (JS.ofZ (Z.pos b))
        then (JS.fmul (JS.ofZ (Z.pos b)) (JS.fdiv W H), JS.ofZ (Z.pos b))
        else (W, H)
    | None => (W, H)
    end in
  JS.le (JS.round (fst out)) (JS.ofZ (Z.pos w)) = true
  /\ JS.le (JS.round (snd out)) (JS.ofZ (Z.pos h)) = true.
Proof.
  intros Hw53 Hh53 W H out. subst out W H.
  assert (Hself : forall m : Z,
             JS.le (JS.round (JS.ofZ m)) (JS.ofZ m) = true).
  { intros m. apply round_le, Qle_refl. }
  destruct mh as [b|]; [|split; apply Hself].
  destruct (JS.gt _ (JS.ofZ (Z.pos b))) eqn:E2; [|split; apply Hself].
  apply gt_Fin in E2. rewrite <- Zlt_Qlt in E2.
  cbn [fst snd]. split.
  - apply second_pass_alone.
    + pose proof (positive_integer w). lra.
    + now apply isBinary64_positive.
    + now apply isBinary64_positive.
    + apply isBinary64_positive. lia.
    + apply Qle_refl.
    + rewrite <- Zlt_Qlt. exact E2.
  - apply round_le. rewrite <- Zle_Qle. lia.
Qed.

(** The two-pass clamp does not enlarge a bitmap of integer sides below
    [2^53]. *)
Lemma twoPass_shrinks (w h : positive) (mw mh : option positive) :
  (Z.pos w < 2 ^ 53)%Z -> (Z.pos h < 2 ^ 53)%Z ->
  let out := Spec.twoPass (inject_Z (Z.pos w)) (inject_Z (Z.pos h)) mw mh in
  JS.le (JS.round (fst out)) (JS.ofZ (Z.pos w)) = true
  /\ JS.le (JS.round (snd out)) (JS.ofZ (Z.pos h)) = true.
Proof.
  intros Hw53 Hh53. cbv zeta. unfold Spec.twoPass.
  destruct mw as [a|]; [|now apply second_pass_shrinks].
  destruct (JS.gt _ (JS.ofZ (Z.pos a))) eqn:E1;
    [|now apply second_pass_shrinks].
  apply gt_Fin in E1. rewrite <- Zlt_Qlt in E1.
  destruct (first_pass_shrinks w h a Hw53 Hh53) as (r & Er & Hr0 & Hr);
    [lia|].
  assert (Hwidth : JS.le (JS.round (JS.ofZ (Z.pos a))) (JS.ofZ (Z.pos w))
                   = true).
  { apply round_le. rewrite <- Zle_Qle. lia. }
  assert (Hheight : JS.le (JS.round (JS.Fin r)) (JS.ofZ (Z.pos h)) = true)
    by now apply round_le.
  destruct mh as [b|]; [|rewrite Er; now split].
  destruct (JS.gt _ (JS.ofZ (Z.pos b))) eqn:E2;
    [|rewrite Er; now split].
  cbn [fst snd].
  assert (Hb : (Z.pos b < Z.pos h)%Z).
  { rewrite Er in E2. apply gt_Fin in E2. rewrite Zlt_Qlt. lra. }
  split.
  - apply le_ofZ_trans with (Z.pos a); [|lia].
    rewrite fdiv_Fin in * by (pose proof (positive_integer h); lra).
    apply second_pass_after_first.
    + apply Qle_shift_div_l.
      * pose proof (positive_integer h). lra.
      * pose proof (positive_integer w). lra.
    + apply isBinary64_positive. lia.
    + apply isBinary64_positive. lia.
    + exact E2.
  - apply round_le. rewrite <- Zle_Qle. lia.
Qed.


Lemma twoPass_within_constraints (w h : positive) (mw mh : option positive) :
  (forall a, mw = Some a -> (w <= a)%positive) ->
  (forall b, mh = Some b -> (h <= b)%positive) ->
  Spec.twoPass (inject_Z (Z.pos w)) (inject_Z (Z.pos h)) mw mh
  = (JS.ofZ (Z.pos w), JS.ofZ (Z.pos h)).
Proof.
  intros Ha Hb. unfold Spec.twoPass.
  assert (E1 : forall a, mw = Some a ->
    JS.gt (JS.Fin (inject_Z (Z.pos w))) (JS.ofZ (Z.pos a)) = false).
  { intros a Hmw. apply not_gt_Fin, inject_Z_le. now apply Ha. }
  assert (E2 : forall b, mh = Some b ->
    JS.gt (JS.Fin (inject_Z (Z.pos h))) (JS.ofZ (Z.pos b)) = false).
  { intros b Hmh. apply not_gt_Fin, inject_Z_le. now apply Hb. }
  destruct mw as [a|], mh as [b|];
    rewrite ?(E1 _ eq_refl), ?(E2 _ eq_refl); reflexivity.
Qed.

Lemma calculateDimensions_unlocked (w h : Q) (mw mh : option positive) :
  0 < w -> 0 < h ->
  calculateDimensions
    {| width := JS.Fin w; height := JS.Fin h |}
    {| maxWidth := Spec.integerConstraint mw;
       maxHeight := Spec.integerConstraint mh;
       maintainAspectRatio := false |}
  = {| width := match mw with
                | Some a => JS.min (JS.Fin w) (JS.ofZ (Z.pos a))
                | None => JS.Fin w
                end;
       height := match mh with
                 | Some b => JS.min (JS.Fin h) (JS.ofZ (Z.pos b))
                 | None => JS.Fin h
                 end |}.
Proof.
  intros Hw Hh. unfold calculateDimensions.
  cbn [width height maxWidth maxHeight maintainAspectRatio negb].
  rewrite (le_Fin_positive w Hw), (le_Fin_positive h Hh).
  now destruct mw, mh.
Qed.

Lemma min_le_left (x y : Q) :
  JS.le (JS.min (JS.Fin x) (JS.Fin y)) (JS.Fin x) = true.
Proof.
  rewrite min_Fin. destruct (Qle_bool x y) eqn:E; cbn [JS.le].
  - apply Qle_bool_iff, Qle_refl.
  - apply Qle_bool_iff. apply Qle_bool_false in E. lra.
Qed.

Lemma min_left (x y : Q) :
  x <= y -> JS.min (JS.Fin x) (JS.Fin y) = JS.Fin x.
Proof.
  intros H. rewrite min_Fin.
  replace (Qle_bool x y) with true; [reflexivity|].
  symmetry. now apply Qle_bool_iff.
Qed.

Lemma inject_Z_positive (p : positive) : 0 < inject_Z (Z.pos p).
Proof. change 0 with (inject_Z 0). rewrite <- Zlt_Qlt. lia. Qed.

(** Rounding moves a value by half a unit at most. *)
Lemma round_near (x : Q) :
  x - (1 # 2) < inject_Z (Qfloor (x + (1 # 2)))
  /\ inject_Z (Qfloor (x + (1 # 2))) <= x + (1 # 2).
Proof.
  split.
  - pose proof (Qlt_floor (x + (1 # 2))) as H.
    rewrite inject_Z_plus in H. change (inject_Z 1) with 1 in H. lra.
  - apply Qfloor_le.
Qed.

(** The aspect ratio of a bitmap of integer sides below [2^53] is within
    the relative error [2^-53] of [w / h]. *)
Lemma aspectRatio_near (w h : positive) :
  (Z.pos w < 2 ^ 53)%Z -> (Z.pos h < 2 ^ 53)%Z ->
  let s := JS.nearest (inject_Z (Z.pos w) / inject_Z (Z.pos h)) in
  s <= inject_Z (Z.pos w)
  /\ inject_Z (Z.pos h) * s
     <= inject_Z (Z.pos w) + inject_Z (Z.pos w) * 2 ^ (-53).
Proof.
  intros Hw53 Hh53 s. subst s.
  pose proof (positive_integer w) as Hw.
  pose proof (positive_integer h) as Hh.
  pose proof (below_pow2 h 53 ltac:(lia) Hh53) as Hh'.
  set (W := inject_Z (Z.pos w)) in *. set (H := inject_Z (Z.pos h)) in *.
  assert (Bw : JS.isBinary64 W) by now apply isBinary64_positive.
  assert (Eq : W / H * H == W) by (field; lra).
  assert (Hq : 0 < W / H) by (apply Qlt_shift_div_l; lra).
  assert (Hqw : W / H <= W).
  { apply Qle_shift_div_r; [lra|].
    assert (W * 1 <= W * H) by (apply Qmult_le_l; lra). lra. }
  split; [apply nearest_below; [lra|assumption..]|].
  assert (Hnormal : 2 ^ (-1022) <= W / H).
  { apply Qle_shift_div_l; [lra|].
    assert (E969 : 2 ^ (-1022) * 2 ^ 53 <= 1).
    { rewrite <- pow2_add. apply (pow2_le _ 0). lia. }
    assert (2 ^ (-1022) * H <= 2 ^ (-1022) * 2 ^ 53).
    { apply Qmult_le_l; [apply pow2_positive|lra]. }
    lra. }
  pose proof (nearest_error_normal _ Hnormal) as Hup.
  assert (Hq1 : W / H * 2 ^ (-53) * H == W * 2 ^ (-53)).
  { rewrite <- Eq at 2. ring. }
  assert (H * JS.nearest (W / H) <= H * (W / H + W / H * 2 ^ (-53)))
    by (apply Qmult_le_l; lra).
  lra.
Qed.

Lemma pow2_eighth : 2 ^ 50 * 2 ^ (-53) == 1 # 8.
Proof. rewrite <- pow2_add. reflexivity. Qed.

Lemma isBinary64_pow2_54 : JS.isBinary64 (2 ^ 54).
Proof. vm_compute. reflexivity. Qed.

(** The width [maxHeight * aspectRatio] of the second pass is in the
    proportion of the bitmap, up to three eighths on the cross products. *)
Lemma second_pass_proportion (w h b : positive) :
  (Z.pos w * Z.pos h < 2 ^ 50)%Z -> (b <= h)%positive ->
  exists x : Q,
    JS.fmul (JS.ofZ (Z.pos b))
            (JS.fdiv (JS.Fin (inject_Z (Z.pos w)))
                     (JS.Fin (inject_Z (Z.pos h))))
    = JS.Fin x
    /\ 0 <= x
    /\ - (3 # 8) <= x * inject_Z (Z.pos h)
                    - inject_Z (Z.pos b) * inject_Z (Z.pos w)
    /\ x * inject_Z (Z.pos h) - inject_Z (Z.pos b) * inject_Z (Z.pos w)
       <= 3 # 8.
Proof.
  intros Harea Hbh.
  assert (Hw53 : (Z.pos w < 2 ^ 53)%Z) by nia.
  assert (Hh53 : (Z.pos h < 2 ^ 53)%Z) by nia.
  destruct (aspectRatio_integer w h Hw53 Hh53) as (s & -> & Es & Hs & Hlo).
  destruct (aspectRatio_near w h Hw53 Hh53) as [Hsw Hhi].
  rewrite <- Es in Hsw, Hhi. clear Es.
  pose proof (positive_integer w) as Hw.
  pose proof (positive_integer h) as Hh.
  pose proof (positive_integer b) as Hb.
  pose proof (below_pow2 w 53 ltac:(lia) Hw53) as Hw'.
  pose proof (below_pow2 h 53 ltac:(lia) Hh53) as Hh'.
  assert (Hbh' : inject_Z (Z.pos b) <= inject_Z (Z.pos h))
    by now apply inject_Z_le.
  assert (HP : inject_Z (Z.pos b) * inject_Z (Z.pos w) < 2 ^ 50).
  { rewrite <- inject_Z_mult, <- (pow2_inject 50) by lia.
    rewrite <- Zlt_Qlt. nia. }
  set (W := inject_Z (Z.pos w)) in *. set (H := inject_Z (Z.pos h)) in *.
  set (B := inject_Z (Z.pos b)) in *.
  pose proof (pow2_positive (-53)) as Hu.
  destruct pow2_small as (Hu' & _ & _).
  pose proof pow2_unit as Hunit. pose proof pow2_eighth as Heighth.
  set (u := 2 ^ (-53)) in *.
  assert (Hwu : W * u < 1).
  { assert (W * u < 2 ^ 53 * u) by (apply Qmult_lt_compat_r; lra). lra. }
  assert (HPu : B * W * u < 1 # 8).
  { assert (B * W * u < 2 ^ 50 * u) by (apply Qmult_lt_compat_r; lra).
    lra. }
  assert (HPuu : B * W * u * u <= (1 # 8) * u)
    by (apply Qmult_le_compat_r; lra).
  assert (HPuu0 : 0 <= B * W * u * u).
  { repeat apply Qmult_le_0_compat; lra. }
  unfold JS.ofZ. rewrite fmul_Fin. fold B.
  assert (Hnn : 0 <= B * s) by (apply Qmult_le_0_compat; lra).
  assert (Hbs : B * s <= 2 ^ 54).
  { assert (E54 : 2 ^ 54 == 2 ^ 53 * 2) by (apply (pow2_add 53 1)).
    assert (B * s <= H * s) by (apply Qmult_le_compat_r; lra).
    lra. }
  destruct (binary64_below _ _ Hnn Hbs isBinary64_pow2_54) as [E _].
  assert (Hnormal : 2 ^ (-1022) <= B * s).
  { assert (E969 : 2 ^ (-1022) * 2 ^ 53 <= 1 # 2).
    { rewrite <- pow2_add. change (1 # 2) with (2 ^ (-1)).
      apply pow2_le. lia. }
    assert (Hp : 2 ^ (-1022) * H <= 2 ^ (-1022) * 2 ^ 53).
    { apply Qmult_le_l; [apply pow2_positive|lra]. }
    assert (Hone : 1 * (H * s) <= B * (H * s))
      by (apply Qmult_le_compat_r; lra).
    pose proof (pow2_positive (-1022)) as Hmin.
    assert (Hwu' : W * u <= W * (1 # 1000)) by (apply Qmult_le_l; lra).
    assert (Hall : 2 ^ (-1022) * H <= B * s * H) by lra.
    apply (Qmult_le_r _ _ H); [lra|exact Hall]. }
  pose proof (nearest_error_normal _ Hnormal) as Hup.
  pose proof (nearest_lower_normal _ Hnormal) as Hlow.
  fold u in Hup, Hlow.
  set (x := JS.nearest (B * s)) in *.
  exists x. split; [exact E|]. split; [apply nearest_nonneg|].
  assert (Hx1 : x * H <= (B * s + B * s * u) * H)
    by (apply Qmult_le_compat_r; lra).
  assert (Hx2 : (B * s - B * s * u) * H <= x * H)
    by (apply Qmult_le_compat_r; lra).
  assert (Ht1 : B * (H * s) <= B * (W + W * u))
    by (apply Qmult_le_l; lra).
  assert (Ht2 : B * (W - W * u) <= B * (H * s))
    by (apply Qmult_le_l; lra).
  assert (Ht3 : B * (H * s) * u <= B * (W + W * u) * u)
    by (apply Qmult_le_compat_r; lra).
  assert (Ht4 : B * (W - W * u) * u <= B * (H * s) * u)
    by (apply Qmult_le_compat_r; lra).
  split; lra.
Qed.

(** The height [maxWidth / aspectRatio] of the first pass is in the
    proportion of the bitmap, up to a quarter on the cross products. *)
Lemma first_pass_proportion (w h a : positive) :
  (Z.pos w * Z.pos h < 2 ^ 50)%Z -> (a < w)%positive ->
  exists r : Q,
    JS.fdiv (JS.ofZ (Z.pos a))
            (JS.fdiv (JS.Fin (inject_Z (Z.pos w)))
                     (JS.Fin (inject_Z (Z.pos h))))
    = JS.Fin r
    /\ 0 <= r /\ r <= inject_Z (Z.pos h)
    /\ - (1 # 4) <= inject_Z (Z.pos a) * inject_Z (Z.pos h)
                    - r * inject_Z (Z.pos w)
    /\ inject_Z (Z.pos a) * inject_Z (Z.pos h) - r * inject_Z (Z.pos w)
       <= 1 # 4.
Proof.
  intros Harea Haw.
  assert (Hw53 : (Z.pos w < 2 ^ 53)%Z) by nia.
  assert (Hh53 : (Z.pos h < 2 ^ 53)%Z) by nia.
  destruct (first_pass_shrinks w h a Hw53 Hh53 Haw) as (r & Er & Hr0 & Hrh).
  exists r. split; [exact Er|]. split; [exact Hr0|]. split; [exact Hrh|].
  destruct (aspectRatio_integer w h Hw53 Hh53) as (s & Ediv & Es & Hs & Hlo).
  destruct (aspectRatio_near w h Hw53 Hh53) as [Hsw Hhi].
  rewrite <- Es in Hsw, Hhi. clear Es.
  rewrite Ediv in Er. unfold JS.ofZ in Er. rewrite (fdiv_Fin _ s Hs) in Er.
  pose proof (positive_integer w) as Hw.
  pose proof (positive_integer h) as Hh.
  pose proof (positive_integer a) as Ha.
  pose proof (below_pow2 w 53 ltac:(lia) Hw53) as Hw'.
  assert (Haw' : inject_Z (Z.pos a) <= inject_Z (Z.pos w))
    by (apply inject_Z_le; lia).
  assert (HP : inject_Z (Z.pos w) * inject_Z (Z.pos h) < 2 ^ 50).
  { rewrite <- inject_Z_mult, <- (pow2_inject 50) by lia.
    now rewrite <- Zlt_Qlt. }
  set (W := inject_Z (Z.pos w)) in *. set (H := inject_Z (Z.pos h)) in *.
  set (A := inject_Z (Z.pos a)) in *.
  assert (Hnormal : 2 ^ (-1022) <= A / s).
  { apply Qle_shift_div_l; [assumption|].
    assert (E969 : 2 ^ (-1022) * 2 ^ 53 <= 1).
    { rewrite <- pow2_add. apply (pow2_le _ 0). lia. }
    assert (2 ^ (-1022) * s <= 2 ^ (-1022) * 2 ^ 53).
    { apply Qmult_le_l; [apply pow2_positive|lra]. }
    lra. }
  assert (Hnn : 0 <= A / s) by (apply Qle_shift_div_l; lra).
  destruct (binary64_nonneg (A / s) Hnn) as [[E _]|[E _]];
    rewrite E in Er; [discriminate Er|].
  injection Er as <-.
  pose proof (nearest_error_normal _ Hnormal) as Hup.
  pose proof (nearest_lower_normal _ Hnormal) as Hlow.
  set (r := JS.nearest (A / s)) in *.
  pose proof (pow2_positive (-53)) as Hu.
  pose proof pow2_eighth as Heighth.
  set (u := 2 ^ (-53)) in *.
  assert (Eas : A / s * s == A) by (field; lra).
  assert (Hrs1 : r * s <= (A / s + A / s * u) * s)
    by (apply Qmult_le_compat_r; lra).
  assert (Hrs2 : (A / s - A / s * u) * s <= r * s)
    by (apply Qmult_le_compat_r; lra).
  assert (Eas1 : (A / s + A / s * u) * s == A + A * u).
  { rewrite <- Eas at 3. rewrite <- Eas at 4. ring. }
  assert (Eas2 : (A / s - A / s * u) * s == A - A * u).
  { rewrite <- Eas at 3. rewrite <- Eas at 4. ring. }
  assert (Hrt1 : r * s * H <= (A + A * u) * H)
    by (apply Qmult_le_compat_r; lra).
  assert (Hrt2 : (A - A * u) * H <= r * s * H)
    by (apply Qmult_le_compat_r; lra).
  assert (Hrw1 : H * s * r <= (W + W * u) * r)
    by (apply Qmult_le_compat_r; lra).
  assert (Hrw2 : (W - W * u) * r <= H * s * r)
    by (apply Qmult_le_compat_r; lra).
  assert (HAHu : A * H * u <= W * H * u).
  { apply Qmult_le_compat_r; [|lra]. apply Qmult_le_compat_r; lra. }
  assert (HrWu : r * W * u <= H * W * u).
  { apply Qmult_le_compat_r; [|lra]. apply Qmult_le_compat_r; lra. }
  assert (HPu : W * H * u < 1 # 8).
  { assert (W * H * u < 2 ^ 50 * u) by (apply Qmult_lt_compat_r; lra).
    lra. }
  split; lra.
Qed.


(** The result of the two-pass clamp on a bitmap of integer sides is a pair
    of finite values, one of them an integer, in the proportion of the
    bitmap up to three eighths on the cross products. *)
Lemma twoPass_proportion (w h : positive) (mw mh : option positive) :
  (Z.pos w * Z.pos h < 2 ^ 50)%Z ->
  exists x y : Q,
    Spec.twoPass (inject_Z (Z.pos w)) (inject_Z (Z.pos h)) mw mh
    = (JS.Fin x, JS.Fin y)
    /\ Spec.inProportion (inject_Z (Z.pos w)) (inject_Z (Z.pos h)) (3 # 8)
         x y.
Proof.
  intros Harea.
  pose proof (positive_integer w) as Hw.
  pose proof (positive_integer h) as Hh.
  set (W := inject_Z (Z.pos w)) in *. set (H := inject_Z (Z.pos h)) in *.
  assert (Hsecond : forall (nw : Z) (y : Q),
    (0 <= nw)%Z -> 0 <= y -> y <= H ->
    - (3 # 8) <= inject_Z nw * H - y * W ->
    inject_Z nw * H - y * W <= 3 # 8 ->
    exists x y' : Q,
      match mh with
      | Some b =>
          if JS.gt (JS.Fin y) (JS.ofZ (Z.pos b))
          then (JS.fmul (JS.ofZ (Z.pos b)) (JS.fdiv (JS.Fin W) (JS.Fin H)),
                JS.ofZ (Z.pos b))
          else (JS.ofZ nw, JS.Fin y)
      | None => (JS.ofZ nw, JS.Fin y)
      end = (JS.Fin x, JS.Fin y')
      /\ Spec.inProportion W H (3 # 8) x y').
  { intros nw y Hnw Hy HyH Hlo Hhi.
    assert (Hkeep : exists x y' : Q,
      (JS.ofZ nw, JS.Fin y) = (JS.Fin x, JS.Fin y')
      /\ Spec.inProportion W H (3 # 8) x y').
    { exists (inject_Z nw), y. split; [reflexivity|].
      split; [split; [now rewrite <- (Zle_Qle 0)|exact Hy]|].
      split; [left; now exists nw|]. split; assumption. }
    destruct mh as [b|]; [|exact Hkeep].
    destruct (JS.gt (JS.Fin y) (JS.ofZ (Z.pos b))) eqn:E2; [|exact Hkeep].
    apply gt_Fin in E2.
    assert (Hb : (b <= h)%positive).
    { assert (Hlt : inject_Z (Z.pos b) < inject_Z (Z.pos h))
        by (fold H; lra).
      rewrite <- Zlt_Qlt in Hlt. lia. }
    destruct (second_pass_proportion w h b Harea Hb)
      as (x & Ex & Hx & Hxlo & Hxhi).
    exists x, (inject_Z (Z.pos b)). fold W H in Ex, Hxlo, Hxhi.
    rewrite Ex. split; [reflexivity|].
    split; [split; [exact Hx|pose proof (positive_integer b); lra]|].
    split; [right; now exists (Z.pos b)|]. split; assumption. }
  assert (Hsides : exists x y : Q,
    match mh with
    | Some b =>
        if JS.gt (JS.Fin H) (JS.ofZ (Z.pos b))
        then (JS.fmul (JS.ofZ (Z.pos b)) (JS.fdiv (JS.Fin W) (JS.Fin H)),
              JS.ofZ (Z.pos b))
        else (JS.ofZ (Z.pos w), JS.Fin H)
    | None => (JS.ofZ (Z.pos w), JS.Fin H)
    end = (JS.Fin x, JS.Fin y)
    /\ Spec.inProportion W H (3 # 8) x y).
  { apply Hsecond; fold W; try lia; lra. }
  unfold Spec.twoPass.
  destruct mw as [a|]; [|exact Hsides].
  destruct (JS.gt _ (JS.ofZ (Z.pos a))) eqn:E1; [|exact Hsides].
  apply gt_Fin in E1. fold W in E1. unfold W in E1.
  rewrite <- Zlt_Qlt in E1.
  destruct (first_pass_proportion w h a Harea ltac:(lia))
    as (r & Er & Hr0 & Hrh & Hlo & Hhi).
  fold W H in Er, Hrh, Hlo, Hhi. rewrite Er.
  apply Hsecond; try lia; lra.
Qed.

(** X7. With the aspect ratio locked and a constraint set, the result of
    [calculateDimensions] on a bitmap of positive integer sides, of fewer
    than [2^50] pixels, is a pair of integers, none negative, in the
    proportion of the bitmap up to the rounding: the cross products
    [width' * h] and [height' * w] differ by (w + h) / 2 at most. *)
Theorem calculateDimensions_keeps_proportion (w h : positive)
    (mw mh : option positive) :
  (Z.pos w * Z.pos h < 2 ^ 50)%Z -> is_Some mw \/ is_Some mh ->
  exists ow oh : Z,
    calculateDimensions
      {| width := JS.ofZ (Z.pos w); height := JS.ofZ (Z.pos h) |}
      {| maxWidth := Spec.integerConstraint mw;
         maxHeight := Spec.integerConstraint mh;
         maintainAspectRatio := true |}
    = {| width := JS.ofZ ow; height := JS.ofZ oh |}
    /\ (0 <= ow)%Z /\ (0 <= oh)%Z
    /\ (- (Z.pos w + Z.pos h) <= 2 * (ow * Z.pos h - oh * Z.pos w)
        <= Z.pos w + Z.pos h)%Z.
Proof.
  intros Harea Hset.
  pose proof (inject_Z_positive w) as Hw.
  pose proof (inject_Z_positive h) as Hh.
  unfold JS.ofZ at 1 2.
  rewrite calculateDimensions_twoPass by assumption.
  destruct (twoPass_proportion w h mw mh Harea)
    as (x & y & -> & [Hx Hy] & Hinteger & Hlo & Hhi).
  cbn [fst snd JS.round].
  set (ow := Qfloor (x + (1 # 2))). set (oh := Qfloor (y + (1 # 2))).
  exists ow, oh. split; [reflexivity|].
  assert (Hfloor : forall z : Q, 0 <= z -> (0 <= Qfloor (z + (1 # 2)))%Z).
  { intros z Hz. change 0%Z with (Qfloor 0). apply Qfloor_resp_le. lra. }
  split; [now apply Hfloor|]. split; [now apply Hfloor|].
  destruct (round_near x) as [Hx1 Hx2], (round_near y) as [Hy1 Hy2].
  fold ow in Hx1, Hx2. fold oh in Hy1, Hy2.
  set (W := inject_Z (Z.pos w)) in *. set (H := inject_Z (Z.pos h)) in *.
  assert (Ed : inject_Z (2 * (ow * Z.pos h - oh * Z.pos w))
               == 2 * (inject_Z ow * H - inject_Z oh * W)).
  { unfold Zminus.
    rewrite inject_Z_mult, inject_Z_plus, inject_Z_opp, !inject_Z_mult.
    reflexivity. }
  assert (Hslack :
    - (W + H + 1) < 2 * (inject_Z ow * H - inject_Z oh * W)
    /\ 2 * (inject_Z ow * H - inject_Z oh * W) < W + H + 1).
  { destruct Hinteger as [[n En]|[n En]].
    - assert (Eow : inject_Z ow == x).
      { unfold ow. rewrite (round_inject_Z x n En). symmetry. exact En. }
      assert (H1 : (y - inject_Z oh) * W <= (1 # 2) * W)
        by (apply Qmult_le_compat_r; lra).
      assert (H2 : - (1 # 2) * W <= (y - inject_Z oh) * W)
        by (apply Qmult_le_compat_r; lra).
      rewrite Eow. split; lra.
    - assert (Eoh : inject_Z oh == y).
      { unfold oh. rewrite (round_inject_Z y n En). symmetry. exact En. }
      assert (H1 : (inject_Z ow - x) * H <= (1 # 2) * H)
        by (apply Qmult_le_compat_r; lra).
      assert (H2 : - (1 # 2) * H <= (inject_Z ow - x) * H)
        by (apply Qmult_le_compat_r; lra).
      rewrite Eoh. split; lra. }
  destruct Hslack as [Hd2 Hd1]. rewrite <- Ed in Hd1, Hd2.
  assert (E1 : W + H + 1 == inject_Z (Z.pos w + Z.pos h + 1)).
  { rewrite !inject_Z_plus. reflexivity. }
  rewrite E1 in Hd1, Hd2. rewrite <- inject_Z_opp in Hd2.
  rewrite <- Zlt_Qlt in Hd1, Hd2. lia.
Qed.

(** A bitmap of 4000 by 3000 fitted into 1920 by 1080 comes out as 1440 by
    1080, in proportion exactly. *)
Lemma calculateDimensions_keeps_proportion_witness :
  exists ow oh : Z,
    calculateDimensions
      {| width := JS.ofZ 4000; height := JS.ofZ 3000 |}
      {| maxWidth := Some (JS.ofZ 1920); maxHeight := Some (JS.ofZ 1080);
         maintainAspectRatio := true |}
    = {| width := JS.ofZ ow; height := JS.ofZ oh |}
    /\ (0 <= ow)%Z /\ (0 <= oh)%Z
    /\ (- (4000 + 3000) <= 2 * (ow * 3000 - oh * 4000) <= 4000 + 3000)%Z.
Proof.
  apply (calculateDimensions_keeps_proportion 4000 3000
           (Some 1920%positive) (Some 1080%positive)).
  - reflexivity.
  - left. exists 1920%positive. reflexivity.
Defined.

(** X8. [calculateDimensions] never enlarges a bitmap of positive integer
    sides below [2^53], whether or not the aspect ratio is locked, and
    returns a bitmap that already keeps within the constraints as it is. *)
Theorem calculateDimensions_never_enlarges (w h : positive)
    (mw mh : option positive) (lock : bool) :
  (Z.pos w < 2 ^ 53)%Z -> (Z.pos h < 2 ^ 53)%Z ->
  let original :=
    {| width := JS.ofZ (Z.pos w); height := JS.ofZ (Z.pos h) |} in
  let out :=
    calculateDimensions original
      {| maxWidth := Spec.integerConstraint mw;
         maxHeight := Spec.integerConstraint mh;
         maintainAspectRatio := lock |} in
  JS.le (width out) (JS.ofZ (Z.pos w)) = true
  /\ JS.le (height out) (JS.ofZ (Z.pos h)) = true
  /\ ((forall a, mw = Some a -> (w <= a)%positive) ->
      (forall b, mh = Some b -> (h <= b)%positive) ->
      out = original).
Proof.
  intros Hw53 Hh53 original out. subst out original.
  change {| width := JS.ofZ (Z.pos w); height := JS.ofZ (Z.pos h) |}
    with {| width := JS.Fin (inject_Z (Z.pos w));
            height := JS.Fin (inject_Z (Z.pos h)) |}.
  pose proof (inject_Z_positive w) as Hw.
  pose proof (inject_Z_positive h) as Hh.
  destruct lock.
  - destruct (decide (mw = None /\ mh = None)) as [[-> ->]|Hset].
    + rewrite calculateDimensions_unconstrained by assumption.
      cbn [width height]. split; [|split]; try reflexivity.
      * apply Qle_bool_iff, Qle_refl.
      * apply Qle_bool_iff, Qle_refl.
    + assert (Hsome : is_Some mw \/ is_Some mh).
      { destruct mw, mh; eauto. now contradiction Hset. }
      rewrite calculateDimensions_twoPass by assumption.
      destruct (twoPass_shrinks w h mw mh Hw53 Hh53) as [H1 H2].
      cbn [width height].
      split; [exact H1|]. split; [exact H2|].
      intros Ha Hb. rewrite twoPass_within_constraints by assumption.
      cbn [fst snd]. now rewrite !round_integer.
  - rewrite calculateDimensions_unlocked by assumption.
    cbn [width height]. unfold JS.ofZ. split; [|split].
    + destruct mw; [apply min_le_left|]. apply Qle_bool_iff, Qle_refl.
    + destruct mh; [apply min_le_left|]. apply Qle_bool_iff, Qle_refl.
    + intros Ha Hb. f_equal.
      * destruct mw as [a|]; [|reflexivity].
        apply min_left, inject_Z_le. now apply Ha.
      * destruct mh as [b|]; [|reflexivity].
        apply min_left, inject_Z_le. now apply Hb.
Qed.

(** A bitmap of 800 by 600 under the constraints 1920 by 1080 is returned
    as it is. *)
Lemma calculateDimensions_never_enlarges_witness :
  calculateDimensions
    {| width := JS.ofZ 800; height := JS.ofZ 600 |}
    {| maxWidth := Some (JS.ofZ 1920); maxHeight := Some (JS.ofZ 1080);
       maintainAspectRatio := true |}
  = {| width := JS.ofZ 800; height := JS.ofZ 600 |}.
Proof.
  apply (calculateDimensions_never_enlarges 800 600
           (Some 1920%positive) (Some 1080%positive) true).
  - reflexivity.
  - reflexivity.
  - intros a Ha. injection Ha as <-. vm_compute. discriminate.
  - intros b Hb. injection Hb as <-. vm_compute. discriminate.
Defined.

End Helpers.

(** ** The transform on the main thread and in the worker *)
Section Transform.
#[local] Open Scope Q_scope.
Import Types.

Lemma clampQuality_fixed (z : Z) :
  (0 <= z <= 100)%Z -> Compressor.clampQuality (JS.ofZ z) = JS.ofZ z.
Proof.
  intros Hz. unfold Compressor.clampQuality.
  cbn [JS.isNaN JS.ofZ]. fold (JS.ofZ z). rewrite round_integer.
  unfold JS.ofZ. rewrite min_Fin.
  destruct (Qle_bool (inject_Z 100) (inject_Z z)) eqn:Hhi; rewrite max_Fin.
  - apply Qle_bool_iff in Hhi. rewrite <- Zle_Qle in Hhi.
    assert (z = 100%Z) as -> by lia. reflexivity.
  - replace (Qle_bool (inject_Z 0) (inject_Z z)) with true; [reflexivity|].
    symmetry. apply Qle_bool_iff. rewrite <- Zle_Qle. lia.
Qed.

(** X9. Validating options twice is validating them once: the options the
    scheduler validates when a batch is submitted reach the worker unchanged
    by the validation before the request is posted. A quality that is already
    an integer between 0 and 100 is kept. *)
Theorem validateCompressionOptions_idempotent (options : CompressionOptions) :
  Compressor.validateCompressionOptions
    (Compressor.validateCompressionOptions options)
  = Compressor.validateCompressionOptions options
  /\ forall z : Z, (0 <= z <= 100)%Z -> quality options = JS.ofZ z ->
       Compressor.validateCompressionOptions options = options.
Proof.
  split.
  - unfold Compressor.validateCompressionOptions.
    cbn [quality format maxWidth maxHeight maintainAspectRatio
         stripMetadata progressive].
    destruct (clampQuality_integer (quality options)) as (z & -> & Hz).
    now rewrite clampQuality_fixed.
  - intros z Hz Hq. unfold Compressor.validateCompressionOptions.
    rewrite Hq, clampQuality_fixed by assumption.
    rewrite <- Hq. now destruct options.
Qed.

Lemma validateCompressionOptions_idempotent_witness :
  Compressor.validateCompressionOptions Examples.fullHD = Examples.fullHD.
Proof.
  apply (proj2 (validateCompressionOptions_idempotent Examples.fullHD) 70%Z).
  - lia.
  - reflexivity.
Defined.

(** X10. The ratio [createCompressedResult] records is the ratio of the helper
    [calculateCompressionRatio] for every original size but NaN, where the
    helper computes NaN and [createCompressedResult] records 0. *)
Theorem createCompressedResult_ratio (blobSize originalSize : JS.number)
    (w h : JS.number) (f : OutputFormat) :
  (JS.isNaN originalSize = false ->
     compressionRatio
       (Compressor.createCompressedResult blobSize originalSize w h f)
     = FileHelpers.calculateCompressionRatio originalSize blobSize)
  /\ compressionRatio
       (Compressor.createCompressedResult blobSize JS.NaN w h f)
     = JS.ofZ 0
  /\ FileHelpers.calculateCompressionRatio JS.NaN blobSize = JS.NaN.
Proof.
  split; [|split; reflexivity].
  unfold Compressor.createCompressedResult,
    FileHelpers.calculateCompressionRatio.
  cbn [compressionRatio].
  destruct originalSize as [| | |x]; intros Hnan;
    [discriminate|reflexivity|reflexivity|].
  unfold JS.gt, JS.ofZ. cbn [JS.lt JS.le]. unfold JS.Qltb.
  now destruct (Qle_bool x (inject_Z 0)).
Qed.

Lemma createCompressedResult_ratio_witness :
  compressionRatio
    (Compressor.createCompressedResult (JS.ofZ 50) JS.PosInf
       (JS.ofZ 1) (JS.ofZ 1) webp)
  = FileHelpers.calculateCompressionRatio JS.PosInf (JS.ofZ 50).
Proof.
  apply (proj1 (createCompressedResult_ratio (JS.ofZ 50) JS.PosInf
                  (JS.ofZ 1) (JS.ofZ 1) webp)).
  reflexivity.
Defined.

(** The main-thread [calculateOutputDimensions] is [calculateDimensions]. *)
Lemma calculateOutputDimensions_calculateDimensions
    (w h : JS.number) (options : CompressionOptions) :
  Compressor.calculateOutputDimensions w h options
  = FileHelpers.calculateDimensions
      {| FileHelpers.width := w; FileHelpers.height := h |}
      (Spec.constraintsOf options).
Proof. reflexivity. Qed.

Lemma Qfloor_unit (q : Q) : 0 <= q -> q < 1 -> Qfloor q = 0%Z.
Proof.
  intros H0 H1.
  pose proof (Qfloor_le q) as Hle. pose proof (Qlt_floor q) as Hlt.
  assert (Hhi : inject_Z (Qfloor q) < inject_Z 1)
    by (change (inject_Z 1) with 1; lra).
  rewrite inject_Z_plus in Hlt. change (inject_Z 1) with 1 in Hlt.
  assert (Hlo : inject_Z (-1) < inject_Z (Qfloor q))
    by (change (inject_Z (-1)) with (-1); lra).
  rewrite <- Zlt_Qlt in Hhi, Hlo. lia.
Qed.

(** The binary64 value before one half. *)
Lemma isBinary64_below_half : JS.isBinary64 ((1 # 2) - 2 ^ (-54)).
Proof. vm_compute. reflexivity. Qed.

(** A bitmap much wider than high, fitted into a width: the height rounds
    to zero. *)
Lemma calculateDimensions_thin (w h a : positive) :
  (Z.pos w < 2 ^ 52)%Z -> (2 * a * h < w)%positive ->
  FileHelpers.calculateDimensions
    {| FileHelpers.width := JS.ofZ (Z.pos w);
       FileHelpers.height := JS.ofZ (Z.pos h) |}
    {| FileHelpers.maxWidth := Some (JS.ofZ (Z.pos a));
       FileHelpers.maxHeight := None;
       FileHelpers.maintainAspectRatio := true |}
  = {| FileHelpers.width := JS.ofZ (Z.pos a);
       FileHelpers.height := JS.ofZ 0 |}.
Proof.
  intros Hw52 Hthin.
  pose proof (inject_Z_positive w) as Hw.
  pose proof (inject_Z_positive h) as Hh.
  pose proof (positive_integer a) as Ha.
  pose proof (positive_integer h) as Hh1.
  assert (Hq : 2 * inject_Z (Z.pos a) * inject_Z (Z.pos h) + 1
               <= inject_Z (Z.pos w)).
  { change 2 with (inject_Z 2). change 1 with (inject_Z 1).
    rewrite <- !inject_Z_mult, <- inject_Z_plus, <- Zle_Qle. lia. }
  assert (Hh53 : (Z.pos h < 2 ^ 53)%Z) by nia.
  destruct (aspectRatio_integer w h ltac:(lia) Hh53)
    as (s & Es & _ & Hs & Hhs).
  pose proof (below_pow2 w 52 ltac:(lia) Hw52) as Hw'.
  etransitivity.
  { apply (calculateDimensions_twoPass _ _ (Some a) None Hw Hh).
    left. now exists a. }
  unfold Spec.twoPass.
  replace (JS.gt (JS.Fin (inject_Z (Z.pos w))) (JS.ofZ (Z.pos a))) with true.
  2:{ symmetry. apply gt_Fin.
      assert (inject_Z (Z.pos a) * 1 <= inject_Z (Z.pos a) * inject_Z (Z.pos h))
        by (apply Qmult_le_l; lra).
      lra. }
  cbn [fst snd]. rewrite round_integer, Es. f_equal.
  unfold JS.ofZ at 1. rewrite (fdiv_Fin _ s Hs).
  set (m := (1 # 2) - 2 ^ (-54)).
  pose proof (pow2_positive (-53)) as Hu.
  assert (Em : m == (1 # 2) * (1 - 2 ^ (-53))).
  { unfold m. rewrite <- (pow2_half (-53)). ring. }
  assert (Hwu : inject_Z (Z.pos w) * 2 ^ (-53) <= 1 # 2).
  { assert (E52 : 2 ^ 52 * 2 ^ (-53) == 1 # 2)
      by (rewrite <- pow2_add; reflexivity).
    assert (inject_Z (Z.pos w) * 2 ^ (-53) <= 2 ^ 52 * 2 ^ (-53))
      by (apply Qmult_le_compat_r; lra).
    lra. }
  assert (Hu1 : 2 ^ (-53) <= 1)
    by (apply Qle_bool_iff; vm_compute; reflexivity).
  assert (Hdiv : inject_Z (Z.pos a) / s <= m).
  { apply Qle_shift_div_r; [assumption|].
    apply (Qmult_le_r _ _ (inject_Z (Z.pos h))); [assumption|].
    assert (H1 : (1 # 2) * (1 - 2 ^ (-53))
                 * (inject_Z (Z.pos w) - inject_Z (Z.pos w) * 2 ^ (-53))
                 <= (1 # 2) * (1 - 2 ^ (-53)) * (inject_Z (Z.pos h) * s)).
    { apply Qmult_le_l; [|exact Hhs]. lra. }
    assert (H2 : 0 <= inject_Z (Z.pos w) * 2 ^ (-53) * 2 ^ (-53)).
    { apply Qmult_le_0_compat; [apply Qmult_le_0_compat|]; lra. }
    rewrite Em. lra. }
  assert (Hnn : 0 <= inject_Z (Z.pos a) / s).
  { apply Qle_shift_div_l; lra. }
  destruct (binary64_below _ _ Hnn Hdiv isBinary64_below_half) as [E Hr].
  rewrite E. cbn [JS.round]. unfold JS.ofZ. do 2 f_equal.
  pose proof (nearest_nonneg (inject_Z (Z.pos a) / s)).
  pose proof (pow2_positive (-54)).
  apply Qfloor_unit; unfold m in Hr; lra.
Qed.

(** X11. [compressImage] on the main thread refuses a bitmap with a side of
    zero or less, and a bitmap of integer sides, the width below [2^52],
    that, fitted into a width, would come out with a height of zero: after
    the reports 10 and 30 it closes the bitmap and throws [Invalid image
    dimensions], whatever the other browser calls would do. *)
Theorem compressImage_invalid_dimensions (calls : Platform.Calls)
    (fileSize : JS.number) (options : CompressionOptions)
    (w h : JS.number) :
  Platform.createImageBitmap calls = Platform.Ok (w, h) ->
  JS.le w (JS.ofZ 0) = true \/ JS.le h (JS.ofZ 0) = true
  \/ (exists pw ph a : positive,
        w = JS.ofZ (Z.pos pw) /\ h = JS.ofZ (Z.pos ph)
        /\ (Z.pos pw < 2 ^ 52)%Z /\ (2 * a * ph < pw)%positive
        /\ maxWidth options = Some (JS.ofZ (Z.pos a))
        /\ maxHeight options = None
        /\ maintainAspectRatio options = true) ->
  Compressor.compressImage calls fileSize options
  = ([Compressor.OnProgress (JS.ofZ 10); Compressor.OnProgress (JS.ofZ 30);
      Compressor.Close],
     Platform.Fails (Platform.ErrorObject "Invalid image dimensions")).
Proof.
  intros Hbitmap Hcase.
  assert (Hzero :
    let dimensions :=
      Compressor.calculateOutputDimensions w h
        (Compressor.validateCompressionOptions options) in
    JS.strictEq (FileHelpers.width dimensions) (JS.ofZ 0)
    || JS.strictEq (FileHelpers.height dimensions) (JS.ofZ 0) = true).
  { cbv zeta. rewrite calculateOutputDimensions_calculateDimensions.
    destruct Hcase as [Hw | [Hh | Hthin]].
    - rewrite calculateDimensions_nonpositive by (left; exact Hw).
      reflexivity.
    - rewrite calculateDimensions_nonpositive by (right; exact Hh).
      reflexivity.
    - destruct Hthin
        as (pw & ph & a & -> & -> & Hbig & Hlt & Hmw & Hmh & Hlock).
      unfold Spec.constraintsOf, Compressor.validateCompressionOptions.
      cbn [maxWidth maxHeight maintainAspectRatio].
      rewrite Hmw, Hmh, Hlock, calculateDimensions_thin by assumption.
      cbn [FileHelpers.width FileHelpers.height].
      apply orb_true_iff. right. reflexivity. }
  unfold Compressor.compressImage. rewrite Hbitmap.
  cbv zeta in Hzero. cbn [Platform.emit Platform.call Platform.bind fst snd].
  rewrite Hzero. reflexivity.
Qed.

(** A bitmap of 10000 by 4 fitted into a width of 1000 would be 1000 by
    0.4. *)
Lemma compressImage_invalid_dimensions_witness :
  Compressor.compressImage (Examples.browser 10000 4) (JS.ofZ 2048)
    Examples.width1000
  = ([Compressor.OnProgress (JS.ofZ 10);
      Compressor.OnProgress (JS.ofZ 30); Compressor.Close],
     Platform.Fails (Platform.ErrorObject "Invalid image dimensions")).
Proof.
  apply (compressImage_invalid_dimensions (Examples.browser 10000 4)
           (JS.ofZ 2048) Examples.width1000 (JS.ofZ 10000) (JS.ofZ 4)).
  - reflexivity.
  - right. right. exists 10000%positive, 4%positive, 1000%positive.
    repeat split; reflexivity.
Defined.

(** A bitmap of 1 by 98 fitted into a height of 49 is refused as well: the
    width 49 * (1 / 98) is below one half as the machine computes it. *)
Lemma compressImage_half_pixel :
  Compressor.compressImage (Examples.browser 1 98) (JS.ofZ 2048)
    Examples.height49
  = ([Compressor.OnProgress (JS.ofZ 10);
      Compressor.OnProgress (JS.ofZ 30); Compressor.Close],
     Platform.Fails (Platform.ErrorObject "Invalid image dimensions")).
Proof. vm_compute. reflexivity. Qed.

(** *** The worker *)

(** The case of an answer [error] after the stages [reported]. *)
Ltac error_after reported :=
  subst; exists reported; eexists; split; [reflexivity|];
  split; [now eexists|]; right; now eexists.

Lemma onmessage_answer (calls : Platform.Calls)
    (request : Worker.WorkerRequest) :
  (Worker.type request = "compress" ->
     exists (reported : list JS.number) (answer : Worker.WorkerResponse),
       Spec.posted (Worker.onmessage calls request)
       = (Worker.progress (Worker.id request) <$> reported) ++ [answer]
       /\ reported `prefix_of` Spec.stages
       /\ ((exists data,
              answer = Worker.complete (Worker.id request) data
              /\ reported = Spec.stages
              /\ Spec.closed (Worker.onmessage calls request) = true)
           \/ (exists message,
                 answer = Worker.error (Worker.id request) message
                 /\ Spec.closed (Worker.onmessage calls request) = false)))
  /\ (Worker.type request <> "compress" ->
        Worker.onmessage calls request
        = [Worker.PostMessage
             (Worker.error (Worker.id request)
                ("Unknown message type: " +:+ Worker.type request))]).
Proof.
  split.
  - intros Htype.
    remember (Worker.onmessage calls request) as trace eqn:Htrace.
    unfold Worker.onmessage, Worker.compressImage in Htrace.
    rewrite Htype in Htrace.
    cbn [String.eqb Ascii.eqb Bool.eqb negb] in Htrace.
    destruct (Platform.createImageBitmap calls) as [[w h]|t1];
      cbn [Platform.bind Platform.call Platform.emit Platform.throw
           Worker.postProgressMessage fst snd app] in Htrace.
    2: { error_after [JS.ofZ 10]. }
    destruct (Platform.newOffscreenCanvas calls _ _) as [[]|t2];
      cbn [Platform.bind Platform.call Platform.emit Platform.throw
           Worker.postProgressMessage fst snd app] in Htrace.
    2: { error_after [JS.ofZ 10; JS.ofZ 30]. }
    destruct (Platform.getContext calls) as [[|]|t3];
      cbn [Platform.bind Platform.call Platform.emit Platform.throw
           Worker.postProgressMessage fst snd app negb] in Htrace.
    2, 3: error_after [JS.ofZ 10; JS.ofZ 30].
    destruct (Platform.drawImage calls) as [[]|t4];
      cbn [Platform.bind Platform.call Platform.emit Platform.throw
           Worker.postProgressMessage fst snd app] in Htrace.
    2: { error_after [JS.ofZ 10; JS.ofZ 30]. }
    destruct (match format (Worker.options request) with
              | png => _
              | _ => _
              end) as [blobSize|t5];
      cbn [Platform.bind Platform.call Platform.emit Platform.throw
           Platform.ret Worker.postProgressMessage
           Worker.postCompleteMessage fst snd app] in Htrace.
    2: { error_after [JS.ofZ 10; JS.ofZ 30; JS.ofZ 50]. }
    subst trace. exists Spec.stages. eexists.
    split; [reflexivity|]. split; [reflexivity|]. left.
    eexists. split; [reflexivity|]. split; reflexivity.
  - intros Htype. unfold Worker.onmessage.
    replace (Worker.type request =? "compress")%string with false;
      [reflexivity|].
    symmetry. now apply String.eqb_neq.
Qed.

(** X12. One request, one answer. Whatever the browser calls do, the worker
    answers a [compress] request with progress messages for a first part of
    the stages 10, 30, 50, 90, followed by one last message, [complete] or
    [error], all under the id of the request. [complete] comes after all four
    stages and after the bitmap was closed; when the answer is [error] the
    bitmap is not closed, even when it was decoded. A request of another type
    is answered by the one [error] message naming the type. *)
Theorem onmessage_one_answer (calls : Platform.Calls)
    (request : Worker.WorkerRequest) :
  (Worker.type request = "compress" ->
     exists (reported : list JS.number) (answer : Worker.WorkerResponse),
       Spec.posted (Worker.onmessage calls request)
       = (Worker.progress (Worker.id request) <$> reported) ++ [answer]
       /\ reported `prefix_of` Spec.stages
       /\ ((exists data,
              answer = Worker.complete (Worker.id request) data
              /\ reported = Spec.stages
              /\ Spec.closed (Worker.onmessage calls request) = true)
           \/ (exists message,
                 answer = Worker.error (Worker.id request) message
                 /\ Spec.closed (Worker.onmessage calls request) = false)))
  /\ (Worker.type request <> "compress" ->
        Worker.onmessage calls request
        = [Worker.PostMessage
             (Worker.error (Worker.id request)
                ("Unknown message type: " +:+ Worker.type request))]).
Proof. exact (onmessage_answer calls request). Qed.

Lemma onmessage_one_answer_witness :
  exists (reported : list JS.number) (answer : Worker.WorkerResponse),
    Spec.posted (Worker.onmessage (Examples.browser 4000 3000)
                   Examples.request)
    = (Worker.progress "a" <$> reported) ++ [answer]
    /\ reported `prefix_of` Spec.stages
    /\ ((exists data,
           answer = Worker.complete "a" data
           /\ reported = Spec.stages
           /\ Spec.closed (Worker.onmessage (Examples.browser 4000 3000)
                             Examples.request) = true)
        \/ (exists message,
              answer = Worker.error "a" message
              /\ Spec.closed (Worker.onmessage (Examples.browser 4000 3000)
                                Examples.request) = false)).
Proof.
  apply (proj1 (onmessage_one_answer (Examples.browser 4000 3000)
                  Examples.request)).
  reflexivity.
Defined.

End Transform.

(** ** The names of the archive *)
Section Zip.
Import ZipGenerator.

Lemma list_of_append (s1 s2 : string) :
  String.list_ascii_of_string (s1 +:+ s2)
  = String.list_ascii_of_string s1 ++ String.list_ascii_of_string s2.
Proof.
  induction s1 as [|a s1 IH]; [reflexivity|].
  rewrite append_cons. cbn [String.list_ascii_of_string app]. now rewrite IH.
Qed.

Lemma append_inv_tail (s1 s2 t : string) : s1 +:+ t = s2 +:+ t -> s1 = s2.
Proof.
  intros H. apply (f_equal String.list_ascii_of_string) in H.
  rewrite !list_of_append in H. apply app_inv_tail in H.
  apply (f_equal String.string_of_list_ascii) in H.
  now rewrite !String.string_of_list_ascii_of_string in H.
Qed.

(** The numbered names of a duplicate differ from one another. *)
Lemma numbered_inj (baseName extension : string) (j k : nat) :
  numbered baseName extension j = numbered baseName extension k -> j = k.
Proof.
  unfold numbered. intros H.
  apply String.app_inj in H. apply (String.app_inj "_") in H.
  apply append_inv_tail in H. now apply pretty_nat_inj in H.
Qed.

(** The loop ends within the rounds it is given: the names it has passed
    are used names, all different, so it passes fewer than there are. *)
Lemma freeCounter_enough (usedFilenames : gset string)
    (baseName extension : string) :
  forall (fuel counter : nat) (seen : gset string),
  (forall k, (counter <= k)%nat -> numbered baseName extension k ∉ seen) ->
  (size (usedFilenames ∖ seen) < fuel)%nat ->
  exists k,
    freeCounter fuel usedFilenames baseName extension counter = Some k
    /\ numbered baseName extension k ∉ usedFilenames.
Proof.
  induction fuel as [|fuel IH]; intros counter seen Hseen Hfuel; [lia|].
  cbn [freeCounter].
  destruct (decide (numbered baseName extension counter ∈ usedFilenames))
    as [Hused|Hfree]; [|now exists counter].
  apply (IH (S counter) ({[numbered baseName extension counter]} ∪ seen)).
  - intros k Hk Hin. apply elem_of_union in Hin as [Hin|Hin].
    + apply elem_of_singleton in Hin. apply numbered_inj in Hin. lia.
    + apply (Hseen k); [lia|exact Hin].
  - assert (Hless :
      usedFilenames ∖ ({[numbered baseName extension counter]} ∪ seen)
      ⊂ usedFilenames ∖ seen).
    { split.
      - intros x Hx. apply elem_of_difference in Hx as [Hx Hout].
        apply elem_of_difference. split; [exact Hx|].
        intros Hin. apply Hout, elem_of_union. now right.
      - intros Hsub.
        assert (Hin : numbered baseName extension counter
                      ∈ usedFilenames ∖ seen).
        { apply elem_of_difference. split; [exact Hused|].
          apply Hseen. lia. }
        apply Hsub, elem_of_difference in Hin as [_ Hout].
        apply Hout, elem_of_union. left. now apply elem_of_singleton. }
    apply subset_size in Hless. lia.
Qed.

(** One image is added under a name no entry has yet. *)
Lemma addImage_new_name (usedFilenames : gset string)
    (entries : list (string * Blob)) (image : ZipImageItem) :
  (forall name, name ∈ entries.*1 <-> name ∈ usedFilenames) ->
  exists name,
    addImage (usedFilenames, entries) image
    = Some ({[name]} ∪ usedFilenames, entries ++ [(name, blob image)])
    /\ name ∉ usedFilenames.
Proof.
  intros Hnames. unfold addImage.
  set (filename := FileHelpers.generateCompressedFilename _ _).
  assert (Hadd : forall name, name ∉ usedFilenames ->
    file name (blob image) entries = entries ++ [(name, blob image)]).
  { intros name Hfree. unfold file.
    destruct (decide (name ∈ entries.*1)) as [Hin|]; [|reflexivity].
    now apply Hnames in Hin. }
  destruct (decide (filename ∈ usedFilenames)) as [Hused|Hfree].
  - destruct (freeCounter_enough usedFilenames
                (substring filename 0 (FileHelpers.lastIndexOf "." filename))
                (substringFrom filename
                   (FileHelpers.lastIndexOf "." filename))
                (S (size usedFilenames)) 1 ∅) as (k & -> & Hfree).
    + intros k _. apply not_elem_of_empty.
    + rewrite difference_empty_L. lia.
    + eexists. cbn. rewrite Hadd by exact Hfree. split; [reflexivity|].
      exact Hfree.
  - exists filename. cbn. now rewrite Hadd.
Qed.

Lemma addImage_all (images : list ZipImageItem) :
  forall (usedFilenames : gset string) (entries : list (string * Blob)),
  (forall name, name ∈ entries.*1 <-> name ∈ usedFilenames) ->
  NoDup entries.*1 ->
  exists usedFilenames' entries',
    foldl (fun state image => state ≫= fun st => addImage st image)
          (Some (usedFilenames, entries)) images
    = Some (usedFilenames', entries')
    /\ NoDup entries'.*1
    /\ entries'.*2 = entries.*2 ++ (blob <$> images).
Proof.
  induction images as [|image images IH]; intros used entries Hnames Hdup.
  { exists used, entries. cbn. now rewrite app_nil_r. }
  cbn [foldl mbind option_bind].
  destruct (addImage_new_name used entries image Hnames)
    as (name & -> & Hfree).
  destruct (IH ({[name]} ∪ used) (entries ++ [(name, blob image)]))
    as (used' & entries' & -> & Hdup' & Hblobs).
  - intros n. rewrite fmap_app, elem_of_app, elem_of_union, Hnames.
    cbn. rewrite list_elem_of_singleton, elem_of_singleton. tauto.
  - rewrite fmap_app. apply NoDup_app. split; [exact Hdup|]. split.
    + intros n Hn Hin. cbn in Hin. apply list_elem_of_singleton in Hin.
      subst n. now apply Hnames in Hn.
    + cbn. apply NoDup_singleton.
  - exists used', entries'. split; [reflexivity|]. split; [exact Hdup'|].
    rewrite Hblobs, fmap_app, <- app_assoc. reflexivity.
Qed.

(** X13. [generateZip] puts every image into the archive under a name of its
    own: whatever the file names, duplicates included, the loop that numbers a
    duplicate ends, the names of the entries are pairwise different, and the
    entries hold the blobs of the images in their order, so [fileCount] is the
    number of entries. *)
Theorem generateZip_distinct_names (images : list ZipImageItem) :
  exists entries : list (string * Blob),
    generateZip images = Some (entries, length images)
    /\ NoDup entries.*1
    /\ entries.*2 = blob <$> images
    /\ length entries = length images.
Proof.
  destruct (addImage_all images ∅ []) as (used & entries & H & Hdup & Hblobs).
  - intros name. cbn. split; intros Hin.
    + now apply elem_of_nil in Hin.
    + now apply elem_of_empty in Hin.
  - apply NoDup_nil_2.
  - exists entries. unfold generateZip. rewrite H. cbn in *.
    repeat split; try assumption.
    rewrite <- (length_fmap snd), Hblobs. apply length_fmap.
Qed.

Lemma append_assoc (s1 s2 s3 : string) :
  (s1 +:+ s2) +:+ s3 = s1 +:+ (s2 +:+ s3).
Proof.
  induction s1 as [|a s1 IH]; [reflexivity|].
  rewrite !append_cons. now rewrite IH.
Qed.

Lemma length_append (s1 s2 : string) :
  String.length (s1 +:+ s2) = (String.length s1 + String.length s2)%nat.
Proof.
  induction s1 as [|a s1 IH]; [reflexivity|].
  rewrite append_cons. cbn [String.length]. now rewrite IH.
Qed.

Lemma substring_all (s : string) :
  String.substring 0 (String.length s) s = s.
Proof.
  induction s as [|a s IH]; [reflexivity|].
  cbn [String.length String.substring]. now rewrite IH.
Qed.

Lemma substring_suffix (s1 s2 : string) :
  String.substring (String.length s1) (String.length s2) (s1 +:+ s2) = s2.
Proof.
  induction s1 as [|a s1 IH].
  - rewrite append_empty. apply substring_all.
  - rewrite append_cons. cbn [String.length String.substring]. exact IH.
Qed.

(** The generated name, cut at its last dot. *)
Lemma generated_name_parts (name : string) (format' : Types.OutputFormat) :
  let filename := FileHelpers.generateCompressedFilename name format' in
  filename
  = (Spec.stem name +:+ "_compressed") +:+ "." +:+ Spec.extensionOf format'
  /\ substring filename 0 (FileHelpers.lastIndexOf "." filename)
     = Spec.stem name +:+ "_compressed"
  /\ substringFrom filename (FileHelpers.lastIndexOf "." filename)
     = "." +:+ Spec.extensionOf format'.
Proof.
  cbv zeta.
  assert (Hname : FileHelpers.generateCompressedFilename name format'
    = (Spec.stem name +:+ "_compressed") +:+ "."
      +:+ Spec.extensionOf format').
  { unfold FileHelpers.generateCompressedFilename, Spec.stem.
    rewrite extension_extensionOf, append_assoc. reflexivity. }
  rewrite Hname. split; [reflexivity|].
  set (base := Spec.stem name +:+ "_compressed").
  assert (Hdot : FileHelpers.lastIndexOf "." (base +:+ "."
                   +:+ Spec.extensionOf format')
                 = Z.of_nat (String.length base)).
  { apply (lastIndexOf_last "." base (Spec.extensionOf format')).
    now destruct format'. }
  rewrite Hdot. unfold substringFrom, substring.
  rewrite length_append.
  set (rest := "." +:+ Spec.extensionOf format').
  replace (Z.to_nat (Z.max 0 (Z.min 0
             (Z.of_nat (String.length base + String.length rest)))))
    with 0%nat by lia.
  replace (Z.to_nat (Z.max 0 (Z.min (Z.of_nat (String.length base))
             (Z.of_nat (String.length base + String.length rest)))))
    with (String.length base) by lia.
  replace (Z.to_nat (Z.max 0 (Z.min
             (Z.of_nat (String.length base + String.length rest))
             (Z.of_nat (String.length base + String.length rest)))))
    with (String.length base + String.length rest)%nat by lia.
  rewrite Nat.min_0_l, Nat.max_0_l, Nat.sub_0_r.
  rewrite Nat.min_l, Nat.max_r by lia.
  split.
  - apply substring_prefix.
  - replace (String.length base + String.length rest - String.length base)%nat
      with (String.length rest) by lia.
    apply substring_suffix.
Qed.

(** X14. Two images of the same file name and format: the first is stored
    under the generated name and the second under that name with [_1] before
    the extension. *)
Theorem generateZip_numbers_duplicate (first second : ZipImageItem) :
  originalFilename second = originalFilename first ->
  format second = format first ->
  generateZip [first; second]
  = Some ([(Spec.stem (originalFilename first) +:+ "_compressed."
              +:+ Spec.extensionOf (format first), blob first);
           (Spec.stem (originalFilename first) +:+ "_compressed_1."
              +:+ Spec.extensionOf (format first), blob second)],
          2%nat).
Proof.
  intros Hname Hformat. unfold generateZip.
  cbn [foldl mbind option_bind]. unfold addImage at 2.
  destruct (generated_name_parts (originalFilename first) (format first))
    as (Hfile & Hbase & Hextension).
  cbv zeta in Hfile, Hbase, Hextension.
  set (filename := FileHelpers.generateCompressedFilename
                     (originalFilename first) (format first)) in *.
  destruct (decide (filename ∈ (∅ : gset string))) as [Hin|_].
  { now apply elem_of_empty in Hin. }
  cbn [mbind option_bind]. unfold file at 1. cbn [fmap list_fmap fst].
  destruct (decide (filename ∈ [])) as [Hin|_].
  { now apply elem_of_nil in Hin. }
  cbn [app]. unfold addImage. rewrite Hname, Hformat. fold filename.
  destruct (decide (filename ∈ {[filename]} ∪ (∅ : gset string)))
    as [_|Hout].
  2: { exfalso. apply Hout, elem_of_union. left.
       now apply elem_of_singleton. }
  rewrite Hbase, Hextension.
  set (base := Spec.stem (originalFilename first) +:+ "_compressed") in *.
  set (extension := "." +:+ Spec.extensionOf (format first)) in *.
  assert (Hfree : numbered base extension 1
                  ∉ {[filename]} ∪ (∅ : gset string)).
  { intros Hin. apply elem_of_union in Hin as [Hin|Hin].
    - apply elem_of_singleton in Hin. rewrite Hfile in Hin.
      unfold numbered in Hin. apply String.app_inj in Hin.
      subst extension. discriminate Hin.
    - now apply elem_of_empty in Hin. }
  cbn [freeCounter]. rewrite decide_False by exact Hfree.
  cbn [mbind option_bind]. unfold file.
  rewrite decide_False.
  2: { cbn. intros Hin. apply list_elem_of_singleton in Hin.
       apply Hfree, elem_of_union. left. now apply elem_of_singleton. }
  cbn [app snd length]. rewrite Hfile. unfold numbered. subst base extension.
  rewrite !append_assoc. reflexivity.
Qed.

Lemma generateZip_numbers_duplicate_witness :
  generateZip
    [ {| blob := "first"; originalFilename := "photo.png";
         format := Types.jpeg |};
      {| blob := "second"; originalFilename := "photo.png";
         format := Types.jpeg |} ]
  = Some ([("photo_compressed.jpg", "first");
           ("photo_compressed_1.jpg", "second")], 2%nat).
Proof.
  apply (generateZip_numbers_duplicate
           {| blob := "first"; originalFilename := "photo.png";
              format := Types.jpeg |}
           {| blob := "second"; originalFilename := "photo.png";
              format := Types.jpeg |}); reflexivity.
Defined.

End Zip.

(** ** More on the batch scheduler *)
Section Scheduler.
Import BatchProcessing Spec.

(** *** What the steps leave as it is *)

Ltac next_cases s :=
  unfold processNextInQueue;
  destruct (aborted s); [|
    destruct (getAvailableWorker (workerPool s)); [
      destruct (pendingQueue s) as [|[? ?] ?]; [|
        cbn [optionsRef setPendingQueue]; destruct (optionsRef s)]|]].

Lemma processNextInQueue_abortController (now : Z) (s : State) :
  abortController (processNextInQueue now s) = abortController s.
Proof. next_cases s; reflexivity. Qed.

Lemma checkCompletion_fields (s : State) :
  abortController (checkCompletion s) = abortController s
  /\ workerPool (checkCompletion s) = workerPool s
  /\ pendingQueue (checkCompletion s) = pendingQueue s
  /\ completedCount (checkCompletion s) = completedCount s
  /\ totalCount (checkCompletion s) = totalCount s
  /\ images (checkCompletion s) = images s.
Proof. unfold checkCompletion. now destruct (_ && _). Qed.

Lemma eligible_cons (imgs : list ImageStore.ImageFile) (imageId' : string)
    (imageIds : list string) :
  eligible imgs (imageId' :: imageIds)
  = eligible imgs [imageId'] ++ eligible imgs imageIds.
Proof.
  unfold eligible. cbn [omap list_omap].
  destruct (List.find _ imgs) as [image|]; [|reflexivity].
  now destruct (ImageStore.status image).
Qed.

Lemma enqueueImage_fields (imageId' : string) (s : State)
    (queueItems : list ProcessingStore.ProcessingQueueItem) :
  exists s' queueItems',
    enqueueImage imageId' (s, queueItems) = (s', queueItems')
    /\ pendingQueue s' = pendingQueue s ++ eligible (images s) [imageId']
    /\ abortController s' = abortController s
    /\ workerPool s' = workerPool s
    /\ optionsRef s' = optionsRef s
    /\ completedCount s' = completedCount s
    /\ totalCount s' = totalCount s
    /\ images s' = images s
    /\ isProcessing s' = isProcessing s
    /\ error s' = error s.
Proof.
  unfold enqueueImage, eligible. cbn [omap list_omap].
  destruct (List.find _ (images s)) as [image|].
  2: { exists s, queueItems. rewrite app_nil_r. repeat split. }
  destruct (ImageStore.status image); eexists _, _;
    (split; [reflexivity|]); cbn; rewrite ?app_nil_r; repeat split.
Qed.

Lemma enqueueImage_fold (imageIds : list string) :
  forall (s : State) (queueItems : list ProcessingStore.ProcessingQueueItem),
  let result :=
    fold_left (fun acc imageId' => enqueueImage imageId' acc) imageIds
              (s, queueItems) in
  pendingQueue (fst result)
  = pendingQueue s ++ eligible (images s) imageIds
  /\ abortController (fst result) = abortController s
  /\ workerPool (fst result) = workerPool s
  /\ optionsRef (fst result) = optionsRef s
  /\ completedCount (fst result) = completedCount s
  /\ totalCount (fst result) = totalCount s
  /\ images (fst result) = images s
  /\ isProcessing (fst result) = isProcessing s
  /\ error (fst result) = error s.
Proof.
  induction imageIds as [|i imageIds IH]; intros s queueItems; cbv zeta.
  { cbn. rewrite app_nil_r. repeat split. }
  cbv zeta in IH. cbn [fold_left].
  destruct (enqueueImage_fields i s queueItems)
    as (s' & q' & -> & E1 & E2 & E3 & E4 & E5 & E6 & E7 & E8 & E9).
  destruct (IH s' q') as (H1 & H2 & H3 & H4 & H5 & H6 & H7 & H8 & H9).
  rewrite H1, H2, H3, H4, H5, H6, H7, H8, H9.
  rewrite E1, E2, E3, E4, E5, E6, E7, E8, E9.
  rewrite <- app_assoc, <- eligible_cons. repeat split.
Qed.

(** [processBatch] up to the dispatch loop. *)
Lemma processBatch_prepared (now : Z) (imageIds : list string)
    (options : Types.CompressionOptions) (s : State) :
  imageIds <> [] ->
  exists prepared : State,
    fst (processBatch now imageIds options s)
    = Nat.iter Types.MAX_CONCURRENT_PROCESSING (processNextInQueue now)
               prepared
    /\ pendingQueue prepared = eligible (images s) imageIds
    /\ abortController prepared = Some false
    /\ workerPool prepared
       = repeat idleWorker Types.MAX_CONCURRENT_PROCESSING
    /\ optionsRef prepared
       = Some (Compressor.validateCompressionOptions options)
    /\ completedCount prepared = 0%nat
    /\ totalCount prepared = length imageIds
    /\ images prepared = images s
    /\ isProcessing prepared = true
    /\ error prepared = None.
Proof.
  intros Hne. unfold processBatch.
  destruct imageIds as [|i imageIds]; [contradiction|].
  cbn [length Nat.eqb].
  match goal with
  | |- context [fold_left ?f ?l (?st, ?q)] =>
      destruct (enqueueImage_fold l st q)
        as (H1 & H2 & H3 & H4 & H5 & H6 & H7 & H8 & H9);
      destruct (fold_left f l (st, q)) as [s' queueItems]
  end.
  cbn [fst] in *.
  eexists. split; [reflexivity|].
  cbn [pendingQueue abortController workerPool optionsRef completedCount
       totalCount images isProcessing error setProcessingStore].
  rewrite H1, H2, H3, H4, H5, H6, H7, H8, H9. repeat split.
Qed.

Lemma iter_abortController (now : Z) (n : nat) (s : State) :
  abortController (Nat.iter n (processNextInQueue now) s) = abortController s.
Proof.
  induction n as [|n IH]; [reflexivity|].
  cbn [Nat.iter nat_rect]. now rewrite processNextInQueue_abortController.
Qed.

Lemma handleMessage_abortController (now : Z) (w : nat) (imageId' : string)
    (response : WorkerResponse) (s : State) :
  abortController (fst (handleMessage now w imageId' response s))
  = abortController s.
Proof.
  unfold handleMessage. destruct (aborted s); [reflexivity|].
  destruct response as [[p|]|[result|]|workerError]; cbn [fst];
    rewrite ?(proj1 (checkCompletion_fields _)),
      ?processNextInQueue_abortController;
    reflexivity.
Qed.

Lemma fileRead_abortController (now : Z) (w : nat) (imageId' : string)
    (rejection : option string) (s : State) :
  abortController (fileRead now w imageId' rejection s) = abortController s.
Proof.
  unfold fileRead. destruct rejection.
  - now rewrite (proj1 (checkCompletion_fields _)),
      processNextInQueue_abortController.
  - now destruct (aborted s).
Qed.

Lemma step_abortController (now : Z) (s : State) (e : Event) :
  abortController s <> Some true ->
  abortController (step now s e) <> Some true.
Proof.
  intros Hs.
  destruct e as [imageIds options| |w response|w imageId' rejection];
    cbn [step].
  - destruct (decide (imageIds = [])) as [->|Hne]; [exact Hs|].
    destruct (processBatch_prepared now imageIds options s Hne)
      as (prepared & -> & _ & Habort & _).
    now rewrite iter_abortController, Habort.
  - discriminate.
  - destruct (workerPool s !! w) as [[b c [imageId'|]]|]; try exact Hs.
    now rewrite handleMessage_abortController.
  - now rewrite fileRead_abortController.
Qed.

(** X15. The abort checks never fire: [cancel] drops the controller it aborts
    and [processBatch] installs a new one, so after any events no handler
    finds an aborted signal. *)
Theorem scheduler_never_aborted (imgs : list ImageStore.ImageFile)
    (events : list (Z * Event)) :
  aborted (run events (initialState imgs)) = false.
Proof.
  assert (H : forall s, abortController s <> Some true ->
                        abortController (run events s) <> Some true).
  { induction events as [|[now e] events IH]; intros s Hs; [exact Hs|].
    unfold run in *. cbn [fold_left]. apply IH.
    now apply step_abortController. }
  specialize (H (initialState imgs)). unfold aborted.
  destruct (abortController (run events (initialState imgs))) as [[|]|];
    try reflexivity.
  exfalso. apply H; [discriminate|reflexivity].
Qed.

(** *** The worker pool *)

(** Counting the workers that pass a test, before and after one of them is
    altered. *)
Lemma count_alter (p : WorkerInstance -> bool)
    (f : WorkerInstance -> WorkerInstance) (w : nat)
    (pool : list WorkerInstance) :
  let weight (x : option WorkerInstance) : nat :=
    match x with
    | Some wi => if p wi then 1%nat else 0%nat
    | None => 0%nat
    end in
  (length (List.filter p (alter f w pool)) + weight (pool !! w)
   = length (List.filter p pool) + weight (f <$> pool !! w))%nat.
Proof.
  cbv zeta. revert w. induction pool as [|wi pool IH]; intros w.
  { reflexivity. }
  destruct w as [|w].
  - cbn. destruct (p (f wi)), (p wi); simpl; lia.
  - change (alter f (S w) (wi :: pool)) with (wi :: alter f w pool).
    change ((wi :: pool) !! S w) with (pool !! w).
    cbn [List.filter].
    specialize (IH w). destruct (p wi); cbn [length]; lia.
Qed.

Lemma handlers_dispatch (imageId' : string) (w : nat)
    (pool : list WorkerInstance) :
  (handlers (alter (fun _ => working imageId') w pool)
   <= S (handlers pool))%nat.
Proof.
  unfold handlers.
  pose proof (count_alter
    (fun w => match onmessage w with Some _ => true | None => false end)
    (fun _ => working imageId') w pool) as H.
  cbv zeta in H. destruct (pool !! w) as [wi|]; cbn in H; [|lia].
  destruct (onmessage wi); lia.
Qed.

Lemma handlers_release (w : nat) (pool : list WorkerInstance) :
  handlers (alter (fun wi => {| busy := false; currentImageId := None;
                                onmessage := onmessage wi |}) w pool)
  = handlers pool.
Proof.
  unfold handlers.
  pose proof (count_alter
    (fun w => match onmessage w with Some _ => true | None => false end)
    (fun wi => {| busy := false; currentImageId := None;
                  onmessage := onmessage wi |}) w pool) as H.
  cbv zeta in H. destruct (pool !! w) as [wi|]; cbn in H; [|lia].
  destruct (onmessage wi); lia.
Qed.

Lemma handlers_clear (w : nat) (pool : list WorkerInstance)
    (wi : WorkerInstance) :
  pool !! w = Some wi -> is_Some (onmessage wi) ->
  S (handlers (alter (fun wi => {| busy := false; currentImageId := None;
                                   onmessage := None |}) w pool))
  = handlers pool.
Proof.
  intros Hw [i Hi]. unfold handlers.
  pose proof (count_alter
    (fun w => match onmessage w with Some _ => true | None => false end)
    (fun wi => {| busy := false; currentImageId := None;
                  onmessage := None |}) w pool) as H.
  cbv zeta in H. rewrite Hw in H. cbn in H. rewrite Hi in H. lia.
Qed.

(** The items still to finish: those with a handler installed and those
    pending. *)
Lemma processNextInQueue_accounted (now : Z) (s : State) :
  (handlers (workerPool (processNextInQueue now s))
   + length (pendingQueue (processNextInQueue now s))
   <= handlers (workerPool s) + length (pendingQueue s))%nat
  /\ completedCount (processNextInQueue now s) = completedCount s
  /\ length (workerPool (processNextInQueue now s)) = length (workerPool s).
Proof.
  unfold processNextInQueue.
  destruct (aborted s); [repeat split; lia|].
  destruct (getAvailableWorker (workerPool s)) as [w|]; [|repeat split; lia].
  destruct (pendingQueue s) as [|[imageId' f] rest] eqn:E;
    [repeat split; rewrite E; lia|].
  cbn [optionsRef setPendingQueue].
  destruct (optionsRef s).
  - cbn [workerPool pendingQueue completedCount setProcessingStore setImages
         setIndividualProgress setWorkerPool setPendingQueue length].
    rewrite length_alter.
    pose proof (handlers_dispatch imageId' w (workerPool s)).
    unfold working in *. repeat split. lia.
  - cbn [workerPool pendingQueue completedCount setPendingQueue length].
    repeat split. lia.
Qed.

Ltac state_fields :=
  cbn [workerPool pendingQueue completedCount totalCount abortController
       images optionsRef isProcessing error individualProgress
       processingStore
       releaseWorker markError setWorkerPool setPendingQueue
       setCompletedCount setTotalCount setIndividualProgress setImages
       setProcessingStore setIsProcessing setError setAbortController
       setOptionsRef] in *.

Ltac next_facts :=
  match goal with
  | |- context [processNextInQueue ?now ?x] =>
      pose proof (processNextInQueue_accounted now x) as (? & ? & ?);
      pose proof (processNextInQueue_totalCount now x);
      generalize dependent (processNextInQueue now x); intros
  end.

Lemma checkCompletion_accounted (s : State) :
  accounted s -> poolSized s ->
  accounted (checkCompletion s) /\ poolSized (checkCompletion s).
Proof.
  unfold accounted, poolSized.
  destruct (checkCompletion_fields s) as (_ & -> & -> & -> & -> & _).
  auto.
Qed.

Lemma handleMessage_accounted (now : Z) (w : nat) (imageId' : string)
    (response : WorkerResponse) (s : State) (wi : WorkerInstance) :
  workerPool s !! w = Some wi -> is_Some (onmessage wi) ->
  accounted s -> poolSized s ->
  accounted (fst (handleMessage now w imageId' response s))
  /\ poolSized (fst (handleMessage now w imageId' response s)).
Proof.
  intros Hw Hwi Hs Hpool. unfold handleMessage.
  destruct (aborted s); [now split|].
  pose proof (handlers_clear w (workerPool s) wi Hw Hwi) as Hclear.
  assert (Hlen : length (workerPool s) = Types.MAX_CONCURRENT_PROCESSING).
  { destruct Hpool as [Hnil|Hlen]; [|exact Hlen].
    rewrite Hnil in Hw. discriminate Hw. }
  destruct response as [[p|]|[result|]|workerError]; cbn [fst];
    try (now split); try (apply checkCompletion_accounted).
  all: try split.
  all: unfold accounted, poolSized in *; try next_facts; state_fields.
  all: rewrite ?length_alter in *; try lia; right; lia.
Qed.

Lemma fileRead_accounted (now : Z) (w : nat) (imageId' : string)
    (rejection : option string) (s : State) :
  accounted s -> poolSized s ->
  accounted (fileRead now w imageId' rejection s)
  /\ poolSized (fileRead now w imageId' rejection s).
Proof.
  intros Hs Hpool. unfold fileRead.
  pose proof (handlers_release w (workerPool s)) as Hrelease.
  assert (Hsized : forall f,
    workerPool s = []
    \/ length (workerPool s) = Types.MAX_CONCURRENT_PROCESSING ->
    alter f w (workerPool s) = []
    \/ length (alter f w (workerPool s)) = Types.MAX_CONCURRENT_PROCESSING).
  { intros f [Hnil|Hlen]; [left; now rewrite Hnil|right].
    now rewrite length_alter. }
  destruct rejection as [message|].
  - apply checkCompletion_accounted.
    + unfold accounted, poolSized in *; next_facts; state_fields. lia.
    + unfold accounted, poolSized in *; next_facts; state_fields.
      destruct (Hsized (fun wi => {| busy := false; currentImageId := None;
                                     onmessage := onmessage wi |}) Hpool)
        as [Hnil|Hlen]; [|right; lia].
      rewrite Hnil in *. left. now apply nil_length_inv.
  - destruct (aborted s); [|now split].
    unfold accounted, poolSized in *. state_fields. split; [lia|].
    now apply Hsized.
Qed.

Lemma iter_accounted (now : Z) (n : nat) (s : State) :
  (handlers (workerPool (Nat.iter n (processNextInQueue now) s))
   + length (pendingQueue (Nat.iter n (processNextInQueue now) s))
   <= handlers (workerPool s) + length (pendingQueue s))%nat
  /\ completedCount (Nat.iter n (processNextInQueue now) s)
     = completedCount s
  /\ length (workerPool (Nat.iter n (processNextInQueue now) s))
     = length (workerPool s)
  /\ totalCount (Nat.iter n (processNextInQueue now) s) = totalCount s.
Proof.
  induction n as [|n (IH1 & IH2 & IH3 & IH4)];
    [cbn [Nat.iter nat_rect]; repeat split; lia|].
  cbn [Nat.iter nat_rect].
  destruct (processNextInQueue_accounted now
              (Nat.iter n (processNextInQueue now) s)) as (H1 & H2 & H3).
  rewrite processNextInQueue_totalCount.
  change (nat_rect (fun _ => State) s (fun _ => processNextInQueue now) n)
    with (Nat.iter n (processNextInQueue now) s).
  repeat split; lia.
Qed.

Lemma eligible_length (imgs : list ImageStore.ImageFile)
    (imageIds : list string) :
  (length (eligible imgs imageIds) <= length imageIds)%nat.
Proof.
  induction imageIds as [|i imageIds IH]; [reflexivity|].
  rewrite eligible_cons, length_app. cbn [length].
  assert (length (eligible imgs [i]) <= 1)%nat; [|lia].
  unfold eligible. cbn [omap list_omap].
  destruct (List.find _ imgs) as [image|]; [|cbn; lia].
  destruct (ImageStore.status image); cbn; lia.
Qed.

Lemma step_accounted (now : Z) (s : State) (e : Event) :
  accounted s -> poolSized s ->
  accounted (step now s e) /\ poolSized (step now s e).
Proof.
  intros Hs Hpool.
  destruct e as [imageIds options| |w response|w imageId' rejection];
    cbn [step].
  - destruct (decide (imageIds = [])) as [->|Hne]; [now split|].
    destruct (processBatch_prepared now imageIds options s Hne)
      as (prepared & -> & Hpending & _ & Hworkers & _ & Hdone & Htotal & _).
    destruct (iter_accounted now Types.MAX_CONCURRENT_PROCESSING prepared)
      as (H1 & H2 & H3 & H4).
    pose proof (eligible_length (images s) imageIds).
    assert (Hidle : handlers (workerPool prepared) = 0%nat)
      by now rewrite Hworkers.
    assert (Hlen : length (workerPool prepared)
                   = Types.MAX_CONCURRENT_PROCESSING)
      by now rewrite Hworkers.
    unfold accounted, poolSized. rewrite Hpending in H1.
    split; [lia|]. right. lia.
  - unfold accounted, poolSized in *. cbn. split; [lia|now left].
  - destruct (workerPool s !! w) as [[b c [imageId'|]]|] eqn:Hw;
      try (now split).
    eapply handleMessage_accounted; eauto.
  - now apply fileRead_accounted.
Qed.

Lemma run_accounted (imgs : list ImageStore.ImageFile)
    (events : list (Z * Event)) :
  accounted (run events (initialState imgs))
  /\ poolSized (run events (initialState imgs)).
Proof.
  assert (H : forall s, accounted s -> poolSized s ->
                        accounted (run events s) /\ poolSized (run events s)).
  { induction events as [|[now e] events IH]; intros s Hs Hpool;
      [now split|].
    unfold run in *. cbn [fold_left].
    destruct (step_accounted now s e Hs Hpool). now apply IH. }
  apply H.
  - unfold accounted. cbn. lia.
  - now left.
Qed.

(** X16. At most four images are with a worker at any time: after any events
    the pool is empty or has four workers, so no more than four are busy. *)
Theorem worker_pool_limit (imgs : list ImageStore.ImageFile)
    (events : list (Z * Event)) :
  let pool := workerPool (run events (initialState imgs)) in
  (pool = [] \/ length pool = Types.MAX_CONCURRENT_PROCESSING)
  /\ (busyWorkers pool <= Types.MAX_CONCURRENT_PROCESSING)%nat.
Proof.
  cbv zeta. destruct (run_accounted imgs events) as [_ Hpool].
  split; [exact Hpool|].
  unfold busyWorkers.
  pose proof (filter_length_le busy
                (workerPool (run events (initialState imgs)))) as Hle.
  destruct Hpool as [Hnil|Hlen].
  - rewrite Hnil. cbn. lia.
  - lia.
Qed.

(** X17. The count of completed images never exceeds the size of the batch,
    whatever messages the workers send. *)
Theorem completedCount_within_batch (imgs : list ImageStore.ImageFile)
    (events : list (Z * Event)) :
  (completedCount (run events (initialState imgs))
   <= totalCount (run events (initialState imgs)))%nat.
Proof.
  destruct (run_accounted imgs events) as [Hs _].
  unfold accounted in Hs. lia.
Qed.

(** *** Dispatch *)

Lemma getAvailableWorker_first (ids : list string)
    (rest : list WorkerInstance) :
  getAvailableWorker ((working <$> ids) ++ idleWorker :: rest)
  = Some (length ids).
Proof.
  induction ids as [|i ids IH]; [reflexivity|].
  cbn [fmap list_fmap app getAvailableWorker working busy negb length].
  change (list_fmap _ _ working ids) with (working <$> ids).
  now rewrite IH.
Qed.

Lemma processNextInQueue_nothing_pending (now : Z) (s : State) :
  pendingQueue s = [] -> processNextInQueue now s = s.
Proof.
  intros Hpending. unfold processNextInQueue. rewrite Hpending.
  destruct (aborted s); [reflexivity|].
  now destruct (getAvailableWorker (workerPool s)).
Qed.

Lemma processNextInQueue_dispatch (now : Z) (s : State)
    (ids : list string) (m : nat) (imageId' : string) (f : ImageStore.File)
    (rest : list (string * ImageStore.File)) :
  abortController s = Some false -> is_Some (optionsRef s) ->
  workerPool s = (working <$> ids) ++ repeat idleWorker (S m) ->
  pendingQueue s = (imageId', f) :: rest ->
  let s' := processNextInQueue now s in
  workerPool s' = (working <$> (ids ++ [imageId'])) ++ repeat idleWorker m
  /\ pendingQueue s' = rest
  /\ abortController s' = Some false
  /\ optionsRef s' = optionsRef s
  /\ isProcessing s' = isProcessing s.
Proof.
  intros Habort [o Ho] Hpool Hpending. cbv zeta.
  unfold processNextInQueue, aborted.
  rewrite Habort, Hpool, Hpending. cbn [repeat].
  rewrite getAvailableWorker_first.
  cbn [optionsRef setPendingQueue]. rewrite Ho.
  cbn [workerPool pendingQueue abortController optionsRef isProcessing
       setProcessingStore setImages setIndividualProgress setWorkerPool
       setPendingQueue].
  rewrite Hpool. cbn [repeat].
  replace (length ids) with (length (working <$> ids) + 0)%nat
    by (rewrite length_fmap; lia).
  rewrite alter_app_r. cbn [alter list_alter].
  rewrite fmap_app, <- app_assoc. repeat split; assumption.
Qed.

Lemma iter_dispatch (now : Z) (n : nat) :
  forall (s : State) (ids : list string) (m : nat),
  (n <= m)%nat ->
  abortController s = Some false -> is_Some (optionsRef s) ->
  workerPool s = (working <$> ids) ++ repeat idleWorker m ->
  let s' := Nat.iter n (processNextInQueue now) s in
  workerPool s'
  = (working <$> (ids ++ (take n (pendingQueue s)).*1))
    ++ repeat idleWorker (m - length (take n (pendingQueue s)))
  /\ pendingQueue s' = drop n (pendingQueue s)
  /\ isProcessing s' = isProcessing s.
Proof.
  induction n as [|n IH]; intros s ids m Hn Habort Hoptions Hpool; cbv zeta.
  { cbn [Nat.iter nat_rect take drop fmap list_fmap length].
    rewrite app_nil_r, Nat.sub_0_r. now split. }
  rewrite Nat.iter_succ_r.
  destruct (pendingQueue s) as [|[imageId' f] rest] eqn:Hpending.
  - rewrite processNextInQueue_nothing_pending by assumption.
    destruct m as [|m]; [lia|].
    destruct (IH s ids (S m)) as (H1 & H2 & H3); try assumption; [lia|].
    rewrite H1, H2, H3, Hpending.
    cbn [take drop fmap list_fmap length].
    now rewrite take_nil, drop_nil.
  - destruct m as [|m]; [lia|].
    destruct (processNextInQueue_dispatch now s ids m imageId' f rest)
      as (E1 & E2 & E3 & E4 & E5); try assumption.
    destruct (IH (processNextInQueue now s) (ids ++ [imageId']) m)
      as (H1 & H2 & H3); try assumption; [lia|now rewrite E4|].
    rewrite H1, H2, H3, E2, E5.
    cbn [take drop fmap list_fmap length fst].
    rewrite <- app_assoc. cbn [app Nat.sub]. now split.
Qed.

Lemma processBatch_workers (now : Z) (imageIds : list string)
    (options : Types.CompressionOptions) (s : State) :
  imageIds <> [] ->
  let queue := eligible (images s) imageIds in
  let s' := fst (processBatch now imageIds options s) in
  workerPool s'
  = (working <$> (take Types.MAX_CONCURRENT_PROCESSING queue).*1)
    ++ repeat idleWorker (Types.MAX_CONCURRENT_PROCESSING - length queue)
  /\ pendingQueue s' = drop Types.MAX_CONCURRENT_PROCESSING queue
  /\ isProcessing s' = true
  /\ totalCount s' = length imageIds.
Proof.
  intros Hne queue s'. subst queue s'.
  split; [|split; [|split]]; [| | |now apply processBatch_totalCount].
  all: destruct (processBatch_prepared now imageIds options s Hne)
         as (prepared & -> & Hpending & Habort & Hworkers & Hoptions & _
             & _ & _ & Hprocessing & _).
  all: destruct (iter_dispatch now Types.MAX_CONCURRENT_PROCESSING prepared
                   [] Types.MAX_CONCURRENT_PROCESSING)
         as (H1 & H2 & H3);
         [lia|assumption|now rewrite Hoptions|exact Hworkers|].
  all: rewrite Hpending in *.
  - rewrite H1. cbn [app]. f_equal. f_equal.
    rewrite length_take. unfold Types.MAX_CONCURRENT_PROCESSING. lia.
  - exact H2.
  - now rewrite H3.
Qed.

(** X18. [processBatch] hands the first four items of the batch that are not
    complete, in the order of the ids, to the workers 0 to 3 and leaves the
    following ones pending; with fewer than four items the remaining workers
    stay idle. *)
Theorem processBatch_dispatch (now : Z) (imageIds : list string)
    (options : Types.CompressionOptions) (s : State) :
  imageIds <> [] ->
  let queue := eligible (images s) imageIds in
  let s' := fst (processBatch now imageIds options s) in
  workerPool s'
  = (working <$> (take Types.MAX_CONCURRENT_PROCESSING queue).*1)
    ++ repeat idleWorker (Types.MAX_CONCURRENT_PROCESSING - length queue)
  /\ pendingQueue s' = drop Types.MAX_CONCURRENT_PROCESSING queue
  /\ isProcessing s' = true
  /\ totalCount s' = length imageIds.
Proof. exact (processBatch_workers now imageIds options s). Qed.

Lemma processBatch_dispatch_witness :
  workerPool (fst (processBatch 0 ["a"; "b"] Examples.fullHD
                     (initialState Examples.twoImages)))
  = [working "a"; idleWorker; idleWorker; idleWorker]
  /\ pendingQueue (fst (processBatch 0 ["a"; "b"] Examples.fullHD
                          (initialState Examples.twoImages))) = [].
Proof.
  destruct (processBatch_dispatch 0 ["a"; "b"] Examples.fullHD
              (initialState Examples.twoImages)) as (Hpool & Hpending & _).
  - discriminate.
  - split; [exact Hpool|exact Hpending].
Defined.

(** X19. A batch in which no image can be queued, every id unknown or its
    image complete, is never finished: [processBatch] leaves [isProcessing]
    set with nothing pending and no worker busy, and no message of a worker
    changes the state afterwards. *)
Theorem processBatch_nothing_eligible (now : Z) (imageIds : list string)
    (options : Types.CompressionOptions) (s : State)
    (events : list (Z * Event)) :
  imageIds <> [] -> eligible (images s) imageIds = [] ->
  Forall (fun e => isWorkerMessage (snd e)) events ->
  let s' := fst (processBatch now imageIds options s) in
  isProcessing s' = true
  /\ pendingQueue s' = []
  /\ busyWorkers (workerPool s') = 0%nat
  /\ run events s' = s'.
Proof.
  intros Hne Hnone Hevents s'.
  destruct (processBatch_workers now imageIds options s Hne)
    as (Hpool & Hpending & Hprocessing & _).
  fold s' in Hpool, Hpending, Hprocessing.
  rewrite Hnone in Hpool, Hpending. cbn in Hpool, Hpending.
  split; [exact Hprocessing|]. split; [exact Hpending|].
  split; [now rewrite Hpool|].
  generalize dependent s'. intros s' Hpool _ _.
  induction events as [|[now' e] events IH]; [reflexivity|].
  apply Forall_cons in Hevents as [He Hevents].
  unfold run in *. cbn [fold_left].
  destruct e as [| |w response|]; cbn [isWorkerMessage snd] in He;
    try contradiction.
  cbn [step]. rewrite Hpool.
  destruct w as [|[|[|[|w]]]]; cbn; now apply IH.
Qed.

Lemma processBatch_nothing_eligible_witness :
  isProcessing (fst (processBatch 0 ["b"; "c"] Examples.fullHD
                       (initialState Examples.twoImages))) = true
  /\ run [(1%Z, WorkerMessage 0 (CompleteMessage None))]
         (fst (processBatch 0 ["b"; "c"] Examples.fullHD
                 (initialState Examples.twoImages)))
     = fst (processBatch 0 ["b"; "c"] Examples.fullHD
              (initialState Examples.twoImages)).
Proof.
  destruct (processBatch_nothing_eligible 0 ["b"; "c"] Examples.fullHD
              (initialState Examples.twoImages)
              [(1%Z, WorkerMessage 0 (CompleteMessage None))])
    as (Hprocessing & _ & _ & Hrun).
  - discriminate.
  - reflexivity.
  - repeat constructor.
  - split; [exact Hprocessing|exact Hrun].
Defined.

(** *** Cancellation *)

Lemma cancel_progress (records prev : gmap string BatchProcessingProgress)
    (k : string) :
  map_fold (fun imageId' item prev =>
              if active item
              then <[imageId' := {| imageId := imageId item;
                                    progress := JS.ofZ 0;
                                    status := ProcessingStore.error |}]> prev
              else prev) prev records !! k
  = match records !! k with
    | Some item => if active item then Some (cancelled item) else prev !! k
    | None => prev !! k
    end.
Proof.
  revert k.
  apply (map_fold_weak_ind
           (fun r (m : gmap string BatchProcessingProgress) =>
              forall k,
                r !! k
                = match m !! k with
                  | Some item =>
                      if active item then Some (cancelled item)
                      else prev !! k
                  | None => prev !! k
                  end)).
  { intros k. now rewrite lookup_empty. }
  intros i x m r Hi IH k.
  destruct (decide (k = i)) as [->|Hk].
  - rewrite lookup_insert_eq. unfold cancelled.
    destruct (active x) eqn:E.
    + now rewrite lookup_insert_eq.
    + now rewrite IH, Hi.
  - rewrite lookup_insert_ne by congruence.
    destruct (active x); [rewrite lookup_insert_ne by congruence|];
      apply IH.
Qed.

Lemma cancel_images (records : gmap string BatchProcessingProgress)
    (imgs : list ImageStore.ImageFile) :
  map_fold (fun imageId' item imgs =>
              if active item
              then ImageStore.updateStatus imageId' ImageStore.pending imgs
              else imgs) imgs records
  = map (released records) imgs.
Proof.
  apply (map_fold_weak_ind (fun r m => r = map (released m) imgs)).
  { induction imgs as [|img imgs IH]; [reflexivity|].
    cbn [map]. rewrite <- IH. reflexivity. }
  intros i x m r Hi ->.
  assert (Hother : forall img,
    ImageStore.id img <> i -> released (<[i:=x]> m) img = released m img).
  { intros img Hne. unfold released. now rewrite lookup_insert_ne. }
  assert (Hsame : forall img,
    ImageStore.id img = i -> released m img = img).
  { intros img <-. unfold released. now rewrite Hi. }
  destruct (active x) eqn:E.
  - unfold ImageStore.updateStatus. rewrite map_map.
    apply map_ext. intros img.
    destruct (String.eqb_spec (ImageStore.id (released m img)) i)
      as [Heq|Hne].
    + assert (Hid : ImageStore.id img = i).
      { rewrite <- Heq. unfold released.
        destruct (m !! ImageStore.id img) as [item|]; [|reflexivity].
        now destruct (active item). }
      rewrite (Hsame img Hid). unfold released.
      now rewrite Hid, lookup_insert_eq, E.
    + assert (Hid : ImageStore.id img <> i).
      { intros Hid. apply Hne. now rewrite (Hsame img Hid). }
      now rewrite Hother.
  - apply map_ext. intros img.
    destruct (decide (ImageStore.id img = i)) as [Hid|Hid].
    + rewrite (Hsame img Hid). unfold released.
      now rewrite Hid, lookup_insert_eq, E.
    + now rewrite Hother.
Qed.

Lemma cancel_released (s : State) :
  images (cancel s) = map (released (individualProgress s)) (images s).
Proof. apply cancel_images. Qed.

(** X20. [cancel] ends the batch: [isProcessing] is cleared, the error reads
    [Batch processing cancelled], the pool, the pending items and the queue of
    the processing store are empty. Every progress record that was queued or
    processing reads error with progress 0 and its image is pending again; the
    other records and images are as before. No message of a worker changes the
    state afterwards. *)
Theorem cancel_effects (s : State) :
  let s' := cancel s in
  isProcessing s' = false
  /\ error s' = Some "Batch processing cancelled"
  /\ workerPool s' = []
  /\ pendingQueue s' = []
  /\ ProcessingStore.queue (processingStore s') = []
  /\ (forall k,
        individualProgress s' !! k = cancelled <$> individualProgress s !! k)
  /\ images s' = map (released (individualProgress s)) (images s)
  /\ (forall now w response, step now s' (WorkerMessage w response) = s').
Proof.
  cbv zeta. unfold cancel. state_fields.
  repeat (split; [reflexivity|]).
  split; [|split].
  - intros k. fold active. rewrite cancel_progress. unfold cancelled.
    destruct (individualProgress s !! k) as [item|]; [|reflexivity].
    cbn [fmap option_fmap option_map]. now destruct (active item).
  - apply cancel_images.
  - intros now w response. cbn [step]. state_fields.
    now rewrite lookup_nil.
Qed.

(** *** No idle worker while an item is pending *)

Lemma getAvailableWorker_release (pool : list WorkerInstance) (w : nat)
    (x : WorkerInstance) (g : WorkerInstance -> WorkerInstance) :
  getAvailableWorker pool = None -> pool !! w = Some x ->
  busy (g x) = false ->
  getAvailableWorker (alter g w pool) = Some w.
Proof.
  revert w. induction pool as [|y pool IH]; intros w Hnone Hw Hg.
  { discriminate Hw. }
  cbn [getAvailableWorker] in Hnone.
  destruct (busy y) eqn:Hy; [|discriminate Hnone]. cbn [negb] in Hnone.
  destruct (getAvailableWorker pool) eqn:Hpool; [discriminate Hnone|].
  destruct w as [|w].
  - injection Hw as ->.
    change (alter g 0 (x :: pool)) with (g x :: pool).
    cbn [getAvailableWorker]. now rewrite Hg.
  - change (alter g (S w) (y :: pool)) with (y :: alter g w pool).
    cbn [getAvailableWorker]. rewrite Hy. cbn [negb].
    now rewrite (IH w eq_refl Hw Hg).
Qed.

Lemma getAvailableWorker_busy (pool : list WorkerInstance) (w : nat)
    (h : WorkerInstance -> WorkerInstance) :
  getAvailableWorker pool = None -> (forall x, busy (h x) = true) ->
  getAvailableWorker (alter h w pool) = None.
Proof.
  revert w. induction pool as [|y pool IH]; intros w Hnone Hh.
  { reflexivity. }
  cbn [getAvailableWorker] in Hnone.
  destruct (busy y) eqn:Hy; [|discriminate Hnone]. cbn [negb] in Hnone.
  destruct (getAvailableWorker pool) eqn:Hpool; [discriminate Hnone|].
  destruct w as [|w].
  - change (alter h 0 (y :: pool)) with (h y :: pool).
    cbn [getAvailableWorker]. rewrite Hh. cbn [negb]. now rewrite Hpool.
  - change (alter h (S w) (y :: pool)) with (y :: alter h w pool).
    cbn [getAvailableWorker]. rewrite Hy. cbn [negb].
    now rewrite (IH w eq_refl Hh).
Qed.

Lemma alter_absent (pool : list WorkerInstance) (w : nat)
    (g : WorkerInstance -> WorkerInstance) :
  pool !! w = None -> alter g w pool = pool.
Proof.
  revert w. induction pool as [|y pool IH]; intros w Hw; [reflexivity|].
  destruct w as [|w]; [discriminate Hw|].
  change (alter g (S w) (y :: pool)) with (y :: alter g w pool).
  now rewrite IH.
Qed.

Lemma aborted_false (s : State) :
  abortController s <> Some true -> aborted s = false.
Proof.
  unfold aborted. destruct (abortController s) as [[|]|]; congruence.
Qed.

Lemma getAvailableWorker_working (ids : list string) :
  getAvailableWorker (working <$> ids) = None.
Proof.
  induction ids as [|i ids IH]; [reflexivity|].
  cbn [fmap list_fmap getAvailableWorker working busy negb].
  change (list_fmap _ _ working ids) with (working <$> ids).
  now rewrite IH.
Qed.

Lemma processNextInQueue_optionsRef (now : Z) (s : State) :
  optionsRef (processNextInQueue now s) = optionsRef s.
Proof.
  unfold processNextInQueue.
  destruct (aborted s); [reflexivity|].
  destruct (getAvailableWorker (workerPool s)); [|reflexivity].
  destruct (pendingQueue s) as [|[imageId' f] rest]; [reflexivity|].
  cbn [optionsRef setPendingQueue].
  now destruct (optionsRef s) eqn:E.
Qed.

Lemma iter_optionsRef (now : Z) (n : nat) (s : State) :
  optionsRef (Nat.iter n (processNextInQueue now) s) = optionsRef s.
Proof.
  induction n as [|n IH]; [reflexivity|].
  cbn [Nat.iter nat_rect]. now rewrite processNextInQueue_optionsRef.
Qed.

(** A worker is released and the next item is taken. *)
Lemma next_after_release (now : Z) (s released' : State) (w : nat)
    (g : WorkerInstance -> WorkerInstance) :
  conserving s -> abortController s <> Some true ->
  (forall x, busy (g x) = false) ->
  pendingQueue released' = pendingQueue s ->
  optionsRef released' = optionsRef s ->
  abortController released' = abortController s ->
  workerPool released' = alter g w (workerPool s) ->
  conserving (processNextInQueue now released').
Proof.
  intros Hs Habort Hg Hpending Hoptions Hcontroller Hpool.
  destruct Hs as [Hnone|([o Ho] & Hbusy & Hlen)].
  { rewrite processNextInQueue_nothing_pending by congruence.
    left. congruence. }
  destruct (pendingQueue s) as [|[imageId' f] rest] eqn:Hqueue.
  { rewrite processNextInQueue_nothing_pending by congruence.
    left. congruence. }
  unfold processNextInQueue.
  rewrite aborted_false by congruence.
  rewrite Hpool, Hpending.
  destruct (workerPool s !! w) as [x|] eqn:Hw.
  - rewrite (getAvailableWorker_release _ _ x g Hbusy Hw (Hg x)).
    cbn [optionsRef setPendingQueue]. rewrite Hoptions, Ho.
    right. state_fields. rewrite Hoptions, Ho, Hpool.
    split; [eauto|]. split.
    + rewrite list_alter_alter_eq.
      now apply getAvailableWorker_busy.
    + now rewrite !length_alter.
  - rewrite alter_absent, Hbusy by assumption.
    right. rewrite Hoptions, Ho, Hpool, alter_absent by assumption. eauto.
Qed.

Lemma checkCompletion_conserving (s : State) :
  conserving s -> conserving (checkCompletion s).
Proof.
  unfold conserving, checkCompletion. now destruct (_ && _).
Qed.

Lemma step_conserving (now : Z) (s : State) (e : Event) :
  abortController s <> Some true -> conserving s ->
  conserving (step now s e).
Proof.
  intros Habort Hs.
  destruct e as [imageIds options| |w response|w imageId' rejection];
    cbn [step].
  - destruct (decide (imageIds = [])) as [->|Hne]; [exact Hs|].
    destruct (processBatch_prepared now imageIds options s Hne)
      as (prepared & Heq & Hpending & Hcontroller & Hworkers & Hoptions & _).
    destruct (processBatch_workers now imageIds options s Hne)
      as (Hpool & Hrest & _).
    cbv zeta in Hpool, Hrest.
    set (queue := eligible (images s) imageIds) in *.
    destruct (drop Types.MAX_CONCURRENT_PROCESSING queue) as [|item rest]
      eqn:Hdrop; [now left|].
    assert (Hfull : (Types.MAX_CONCURRENT_PROCESSING <= length queue)%nat).
    { destruct (Nat.le_gt_cases Types.MAX_CONCURRENT_PROCESSING
                  (length queue)) as [|Hshort]; [assumption|].
      rewrite drop_ge in Hdrop by lia. discriminate Hdrop. }
    right. split; [|split].
    + rewrite Heq, iter_optionsRef, Hoptions. eauto.
    + rewrite Hpool.
      replace (Types.MAX_CONCURRENT_PROCESSING - length queue)%nat
        with 0%nat by lia.
      cbn [repeat]. rewrite app_nil_r.
      apply getAvailableWorker_working.
    + rewrite Hpool, length_app, !length_fmap, length_take, repeat_length.
      lia.
  - left. reflexivity.
  - destruct (workerPool s !! w) as [[b c [imageId'|]]|] eqn:Hw;
      try exact Hs.
    unfold handleMessage. rewrite aborted_false by assumption.
    destruct response as [[p|]|[result|]|workerError]; cbn [fst];
      try exact Hs.
    all: apply checkCompletion_conserving.
    all: eapply (next_after_release now s); eauto; reflexivity.
  - unfold fileRead. destruct rejection as [message|].
    + apply checkCompletion_conserving.
      eapply (next_after_release now s); eauto; reflexivity.
    + now rewrite aborted_false.
Qed.

(** X21. An item waits only while every worker is busy: after any events, if
    an item is pending then the pool holds four workers, all busy. *)
Theorem no_idle_worker_while_pending (imgs : list ImageStore.ImageFile)
    (events : list (Z * Event)) :
  let s := run events (initialState imgs) in
  pendingQueue s <> [] ->
  length (workerPool s) = Types.MAX_CONCURRENT_PROCESSING
  /\ busyWorkers (workerPool s) = Types.MAX_CONCURRENT_PROCESSING.
Proof.
  cbv zeta.
  assert (H : forall s,
    abortController s <> Some true -> conserving s ->
    abortController (run events s) <> Some true
    /\ conserving (run events s)).
  { induction events as [|[now e] events IH]; intros s Habort Hs;
      [now split|].
    unfold run in *. cbn [fold_left]. apply IH.
    - now apply step_abortController.
    - now apply step_conserving. }
  destruct (H (initialState imgs)) as [_ Hs]; [discriminate|now left|].
  intros Hpending.
  destruct Hs as [Hnone|(_ & Hbusy & Hlen)]; [contradiction|].
  split; [exact Hlen|]. rewrite <- Hlen.
  set (pool := workerPool (run events (initialState imgs))) in *.
  clear -Hbusy. unfold busyWorkers.
  induction pool as [|x pool IH]; [reflexivity|].
  cbn [getAvailableWorker] in Hbusy. cbn [List.filter].
  destruct (busy x); [|discriminate Hbusy]. cbn [negb length] in *.
  destruct (getAvailableWorker pool); [discriminate Hbusy|].
  now rewrite IH.
Qed.

Lemma no_idle_worker_while_pending_witness :
  pendingQueue
    (run [(0%Z, ProcessBatch (ImageStore.id <$> Examples.sixImages)
                  Examples.fullHD)]
         (initialState Examples.sixImages)) <> []
  /\ busyWorkers
       (workerPool
          (run [(0%Z, ProcessBatch (ImageStore.id <$> Examples.sixImages)
                        Examples.fullHD)]
               (initialState Examples.sixImages)))
     = Types.MAX_CONCURRENT_PROCESSING.
Proof.
  assert (Hpending :
    pendingQueue
      (run [(0%Z, ProcessBatch (ImageStore.id <$> Examples.sixImages)
                    Examples.fullHD)]
           (initialState Examples.sixImages)) <> []).
  { vm_compute. discriminate. }
  split; [exact Hpending|].
  exact (proj2 (no_idle_worker_while_pending Examples.sixImages _ Hpending)).
Defined.

(** *** A worker and its handler *)

(** Progress messages leave the pool, the pending items and the controller
    as they are. *)
Lemma progress_messages (now : Z) (w : nat) (imageId' : string)
    (wi : WorkerInstance) (reported : list JS.number) :
  forall s : State,
  workerPool s !! w = Some wi -> onmessage wi = Some imageId' ->
  let s' := run ((fun p => (now, WorkerMessage w (ProgressMessage (Some p))))
                   <$> reported) s in
  workerPool s' = workerPool s
  /\ pendingQueue s' = pendingQueue s
  /\ abortController s' = abortController s.
Proof.
  induction reported as [|p reported IH]; intros s Hw Hwi; cbv zeta.
  { now split. }
  cbn [fmap list_fmap]. unfold run. cbn [fold_left step].
  rewrite Hw. destruct wi as [b c o]. cbn [onmessage] in Hwi. subst o.
  set (s1 := fst (handleMessage now w imageId' (ProgressMessage (Some p)) s)).
  assert (H1 : workerPool s1 = workerPool s
               /\ pendingQueue s1 = pendingQueue s
               /\ abortController s1 = abortController s).
  { subst s1. unfold handleMessage. now destruct (aborted s). }
  destruct H1 as (E1 & E2 & E3).
  destruct (IH s1) as (H1 & H2 & H3); [now rewrite E1|reflexivity|].
  unfold run in H1, H2, H3. rewrite H1, H2, H3. now split.
Qed.

(** Dispatching the next item leaves a progress record as it is, unless the
    record is that of the item dispatched, which then reads processing. *)
Lemma processNextInQueue_record (now : Z) (s : State) (imageId' : string) :
  individualProgress (processNextInQueue now s) !! imageId'
  = individualProgress s !! imageId'
  \/ ((exists f rest, pendingQueue s = (imageId', f) :: rest)
      /\ individualProgress (processNextInQueue now s) !! imageId'
         = Some {| imageId := imageId'; progress := JS.ofZ 0;
                   status := ProcessingStore.processing |}).
Proof.
  unfold processNextInQueue.
  destruct (aborted s); [now left|].
  destruct (getAvailableWorker (workerPool s)); [|now left].
  destruct (pendingQueue s) as [|[next f] rest]; [now left|].
  cbn [optionsRef setPendingQueue].
  destruct (optionsRef s); [|now left].
  cbn [individualProgress setProcessingStore setImages setIndividualProgress
       setWorkerPool setPendingQueue].
  destruct (decide (next = imageId')) as [->|Hne].
  - right. split; [now exists f, rest|]. apply lookup_insert_eq.
  - left. now apply lookup_insert_ne.
Qed.

(** The record of an image once its worker has answered: the answer, or
    processing when the image is the next pending item and is dispatched
    again. *)
Lemma answer_recorded (now : Z) (w : nat) (imageId' : string) (s : State)
    (answer : Worker.WorkerResponse) :
  abortController s <> Some true ->
  (forall id' p, answer <> Worker.progress id' p) ->
  let s' := fst (handleMessage now w imageId' (received answer) s) in
  individualProgress s' !! imageId'
  = Some match answer with
         | Worker.complete _ _ =>
             {| imageId := imageId'; progress := JS.ofZ 100;
                status := ProcessingStore.complete |}
         | _ =>
             {| imageId := imageId'; progress := JS.ofZ 0;
                status := ProcessingStore.error |}
         end
  \/ ((exists f rest, pendingQueue s = (imageId', f) :: rest)
      /\ individualProgress s' !! imageId'
         = Some {| imageId := imageId'; progress := JS.ofZ 0;
                   status := ProcessingStore.processing |}).
Proof.
  intros Habort Hterminal. cbv zeta. unfold handleMessage.
  rewrite aborted_false by assumption.
  destruct answer as [id' p|id' data|id' message]; cbn [received fst].
  - now contradiction (Hterminal id' p).
  - rewrite checkCompletion_individualProgress.
    match goal with
    | |- context [processNextInQueue now ?st] =>
        destruct (processNextInQueue_record now st imageId')
          as [E|[Hnext E]]; rewrite E
    end.
    + left. apply lookup_insert_eq.
    + right. split; [exact Hnext|reflexivity].
  - rewrite checkCompletion_individualProgress.
    match goal with
    | |- context [processNextInQueue now ?st] =>
        destruct (processNextInQueue_record now st imageId')
          as [E|[Hnext E]]; rewrite E
    end.
    + left. apply lookup_insert_eq.
    + right. split; [exact Hnext|reflexivity].
Qed.

(** X22. Every image given to a worker is settled: whatever the browser calls
    do in the worker, once the handler of the scheduler has read, one after
    the other, the messages the worker posts for the request, the progress
    record of the image reads complete with progress 100 or error with
    progress 0.  The one exception is an image that is also the next pending
    item, as in a batch that names it twice: it is given to a worker again
    at once, and its record reads processing with progress 0. *)
Theorem dispatched_image_settles (calls : Platform.Calls)
    (request : Worker.WorkerRequest) (now : Z) (s : State) (w : nat)
    (wi : WorkerInstance) :
  Worker.type request = "compress" ->
  workerPool s !! w = Some wi ->
  onmessage wi = Some (Worker.id request) ->
  abortController s <> Some true ->
  let s' :=
    run ((fun m => (now, WorkerMessage w (received m)))
           <$> posted (Worker.onmessage calls request)) s in
  individualProgress s' !! Worker.id request
  = Some {| imageId := Worker.id request; progress := JS.ofZ 100;
            status := ProcessingStore.complete |}
  \/ individualProgress s' !! Worker.id request
     = Some {| imageId := Worker.id request; progress := JS.ofZ 0;
               status := ProcessingStore.error |}
  \/ ((exists f rest, pendingQueue s = (Worker.id request, f) :: rest)
      /\ individualProgress s' !! Worker.id request
         = Some {| imageId := Worker.id request; progress := JS.ofZ 0;
                   status := ProcessingStore.processing |}).
Proof.
  intros Htype Hw Hwi Habort. cbv zeta.
  destruct (proj1 (onmessage_answer calls request) Htype)
    as (reported & answer & -> & _ & Hanswer).
  rewrite fmap_app, <- list_fmap_compose. unfold run.
  rewrite fold_left_app.
  destruct (progress_messages now w (Worker.id request) wi reported s Hw Hwi)
    as (E1 & E2 & E3).
  unfold run in E1, E2, E3. cbn [compose received] in *.
  set (s1 := fold_left _ _ s) in *.
  cbn [fmap list_fmap fold_left step]. rewrite E1, Hw.
  destruct wi as [b c o]. cbn [onmessage] in Hwi. subst o.
  destruct (answer_recorded now w (Worker.id request) s1 answer)
    as [E|[Hnext E]].
  - now rewrite E3.
  - intros id' p.
    destruct Hanswer as [(data & -> & _)|(message & -> & _)]; discriminate.
  - rewrite E.
    destruct Hanswer as [(data & -> & _)|(message & -> & _)]; auto.
  - right. right. rewrite <- E2. split; assumption.
Qed.

(** The worker of image [a] answers: the image is complete.  In a batch
    that names [a] five times, [a] is pending again when its worker answers,
    and is processing again afterwards. *)
Lemma dispatched_image_settles_witness :
  individualProgress
    (run ((fun m => (5%Z, WorkerMessage 0 (received m)))
            <$> posted (Worker.onmessage (Examples.browser 4000 3000)
                          Examples.request))
         Examples.submitted) !! "a"
  = Some {| imageId := "a"; progress := JS.ofZ 100;
            status := ProcessingStore.complete |}
  /\ individualProgress
       (run ((fun m => (5%Z, WorkerMessage 0 (received m)))
               <$> posted (Worker.onmessage (Examples.browser 4000 3000)
                             Examples.request))
            Examples.repeated) !! "a"
     = Some {| imageId := "a"; progress := JS.ofZ 0;
               status := ProcessingStore.processing |}.
Proof.
  split.
  - destruct (dispatched_image_settles (Examples.browser 4000 3000)
                Examples.request 5 Examples.submitted 0 (working "a"))
      as [E|[E|[_ E]]];
      [reflexivity|reflexivity|reflexivity|discriminate|exact E|..];
      vm_compute in E; discriminate E.
  - destruct (dispatched_image_settles (Examples.browser 4000 3000)
                Examples.request 5 Examples.repeated 0 (working "a"))
      as [E|[E|[_ E]]];
      [reflexivity|reflexivity|reflexivity|discriminate|..|exact E];
      vm_compute in E; discriminate E.
Defined.

(** *** The uploaded images *)

Lemma map_upload (f : ImageStore.ImageFile -> ImageStore.ImageFile)
    (imgs : list ImageStore.ImageFile) :
  (forall img, upload (f img) = upload img) ->
  upload <$> map f imgs = upload <$> imgs.
Proof.
  intros Hf. induction imgs as [|img imgs IH]; [reflexivity|].
  cbn [map fmap list_fmap]. rewrite Hf. f_equal. exact IH.
Qed.

Lemma updateStatus_upload (id' : string) (status' : ImageStore.ImageStatus)
    (imgs : list ImageStore.ImageFile) :
  upload <$> ImageStore.updateStatus id' status' imgs = upload <$> imgs.
Proof.
  apply map_upload. intros img. now destruct (String.eqb _ _).
Qed.

Lemma updateCompressed_upload (id' : string)
    (result : Types.CompressedResult) (imgs : list ImageStore.ImageFile) :
  upload <$> ImageStore.updateCompressed id' result imgs = upload <$> imgs.
Proof.
  apply map_upload. intros img. now destruct (String.eqb _ _).
Qed.

Lemma setError_upload (id' message : string)
    (imgs : list ImageStore.ImageFile) :
  upload <$> ImageStore.setError id' message imgs = upload <$> imgs.
Proof.
  apply map_upload. intros img. now destruct (String.eqb _ _).
Qed.

Lemma processNextInQueue_upload (now : Z) (s : State) :
  upload <$> images (processNextInQueue now s) = upload <$> images s.
Proof.
  next_cases s; try reflexivity.
  state_fields. apply updateStatus_upload.
Qed.

Lemma step_upload (now : Z) (s : State) (e : Event) :
  upload <$> images (step now s e) = upload <$> images s.
Proof.
  destruct e as [imageIds options| |w response|w imageId' rejection];
    cbn [step].
  - destruct (decide (imageIds = [])) as [->|Hne]; [reflexivity|].
    destruct (processBatch_prepared now imageIds options s Hne)
      as (prepared & -> & _ & _ & _ & _ & _ & _ & <- & _).
    unfold Types.MAX_CONCURRENT_PROCESSING. cbn [Nat.iter nat_rect].
    now rewrite !processNextInQueue_upload.
  - rewrite cancel_released.
    apply map_upload. intros img. unfold released.
    destruct (individualProgress s !! ImageStore.id img) as [item|];
      [|reflexivity].
    now destruct (active item).
  - destruct (workerPool s !! w) as [[b c [imageId'|]]|]; try reflexivity.
    unfold handleMessage. destruct (aborted s); [reflexivity|].
    destruct response as [[p|]|[result|]|workerError]; cbn [fst];
      try reflexivity;
      rewrite (proj2 (proj2 (proj2 (proj2 (proj2
                 (checkCompletion_fields _)))))),
        processNextInQueue_upload;
      state_fields;
      rewrite ?updateCompressed_upload, ?setError_upload; reflexivity.
  - unfold fileRead. destruct rejection as [message|].
    + rewrite (proj2 (proj2 (proj2 (proj2 (proj2
                 (checkCompletion_fields _)))))),
        processNextInQueue_upload.
      state_fields. apply setError_upload.
    + now destruct (aborted s).
Qed.

(** X23. The scheduler never adds, removes or reorders an uploaded image and
    never changes its id or file: after any events the images are those it
    started with, up to their status, result and error message. *)
Theorem scheduler_keeps_uploads (imgs : list ImageStore.ImageFile)
    (events : list (Z * Event)) :
  upload <$> images (run events (initialState imgs)) = upload <$> imgs.
Proof.
  assert (H : forall s, upload <$> images (run events s) = upload <$> images s).
  { induction events as [|[now e] events IH]; intros s; [reflexivity|].
    unfold run in *. cbn [fold_left]. now rewrite IH, step_upload. }
  apply H.
Qed.

End Scheduler.

(** ** More on the history store *)
Section HistoryOperations.
Import HistoryStore Spec.

Lemma addHistoryEntry_below_limit (entry : CompressionHistoryEntry)
    (store : gmap string CompressionHistoryEntry) :
  (size store < MAX_HISTORY_ENTRIES)%nat -> store !! id entry = None ->
  addHistoryEntry entry store = (<[id entry := entry]> store, Resolved true).
Proof.
  intros Hfree Hnew. unfold addHistoryEntry.
  destruct (Nat.leb_spec MAX_HISTORY_ENTRIES (size store)); [lia|].
  now rewrite Hnew.
Qed.

(** X24. Below the limit, adding an entry under a new id resolves to true and
    only adds: the entry is read back under its id, every other id reads as
    before, and the count grows by one. *)
Theorem addHistoryEntry_then_get (entry : CompressionHistoryEntry)
    (store : gmap string CompressionHistoryEntry) :
  (getHistoryCount store < MAX_HISTORY_ENTRIES)%nat ->
  getHistoryEntry (id entry) store = None ->
  let result := addHistoryEntry entry store in
  snd result = Resolved true
  /\ getHistoryEntry (id entry) (fst result) = Some entry
  /\ (forall id', id' <> id entry ->
        getHistoryEntry id' (fst result) = getHistoryEntry id' store)
  /\ getHistoryCount (fst result) = S (getHistoryCount store).
Proof.
  unfold getHistoryCount, getHistoryEntry. intros Hfree Hnew. cbv zeta.
  rewrite addHistoryEntry_below_limit by assumption.
  cbn [fst snd]. split; [reflexivity|]. split; [|split].
  - apply lookup_insert_eq.
  - intros id' Hne. now rewrite lookup_insert_ne.
  - now apply map_size_insert_None.
Qed.

Lemma addHistoryEntry_then_get_witness :
  (getHistoryCount Examples.twoEntries < MAX_HISTORY_ENTRIES)%nat
  /\ getHistoryEntry (id Examples.newEntry) Examples.twoEntries = None
  /\ getHistoryEntry (id Examples.newEntry)
       (fst (addHistoryEntry Examples.newEntry Examples.twoEntries))
     = Some Examples.newEntry
  /\ getHistoryCount
       (fst (addHistoryEntry Examples.newEntry Examples.twoEntries))
     = S (getHistoryCount Examples.twoEntries).
Proof.
  assert (Hfree :
    (getHistoryCount Examples.twoEntries < MAX_HISTORY_ENTRIES)%nat).
  { apply Nat.ltb_lt. vm_compute. reflexivity. }
  assert (Hnew :
    getHistoryEntry (id Examples.newEntry) Examples.twoEntries = None).
  { vm_compute. reflexivity. }
  destruct (addHistoryEntry_then_get Examples.newEntry Examples.twoEntries
              Hfree Hnew) as (_ & Hget & _ & Hcount).
  exact (conj Hfree (conj Hnew (conj Hget Hcount))).
Defined.

(** X25. [deleteHistoryEntry] always resolves to true; afterwards the id reads
    as not found and every other id reads as before; the count drops by one if
    the id was present, and the store is unchanged if it was not. Deleting an
    entry just added under a new id, below the limit, gives the store back. *)
Theorem deleteHistoryEntry_then_get (id' : string)
    (store : gmap string CompressionHistoryEntry) :
  let result := deleteHistoryEntry id' store in
  snd result = Resolved true
  /\ getHistoryEntry id' (fst result) = None
  /\ (forall k, k <> id' ->
        getHistoryEntry k (fst result) = getHistoryEntry k store)
  /\ (is_Some (getHistoryEntry id' store) ->
      S (getHistoryCount (fst result)) = getHistoryCount store)
  /\ (getHistoryEntry id' store = None -> fst result = store)
  /\ (forall entry,
        id entry = id' ->
        (getHistoryCount store < MAX_HISTORY_ENTRIES)%nat ->
        getHistoryEntry id' store = None ->
        fst (deleteHistoryEntry id' (fst (addHistoryEntry entry store)))
        = store).
Proof.
  unfold deleteHistoryEntry, getHistoryEntry, getHistoryCount. cbn [fst snd].
  split; [reflexivity|]. split; [|split; [|split; [|split]]].
  - apply lookup_delete_eq.
  - intros k Hne. now rewrite lookup_delete_ne.
  - intros Hin. rewrite map_size_delete_Some by assumption.
    destruct Hin as [e He].
    assert (size store <> 0%nat); [|lia].
    apply map_size_non_empty_iff. intros ->. now rewrite lookup_empty in He.
  - apply delete_id.
  - intros entry <- Hfree Hnew.
    rewrite addHistoryEntry_below_limit by assumption. cbn [fst].
    rewrite delete_insert_eq. now apply delete_id.
Qed.

Lemma deleteHistoryEntry_then_get_witness :
  is_Some (getHistoryEntry "entry-1" Examples.twoEntries)
  /\ S (getHistoryCount (fst (deleteHistoryEntry "entry-1"
                                Examples.twoEntries)))
     = getHistoryCount Examples.twoEntries
  /\ getHistoryEntry "entry-7" Examples.twoEntries = None
  /\ fst (deleteHistoryEntry "entry-7" Examples.twoEntries)
     = Examples.twoEntries.
Proof.
  assert (Hin : is_Some (getHistoryEntry "entry-1" Examples.twoEntries)).
  { exists (Examples.historyEntry 1). vm_compute. reflexivity. }
  assert (Hout : getHistoryEntry "entry-7" Examples.twoEntries = None).
  { vm_compute. reflexivity. }
  destruct (deleteHistoryEntry_then_get "entry-1" Examples.twoEntries)
    as (_ & _ & _ & Hcount & _).
  destruct (deleteHistoryEntry_then_get "entry-7" Examples.twoEntries)
    as (_ & _ & _ & _ & Hsame & _).
  exact (conj Hin (conj (Hcount Hin) (conj Hout (Hsame Hout)))).
Defined.

(** X26. An id is taken once: [addHistoryEntry] of an entry whose id the store
    holds is refused, below the limit always and at the limit unless the entry
    of that id is among those evicted first; the promise rejects with [Failed
    to add history entry] and the store is left as it was, evictions undone. *)
Theorem addHistoryEntry_taken_id (entry : CompressionHistoryEntry)
    (store : gmap string CompressionHistoryEntry) :
  is_Some (getHistoryEntry (id entry) store) ->
  (getHistoryCount store < MAX_HISTORY_ENTRIES)%nat
  \/ id entry ∉ (take (getHistoryCount store - MAX_HISTORY_ENTRIES + 1)
                      (timestampIndex store)).*1 ->
  addHistoryEntry entry store = (store, Rejected "Failed to add history entry").
Proof.
  unfold getHistoryEntry, getHistoryCount. intros Hin [Hfree|Hkept].
  - destruct Hin as [e He]. unfold addHistoryEntry.
    destruct (Nat.leb_spec MAX_HISTORY_ENTRIES (size store)); [lia|].
    now rewrite He.
  - now apply addHistoryEntry_refused.
Qed.

(** The full store and an entry under the id of [entry-5], which is not the
    oldest. *)
Lemma addHistoryEntry_taken_id_witness :
  is_Some (getHistoryEntry (id Examples.repeatedEntry) Examples.fullStore)
  /\ addHistoryEntry Examples.repeatedEntry Examples.fullStore
     = (Examples.fullStore, Rejected "Failed to add history entry").
Proof.
  assert (Hin : is_Some (getHistoryEntry (id Examples.repeatedEntry)
                           Examples.fullStore)).
  { exists (Examples.historyEntry 5). vm_compute. reflexivity. }
  split; [exact Hin|].
  apply (addHistoryEntry_taken_id Examples.repeatedEntry Examples.fullStore
           Hin).
  right. set (keys := (take _ _).*1). vm_compute in keys. subst keys.
  apply (bool_decide_unpack _). vm_compute. exact I.
Defined.

(** X27. Every entry is stored under its own id, whatever calls were made from
    the empty store. *)
Theorem stored_under_own_id (cs : list Call) (k : string)
    (e : CompressionHistoryEntry) :
  calls cs ∅ !! k = Some e -> id e = k.
Proof.
  assert (H : forall store : gmap string CompressionHistoryEntry,
    (forall k e, store !! k = Some e -> id e = k) ->
    forall k e, calls cs store !! k = Some e -> id e = k).
  { induction cs as [|c cs IH]; intros store Hinv; [exact Hinv|].
    unfold calls. cbn [fold_left]. apply IH. clear IH.
    destruct c as [entry|id'|]; cbn [call].
    - unfold addHistoryEntry.
      destruct (_ !! id entry) eqn:E; cbn [fst]; [exact Hinv|].
      intros k' e' Hk'.
      destruct (decide (k' = id entry)) as [->|Hne].
      + rewrite lookup_insert_eq in Hk'. congruence.
      + rewrite lookup_insert_ne in Hk' by congruence.
        destruct (MAX_HISTORY_ENTRIES <=? size store); [|now apply Hinv].
        rewrite evictOldest_lookup in Hk'.
        case_decide; [discriminate|now apply Hinv].
    - cbn [deleteHistoryEntry fst]. intros k' e' Hk'.
      apply lookup_delete_Some in Hk' as [_ Hk']. now apply Hinv.
    - cbn [clearHistory fst]. intros k' e' Hk'.
      now rewrite lookup_empty in Hk'. }
  apply H. intros k' e' Hk'. now rewrite lookup_empty in Hk'.
Qed.

Lemma stored_under_own_id_witness :
  calls [AddHistoryEntry Examples.newEntry; DeleteHistoryEntry "entry-0";
         AddHistoryEntry (Examples.historyEntry 3)] ∅ !! "entry-3"
  = Some (Examples.historyEntry 3)
  /\ id (Examples.historyEntry 3) = "entry-3".
Proof.
  assert (H : calls [AddHistoryEntry Examples.newEntry;
                     DeleteHistoryEntry "entry-0";
                     AddHistoryEntry (Examples.historyEntry 3)] ∅
              !! "entry-3" = Some (Examples.historyEntry 3)).
  { vm_compute. reflexivity. }
  exact (conj H (stored_under_own_id _ _ _ H)).
Defined.

(** *** The store after a run of saves *)

Lemma stored_keys (l : list CompressionHistoryEntry) :
  ((fun e => (id e, e)) <$> l).*1 = id <$> l.
Proof. rewrite <- list_fmap_compose. reflexivity. Qed.

Lemma stored_lookup_new (l : list CompressionHistoryEntry) (k : string) :
  k ∉ id <$> l -> stored l !! k = None.
Proof.
  intros Hk. apply not_elem_of_list_to_map_1. now rewrite stored_keys.
Qed.

Lemma stored_snoc (l : list CompressionHistoryEntry)
    (e : CompressionHistoryEntry) :
  id e ∉ id <$> l -> stored (l ++ [e]) = <[id e := e]> (stored l).
Proof.
  intros He. unfold stored. rewrite fmap_snoc.
  apply list_to_map_snoc. now rewrite stored_keys.
Qed.

Lemma stored_size (l : list CompressionHistoryEntry) :
  NoDup (id <$> l) -> size (stored l) = length l.
Proof.
  intros Hl. unfold stored. rewrite map_size_list_to_map.
  - apply length_fmap.
  - now rewrite stored_keys.
Qed.

Lemma stored_lookup (l : list CompressionHistoryEntry) (k : string)
    (e : CompressionHistoryEntry) :
  stored l !! k = Some e -> e ∈ l /\ id e = k.
Proof.
  intros H. apply elem_of_list_to_map_2 in H.
  apply list_elem_of_fmap in H as (e' & Heq & Hin).
  injection Heq as -> ->. now split.
Qed.

(** The cursor of a store that holds an entry saved before all the others
    reaches that entry first. *)
Lemma evictOldest_first (w : CompressionHistoryEntry)
    (l : list CompressionHistoryEntry) :
  Forall (savedBefore w) l ->
  evictOldest 1 (stored (w :: l)) = delete (id w) (stored (w :: l)).
Proof.
  intros Hw. unfold evictOldest.
  pose proof (timestampIndex_sorted (stored (w :: l))) as Hsorted.
  assert (Hfirst : (id w, w) ∈ timestampIndex (stored (w :: l))).
  { apply elem_of_timestampIndex. apply lookup_insert_eq. }
  assert (Hall : forall k h,
    (k, h) ∈ timestampIndex (stored (w :: l)) -> h ∈ w :: l /\ id h = k).
  { intros k h Hin. apply elem_of_timestampIndex in Hin.
    now apply stored_lookup. }
  destruct (timestampIndex (stored (w :: l))) as [|[k h] rest].
  { now apply elem_of_nil in Hfirst. }
  cbn [take fold_left fst]. f_equal.
  destruct (Hall k h (list_elem_of_here _ _)) as [Hh <-].
  apply elem_of_cons in Hh as [->|Hh]; [reflexivity|].
  exfalso.
  rewrite Forall_forall in Hw. specialize (Hw h Hh).
  apply elem_of_cons in Hfirst as [Heq|Hfirst].
  - injection Heq as _ ->. unfold savedBefore in Hw. lia.
  - apply StronglySorted_inv in Hsorted as [_ Hsorted].
    rewrite Forall_forall in Hsorted. specialize (Hsorted _ Hfirst).
    unfold older, savedBefore in *. cbn [snd] in Hsorted. lia.
Qed.

Lemma addAll_snoc (l : list CompressionHistoryEntry)
    (e : CompressionHistoryEntry)
    (store : gmap string CompressionHistoryEntry) :
  addAll (l ++ [e]) store = fst (addHistoryEntry e (addAll l store)).
Proof. unfold addAll. now rewrite fold_left_app. Qed.

Lemma addAll_latest (entries : list CompressionHistoryEntry) :
  NoDup (id <$> entries) -> StronglySorted savedBefore entries ->
  addAll entries ∅
  = stored (drop (length entries - MAX_HISTORY_ENTRIES) entries).
Proof.
  induction entries as [|e l IH] using rev_ind; intros Hids Hsorted.
  { reflexivity. }
  rewrite fmap_app in Hids. apply NoDup_app in Hids as (Hids & Hnew & _).
  assert (He : id e ∉ id <$> l).
  { intros Hin. apply (Hnew _ Hin). cbn. apply list_elem_of_here. }
  apply StronglySorted_app in Hsorted as (Hlast & Hsorted & _).
  rewrite addAll_snoc, IH by assumption. clear IH.
  rewrite length_app. cbn [length].
  set (k := (length l - MAX_HISTORY_ENTRIES)%nat).
  assert (Hwin : id e ∉ id <$> drop k l).
  { intros Hin. apply He. rewrite fmap_drop in Hin.
    revert Hin. apply subseteq_drop. }
  assert (Hwids : NoDup (id <$> drop k l)).
  { rewrite fmap_drop. apply (sublist_NoDup _ (id <$> l)); [exact Hids|].
    apply sublist_drop. }
  destruct (Nat.lt_ge_cases (length l) MAX_HISTORY_ENTRIES) as [Hfree|Hfull].
  - replace k with 0%nat by (unfold k; lia).
    replace (length l + 1 - MAX_HISTORY_ENTRIES)%nat with 0%nat by lia.
    rewrite !drop_0.
    rewrite addHistoryEntry_below_limit.
    + cbn [fst]. symmetry. now apply stored_snoc.
    + now rewrite stored_size.
    + now apply stored_lookup_new.
  - replace (length l + 1 - MAX_HISTORY_ENTRIES)%nat with (S k)
      by (unfold k; lia).
    rewrite drop_app_le by (unfold k, MAX_HISTORY_ENTRIES in *; lia).
    assert (Hlen : length (drop k l) = MAX_HISTORY_ENTRIES).
    { rewrite length_drop. unfold k. lia. }
    assert (Hnext : drop (S k) l = drop 1 (drop k l)).
    { rewrite drop_drop. f_equal. lia. }
    rewrite Hnext.
    assert (Hws : StronglySorted savedBefore (drop k l)).
    { rewrite <- (take_drop k l) in Hsorted.
      now apply StronglySorted_app_1_r in Hsorted. }
    destruct (drop k l) as [|w rest] eqn:Hdrop; [discriminate Hlen|].
    cbn [drop].
    rewrite addHistoryEntry_new_id.
    + cbn [fst]. rewrite stored_size by assumption. rewrite Hlen.
      replace (MAX_HISTORY_ENTRIES - MAX_HISTORY_ENTRIES + 1)%nat
        with 1%nat by lia.
      apply StronglySorted_inv in Hws as [_ Hw].
      rewrite evictOldest_first by assumption.
      rewrite fmap_cons in Hwids, Hwin.
      apply NoDup_cons in Hwids as [Hwnew Hrest].
      apply not_elem_of_cons in Hwin as [_ Hwin].
      unfold stored at 1. rewrite fmap_cons, list_to_map_cons.
      fold (stored rest).
      rewrite delete_insert_eq, delete_id by now apply stored_lookup_new.
      symmetry. now apply stored_snoc.
    + rewrite stored_size by assumption. lia.
    + now apply stored_lookup_new.
Qed.

Lemma sorted_same_time (l : list CompressionHistoryEntry)
    (a b : CompressionHistoryEntry) :
  StronglySorted savedBefore l -> a ∈ l -> b ∈ l ->
  timestamp a = timestamp b -> a = b.
Proof.
  induction 1 as [|x l Hl IH Hx]; intros Ha Hb Ht.
  { now apply elem_of_nil in Ha. }
  rewrite Forall_forall in Hx. unfold savedBefore in Hx.
  apply elem_of_cons in Ha as [->|Ha], Hb as [->|Hb].
  - reflexivity.
  - specialize (Hx _ Hb). lia.
  - specialize (Hx _ Ha). lia.
  - now apply IH.
Qed.

Lemma timestampIndex_stored (l : list CompressionHistoryEntry) :
  NoDup (id <$> l) -> StronglySorted savedBefore l ->
  timestampIndex (stored l) = (fun e => (id e, e)) <$> l.
Proof.
  intros Hids Hsorted.
  apply (StronglySorted_unique_strong older).
  - intros [k1 e1] [k2 e2] H1 H2 H12 H21.
    apply elem_of_timestampIndex, stored_lookup in H1 as [H1 <-].
    apply list_elem_of_fmap in H2 as (e & Heq & H2).
    injection Heq as -> ->.
    unfold older in *. cbn [snd] in *.
    assert (e1 = e) as -> by (apply (sorted_same_time l); [done..|lia]).
    reflexivity.
  - apply timestampIndex_sorted.
  - apply (StronglySorted_fmap _ savedBefore); [|exact Hsorted].
    unfold savedBefore, older. cbn [snd]. intros x y Hxy. lia.
  - rewrite timestampIndex_Permutation.
    apply map_to_list_to_map. now rewrite stored_keys.
Qed.

Lemma addAll_below_limit (entries : list CompressionHistoryEntry) :
  NoDup (id <$> entries) -> (length entries <= MAX_HISTORY_ENTRIES)%nat ->
  addAll entries ∅ = stored entries.
Proof.
  induction entries as [|e l IH] using rev_ind; intros Hids Hlen.
  { reflexivity. }
  rewrite fmap_app in Hids. apply NoDup_app in Hids as (Hids & Hnew & _).
  assert (He : id e ∉ id <$> l).
  { intros Hin. apply (Hnew _ Hin). cbn. apply list_elem_of_here. }
  rewrite length_app in Hlen. cbn [length] in Hlen.
  rewrite addAll_snoc, IH by (assumption || lia).
  rewrite addHistoryEntry_below_limit.
  - cbn [fst]. symmetry. now apply stored_snoc.
  - rewrite stored_size by assumption. lia.
  - now apply stored_lookup_new.
Qed.

(** X28. Up to the limit, saves under distinct ids lose nothing, whatever
    their timestamps: every saved entry is read back under its id and the
    count is the number of saves. *)
Theorem saves_below_limit_kept (entries : list CompressionHistoryEntry) :
  NoDup (id <$> entries) -> (length entries <= MAX_HISTORY_ENTRIES)%nat ->
  getHistoryCount (addAll entries ∅) = length entries
  /\ forall e, e ∈ entries ->
       getHistoryEntry (id e) (addAll entries ∅) = Some e.
Proof.
  intros Hids Hlen. rewrite addAll_below_limit by assumption.
  unfold getHistoryCount, getHistoryEntry. split.
  - now apply stored_size.
  - intros e He. apply elem_of_list_to_map_1.
    + now rewrite stored_keys.
    + apply list_elem_of_fmap. now exists e.
Qed.

Lemma saves_below_limit_kept_witness :
  getHistoryCount (addAll [Examples.newEntry; Examples.historyEntry 7] ∅)
  = 2%nat
  /\ getHistoryEntry "new-entry"
       (addAll [Examples.newEntry; Examples.historyEntry 7] ∅)
     = Some Examples.newEntry.
Proof.
  assert (Hids :
    NoDup (id <$> [Examples.newEntry; Examples.historyEntry 7])).
  { apply (bool_decide_unpack _). vm_compute. exact I. }
  assert (Hlen : (length [Examples.newEntry; Examples.historyEntry 7]
                  <= MAX_HISTORY_ENTRIES)%nat).
  { unfold MAX_HISTORY_ENTRIES. cbn [length]. lia. }
  destruct (saves_below_limit_kept _ Hids Hlen) as [Hcount Hget].
  split; [exact Hcount|].
  apply (Hget Examples.newEntry). apply list_elem_of_here.
Defined.

(** X29. Results saved one after another under distinct ids, each later than
    the one before: the history lists the last 100 of them, the newest first,
    and nothing else. *)
Theorem saves_keep_latest (entries : list CompressionHistoryEntry) :
  NoDup (id <$> entries) -> StronglySorted savedBefore entries ->
  getHistoryEntries (addAll entries ∅)
  = reverse (drop (length entries - MAX_HISTORY_ENTRIES) entries).
Proof.
  intros Hids Hsorted. rewrite addAll_latest by assumption.
  set (k := (length entries - MAX_HISTORY_ENTRIES)%nat).
  unfold getHistoryEntries. rewrite timestampIndex_stored.
  - rewrite <- fmap_reverse, <- list_fmap_compose. apply list_fmap_id.
  - rewrite fmap_drop. apply (sublist_NoDup _ (id <$> entries)).
    + exact Hids.
    + apply sublist_drop.
  - rewrite <- (take_drop k entries) in Hsorted.
    now apply StronglySorted_app_1_r in Hsorted.
Qed.

Lemma historyEntry_savedBefore (start len : nat) :
  StronglySorted savedBefore (Examples.historyEntry <$> seq start len).
Proof.
  revert start. induction len as [|len IH]; intros start; cbn [seq fmap].
  { constructor. }
  rewrite fmap_cons. constructor; [apply IH|].
  apply Forall_forall. intros e He.
  apply list_elem_of_fmap in He as (i & -> & Hi).
  apply elem_of_seq in Hi. unfold savedBefore. cbn. lia.
Qed.

Lemma saves_keep_latest_witness :
  getHistoryEntries (addAll (Examples.historyEntry <$> seq 0 102) ∅)
  = reverse (Examples.historyEntry <$> seq 2 100).
Proof.
  assert (Hids : NoDup (id <$> (Examples.historyEntry <$> seq 0 102))).
  { apply (bool_decide_unpack _). vm_compute. exact I. }
  assert (Hsorted :
    StronglySorted savedBefore (Examples.historyEntry <$> seq 0 102)).
  { apply historyEntry_savedBefore. }
  exact (saves_keep_latest _ Hids Hsorted).
Defined.

End HistoryOperations.
